(** * openerp_proxy.orm.record: records, record lists and their cache

    A shallow embedding of [openerp_proxy/orm/record.py].  Python objects
    live in a store (records, record lists and cache stores are addressed,
    so that aliasing of one cache by many records is visible); methods are
    state-passing functions that return either a value or a raised
    exception.  Every remote [read] is appended to a log kept in the store. *)

From stdpp Require Import gmap strings list fin_maps pretty.

Set Warnings "-register-all".

Open Scope string_scope.
Open Scope list_scope.
Open Scope Z_scope.

(** ** Python values *)

(** Raw values as the server sends them and as the cache keeps them. *)
Inductive value :=
  | VNone
  | VBool (b : bool)
  | VInt (z : Z)
  | VStr (s : string)
  | VList (l : list value).

(** Addresses of objects in the store. *)
Abbreviation addr := nat.

(** What an argument or a field access of this module can evaluate to: a
    raw value, a [Record], a [RecordList] or a [Cache]. *)
Inductive pyval :=
  | PVal (v : value)
  | PRec (a : addr)
  | PList (a : addr)
  | PCache (a : addr).

(** [isinstance(v, numbers.Integral)]: ints and bools. *)
Definition as_integral (v : value) : option Z :=
  match v with
  | VInt z => Some z
  | VBool b => Some (Z.b2z b)
  | _ => None
  end.

(** [bool(v)] on raw values. *)
Definition truthy (v : value) : bool :=
  match v with
  | VNone => false
  | VBool b => b
  | VInt z => negb (z =? 0)
  | VStr s => negb (String.eqb s "")
  | VList l => match l with [] => false | _ => true end
  end.

(** [a == b] on raw values; bools compare as the integers they are. *)
Fixpoint value_eqb (a b : value) : bool :=
  match as_integral a, as_integral b with
  | Some x, Some y => x =? y
  | Some _, None | None, Some _ => false
  | None, None =>
      match a, b with
      | VNone, VNone => true
      | VStr s, VStr t => String.eqb s t
      | VList l, VList k =>
          (fix go (l k : list value) : bool :=
             match l, k with
             | [], [] => true
             | x :: l', y :: k' => value_eqb x y && go l' k'
             | _, _ => false
             end) l k
      | _, _ => false
      end
  end.

(** Exceptions raised by this module, plus [BadReference] for an address
    that names no object of the store (no Python run produces one). *)
Inductive exn :=
  | KeyError (msg : string)
  | ValueError (msg : string)
  | TypeError (msg : string)
  | AssertionError (msg : string)
  | IndexError (msg : string)
  | RemoteFailure
  | BadReference.

Inductive outcome (A : Type) :=
  | Ret (a : A)
  | Raise (e : exn).
Arguments Ret {A} a.
Arguments Raise {A} e.

(** ** The Collection Proxy (external collaborator) *)

Record field_info := {
  f_type : string;
  f_relation : option string;
  f_function : bool
}.

(** A row returned by [read]: the ['id'] key and the other keys. *)
Record row := {
  row_id : Z;
  row_data : gmap string value
}.

(** [rdata[key]] on a returned row. *)
Definition row_get (d : row) (key : string) : option value :=
  if String.eqb key "id" then Some (VInt (row_id d)) else row_data d !! key.

(** The row as the dictionary Python sees. *)
Definition row_dict (d : row) : gmap string value :=
  <["id" := VInt (row_id d)]> (row_data d).

(** One call of [Object.read]. *)
Record request := {
  rq_object : string;
  rq_ids : list Z;
  rq_fields : option (list string);
  rq_context : option (gmap string value)
}.

(** The client behind every [Object]: which objects exist, their column
    metadata, [resolve_field_path], and the server's answer to a [read]
    given the reads issued before it ([None]: the remote call fails). *)
Record Client := {
  registered_objects : string → bool;
  columns_info : string → gmap string field_info;
  resolve_field_path : string → string → outcome (list (string * string * option string));
  remote_read : list request → request → option (list row)
}.

(** ** Cache Store *)

(** Modelled from the spec: [ObjectCache] of orm/cache.py, the per-collection
    bucket: row id to field mapping, plus the bucket's context. *)
Record ObjectCache := {
  oc_rows : gmap Z (gmap string value);
  oc_context : option (gmap string value)
}.

(** Modelled from the spec: a bucket as [get_or_create_bucket] creates it. *)
Definition empty_bucket : ObjectCache :=
  {| oc_rows := ∅; oc_context := None |}.

(** Modelled from the spec: [Cache] of orm/cache.py, collection name to
    bucket. *)
Abbreviation Cache := (gmap string ObjectCache).

(** Modelled from the spec: [cache[name]], the spec's
    [get_or_create_bucket]: the bucket, created empty when absent. *)
Definition get_bucket (c : Cache) (name : string) : ObjectCache :=
  default empty_bucket (c !! name).

(** Modelled from the spec: [lcache[rid]], the spec's [register]: ensures
    [rid] is a key of the bucket, with an empty field mapping when new. *)
Definition register (rid : Z) (b : ObjectCache) : ObjectCache :=
  match oc_rows b !! rid with
  | Some _ => b
  | None => {| oc_rows := <[rid := ∅]> (oc_rows b); oc_context := oc_context b |}
  end.

(** Modelled from the spec: [ObjectCache.update_keys], the spec's
    [register_many]. *)
Definition update_keys (ids : list Z) (b : ObjectCache) : ObjectCache :=
  foldl (λ b rid, register rid b) b ids.

(** Modelled from the spec: [ObjectCache.get_ids_to_read], the spec's
    [ids_missing_field]: every registered row id whose field mapping lacks
    the field. *)
Definition get_ids_to_read (name : string) (b : ObjectCache) : list Z :=
  (map_to_list (filter (λ kv, kv.2 !! name = None) (oc_rows b))).*1.

(** Modelled from the spec: [ObjectCache.cache_field], the spec's
    [write_field]: sets the value of one field of one row. *)
Definition cache_field (rid : Z) (ftype name : string) (v : value)
    (b : ObjectCache) : ObjectCache :=
  {| oc_rows := <[rid := <[name := v]> (default ∅ (oc_rows b !! rid))]> (oc_rows b);
     oc_context := oc_context b |}.

(** Modelled from the spec: [ObjectCache.update_context]: merges into the
    bucket's context, the new keys winning. *)
Definition update_context (ctx : gmap string value) (b : ObjectCache) : ObjectCache :=
  {| oc_rows := oc_rows b;
     oc_context := Some (ctx ∪ default ∅ (oc_context b)) |}.

(** Modelled from the spec: [ObjectCache.prefetch_fields]: rows are already
    registered and the fetch stays lazy, so the bucket is left as it is. *)
Definition prefetch_fields (fields : list string) (b : ObjectCache) : ObjectCache := b.

(** ** The store *)

(** A [Record] instance: its slots.  [_lcache] is the bucket
    [_cache[_object.name]] and is not stored apart. *)
Record RecordObj := {
  rec_object : string;
  rec_cache : addr;
  rec_id : Z;
  rec_related_objects : gmap string pyval
}.

(** A [RecordList] instance: its slots. *)
Record RecordListObj := {
  rl_object : string;
  rl_cache : addr;
  rl_records : list addr
}.

Record state := {
  caches : list Cache;
  records : list RecordObj;
  lists : list RecordListObj;
  log : list request
}.

Definition set_caches (f : list Cache → list Cache) (st : state) : state :=
  {| caches := f (caches st); records := records st; lists := lists st; log := log st |}.
Definition set_records (f : list RecordObj → list RecordObj) (st : state) : state :=
  {| caches := caches st; records := f (records st); lists := lists st; log := log st |}.
Definition set_lists (f : list RecordListObj → list RecordListObj) (st : state) : state :=
  {| caches := caches st; records := records st; lists := f (lists st); log := log st |}.
Definition set_log (f : list request → list request) (st : state) : state :=
  {| caches := caches st; records := records st; lists := lists st; log := f (log st) |}.

(** ** The state and exception monad *)

Definition M (A : Type) : Type := state → state * outcome A.

Global Instance M_ret : MRet M := λ A a st, (st, Ret a).
Global Instance M_bind : MBind M := λ A B f m st,
  match m st with
  | (st', Ret a) => f a st'
  | (st', Raise e) => (st', Raise e)
  end.

Definition raise {A} (e : exn) : M A := λ st, (st, Raise e).
Definition get_state : M state := λ st, (st, Ret st).
Definition modify (f : state → state) : M unit := λ st, (f st, Ret tt).

(** [for x in l: body(x)] *)
Fixpoint for_each {A} (body : A → M unit) (l : list A) : M unit :=
  match l with
  | [] => mret tt
  | x :: l' => body x ;; for_each body l'
  end.

(** [[f(x) for x in l]] *)
Fixpoint list_comp {A B} (f : A → M B) (l : list A) : M (list B) :=
  match l with
  | [] => mret []
  | x :: l' => y ← f x; ys ← list_comp f l'; mret (y :: ys)
  end.

Definition lift_option {A} (e : exn) (o : option A) : M A :=
  match o with Some a => mret a | None => raise e end.

(** Dereferencing. *)
Definition get_rec (r : addr) : M RecordObj :=
  st ← get_state; lift_option BadReference (records st !! r).
Definition get_list (l : addr) : M RecordListObj :=
  st ← get_state; lift_option BadReference (lists st !! l).
Definition get_cache (c : addr) : M Cache :=
  st ← get_state; lift_option BadReference (caches st !! c).

(** [empty_cache(client)]: a new, empty [Cache]. *)
Definition empty_cache : M addr :=
  st ← get_state;
  modify (set_caches (λ cs, cs ++ [∅]));;
  mret (length (caches st)).

(** The bucket [cache[name]] as the store holds it. *)
Definition lcache (c : addr) (name : string) : M ObjectCache :=
  ca ← get_cache c; mret (get_bucket ca name).

(** In-place update of the bucket [cache[name]] (created when absent). *)
Definition update_lcache (c : addr) (name : string) (f : ObjectCache → ObjectCache) : M unit :=
  ca ← get_cache c;
  modify (set_caches (λ cs, <[c := <[name := f (get_bucket ca name)]> ca]> cs)).

(** ** Record *)

Section WithClient.
Variable client : Client.

(** [Object.read(ids, fields, context=ctx)]: logged, then answered by the
    server; a remote failure propagates. *)
Definition object_read (obj : string) (ids : list Z) (fields : option (list string))
    (ctx : option (gmap string value)) : M (list row) :=
  st ← get_state;
  let rq := {| rq_object := obj; rq_ids := ids; rq_fields := fields; rq_context := ctx |} in
  modify (set_log (λ lg, lg ++ [rq]));;
  lift_option RemoteFailure (remote_read client (log st) rq).

(** [service.get_obj(name)] *)
Definition get_obj (name : string) : M string :=
  if registered_objects client name then mret name
  else raise (ValueError ("Object " +:+ name +:+ " not found"))%string.

(** [client[name]] *)
Definition client_getitem (name : string) : M string :=
  if registered_objects client name then mret name
  else raise (KeyError name).

(** [Record.__init__], reached through [get_record]: [rid] is whatever the
    caller passes; anything but an integer fails the assertion. *)
Definition get_record (obj : string) (rid : value) (cache : option addr)
    (context : option (gmap string value)) : M addr :=
  match as_integral rid with
  | None => raise (AssertionError "rid must be int")
  | Some rid =>
      c ← match cache with None => empty_cache | Some c => mret c end;
      update_lcache c obj (register rid);;
      match context with
      | Some ctx => update_lcache c obj (update_context ctx)
      | None => mret tt
      end;;
      st ← get_state;
      modify (set_records (λ rs, rs ++ [{| rec_object := obj; rec_cache := c;
                                           rec_id := rid; rec_related_objects := ∅ |}]));;
      mret (length (records st))
  end.

(** [Record.id] *)
Definition Record_id (r : addr) : M Z :=
  ro ← get_rec r; mret (rec_id ro).

(** [Record._data]: [self._lcache[self._id]], which registers the id. *)
Definition Record_data (r : addr) : M (gmap string value) :=
  ro ← get_rec r;
  update_lcache (rec_cache ro) (rec_object ro) (register (rec_id ro));;
  b ← lcache (rec_cache ro) (rec_object ro);
  mret (default ∅ (oc_rows b !! rec_id ro)).

(** [Record.context] *)
Definition Record_context (r : addr) : M (option (gmap string value)) :=
  ro ← get_rec r;
  b ← lcache (rec_cache ro) (rec_object ro);
  mret (oc_context b).

Section Hash.
(** [hash] of a (name, id) tuple. *)
Variable py_hash : string * Z → Z.

(** [Record.__hash__] *)
Definition Record_hash (ro : RecordObj) : Z :=
  py_hash (rec_object ro, rec_id ro).
End Hash.

(** [Record.__eq__] against another record. *)
Definition Record_eq (ro other : RecordObj) : bool :=
  rec_id other =? rec_id ro.

(** [Record.__eq__] against any raw value. *)
Definition Record_eq_value (ro : RecordObj) (other : value) : bool :=
  match as_integral other with
  | Some n => rec_id ro =? n
  | None => false
  end.

Definition set_related (r : addr) (f : gmap string pyval → gmap string pyval) : M unit :=
  ro ← get_rec r;
  modify (set_records (λ rs, <[r := {| rec_object := rec_object ro; rec_cache := rec_cache ro;
                                      rec_id := rec_id ro;
                                      rec_related_objects := f (rec_related_objects ro) |}]> rs)).

(** [self._columns_info[name]['relation']] *)
Definition relation_of (obj name : string) : M string :=
  fi ← lift_option (KeyError name) (columns_info client obj !! name);
  lift_option (KeyError "relation") (f_relation fi).

(** [self._related_objects[name]] *)
Definition related_get (r : addr) (name : string) : M pyval :=
  ro ← get_rec r;
  lift_option (KeyError name) (rec_related_objects ro !! name).

(** [Record._get_many2one_rel_obj] with [cached=True]. *)
Definition Record_get_many2one_rel_obj (r : addr) (name : string) (rel_data : value) : M pyval :=
  ro ← get_rec r;
  match rec_related_objects ro !! name with
  | Some _ => mret tt
  | None =>
      if truthy rel_data then
        rel_id ← match rel_data with
                 | VList (x :: _) => mret x
                 | VList [] => raise (TypeError "list index out of range")
                 | VStr s => mret (VStr (String.substring 0 1 s))
                 | v => mret v
                 end;
        rel ← relation_of (rec_object ro) name;
        rel_obj ← get_obj rel;
        ctx ← Record_context r;
        a ← get_record rel_obj rel_id (Some (rec_cache ro)) ctx;
        set_related r (insert name (PRec a))
      else set_related r (insert name (PVal (VBool false)))
  end;;
  related_get r name.

(** [RecordList.__init__], reached through [get_record_list], on a list of
    integer ids. *)
Definition get_record_list (obj : string) (ids : list Z) (fields : option (list string))
    (cache : option addr) (context : option (gmap string value)) : M addr :=
  c ← match cache with None => empty_cache | Some c => mret c end;
  update_lcache c obj (λ b, b);;
  match context with
  | Some ctx => update_lcache c obj (update_context ctx)
  | None => mret tt
  end;;
  update_lcache c obj (update_keys ids);;
  recs ← list_comp (λ id_, get_record obj (VInt id_) (Some c) None) ids;
  st ← get_state;
  modify (set_lists (λ ls, ls ++ [{| rl_object := obj; rl_cache := c; rl_records := recs |}]));;
  match fields with
  | Some fs =>
      let fs' := match fs with
                 | [] => (map_to_list (filter (λ kv, kv.2.(f_type) ≠ "binary" ∧ kv.2.(f_function) = false)
                                              (columns_info client obj))).*1
                 | _ => fs
                 end in
      update_lcache c obj (prefetch_fields fs')
  | None => mret tt
  end;;
  mret (length (lists st)).

(** The ids an iterable raw value yields, when all of them are integers. *)
Definition ids_of_value (v : value) : option (list Z) :=
  match v with
  | VList l => mapM as_integral l
  | _ => None
  end.

(** [get_record_list] on a raw value: an iterable of integers builds the
    list; a value that cannot be iterated is a [TypeError]; an iterable
    holding a non-integer fails the assertion of [Record.__init__] (the
    keys it leaves in the bucket before failing are not modelled). *)
Definition get_record_list_raw (obj : string) (ids : value) (cache : option addr)
    (context : option (gmap string value)) : M addr :=
  match ids with
  | VNone => get_record_list obj [] None cache context
  | VList _ | VStr _ =>
      match ids_of_value ids with
      | Some l => get_record_list obj l None cache context
      | None => raise (AssertionError "rid must be int")
      end
  | _ => raise (TypeError "object is not iterable")
  end.

(** [Record._get_one2many_rel_obj] with [cached=True]. *)
Definition Record_get_one2many_rel_obj (r : addr) (name : string) (rel_ids : value) : M pyval :=
  ro ← get_rec r;
  match rec_related_objects ro !! name with
  | Some _ => mret tt
  | None =>
      rel ← relation_of (rec_object ro) name;
      rel_obj ← get_obj rel;
      ctx ← Record_context r;
      l ← get_record_list_raw rel_obj rel_ids (Some (rec_cache ro)) ctx;
      set_related r (insert name (PList l))
  end;;
  related_get r name.

(** [self._data[name]] *)
Definition Record_data_get (r : addr) (name : string) : M value :=
  d ← Record_data r; lift_option (KeyError name) (d !! name).

(** [Record._get_field] *)
Definition Record_get_field (r : addr) (ftype name : string) : M pyval :=
  ro ← get_rec r;
  d ← Record_data r;
  match d !! name with
  | Some _ => mret tt
  | None =>
      b ← lcache (rec_cache ro) (rec_object ro);
      ctx ← Record_context r;
      rows ← object_read (rec_object ro) (get_ids_to_read name b) (Some [name]) ctx;
      for_each (λ data,
                  v ← lift_option (KeyError name) (row_get data name);
                  update_lcache (rec_cache ro) (rec_object ro)
                                (cache_field (row_id data) ftype name v)) rows
  end;;
  if String.eqb ftype "many2one" then
    v ← Record_data_get r name; Record_get_many2one_rel_obj r name v
  else if String.eqb ftype "one2many" || String.eqb ftype "many2many" then
    v ← Record_data_get r name; Record_get_one2many_rel_obj r name v
  else
    v ← Record_data_get r name; mret (PVal v).

(** The message of the [KeyError] raised for an unknown field. *)
Definition no_such_field (name obj : string) (rid : Z) : string :=
  "No such field " +:+ name +:+ " in object " +:+ obj +:+ ", " +:+ pretty rid.

(** [Record.__getitem__] *)
Definition Record_getitem (r : addr) (name : string) : M pyval :=
  if String.eqb name "id" then rid ← Record_id r; mret (PVal (VInt rid))
  else
    ro ← get_rec r;
    match columns_info client (rec_object ro) !! name with
    | None => rid ← Record_id r; raise (KeyError (no_such_field name (rec_object ro) rid))
    | Some field => Record_get_field r (f_type field) name
    end.

(** [self._lcache[rid].update(rdata)] *)
Definition update_row (d : row) (b : ObjectCache) : ObjectCache :=
  {| oc_rows := <[row_id d := row_dict d ∪ default ∅ (oc_rows b !! row_id d)]> (oc_rows b);
     oc_context := oc_context b |}.

(** [Record.read]: returns the row read for this record, if any. *)
Definition Record_read (r : addr) (fields : option (list string))
    (context : option (gmap string value)) (multi : bool) : M (option row) :=
  ro ← get_rec r;
  own ← Record_context r;
  let ctx := default ∅ context ∪ default ∅ own in
  b ← lcache (rec_cache ro) (rec_object ro);
  let ids := if multi then (map_to_list (oc_rows b)).*1 else [rec_id ro] in
  rows ← object_read (rec_object ro) ids fields
                     (if decide (ctx = ∅) then None else Some ctx);
  for_each (λ rdata, update_lcache (rec_cache ro) (rec_object ro) (update_row rdata)) rows;;
  mret (last (filter (λ rdata, row_id rdata = rec_id ro) rows)).

(** [Record.refresh] clears the row ([self._data.clear()]) and puts the id
    back ([self._data['id'] = self._id]). *)
Definition reset_row (rid : Z) (b : ObjectCache) : ObjectCache :=
  {| oc_rows := <[rid := {["id" := VInt rid]}]> (oc_rows b);
     oc_context := oc_context b |}.

(** Computations that recurse through the store carry fuel: [None] is
    "out of fuel", never a Python outcome. *)
Definition void {A} (x : option (state * outcome A)) : option (state * outcome unit) :=
  match x with
  | Some (st, Ret _) => Some (st, Ret tt)
  | Some (st, Raise e) => Some (st, Raise e)
  | None => None
  end.

Fixpoint for_each_fuel {A} (body : A → state → option (state * outcome unit))
    (l : list A) (st : state) : option (state * outcome unit) :=
  match l with
  | [] => Some (st, Ret tt)
  | x :: l' =>
      match body x st with
      | Some (st', Ret _) => for_each_fuel body l' st'
      | other => other
      end
  end.

(** The first three statements of [Record.refresh] and the assignment
    that empties the memo; returns the old memo. *)
Definition Record_refresh_head (r : addr) : M (gmap string pyval) :=
  ro ← get_rec r;
  update_lcache (rec_cache ro) (rec_object ro) (register (rec_id ro));;
  update_lcache (rec_cache ro) (rec_object ro) (reset_row (rec_id ro));;
  set_related r (λ _, ∅);;
  mret (rec_related_objects ro).

(** [Record.refresh] and [RecordList.refresh] *)
Fixpoint Record_refresh (fuel : nat) (r : addr) (st : state) {struct fuel}
    : option (state * outcome addr) :=
  match fuel with
  | O => None
  | S n =>
      match Record_refresh_head r st with
      | (st1, Raise e) => Some (st1, Raise e)
      | (st1, Ret rel_objects) =>
          match for_each_fuel
                  (λ rel, match rel with
                          | PRec a => λ st, void (Record_refresh n a st)
                          | PList l => λ st, void (RecordList_refresh n l st)
                          | _ => λ st, Some (st, Ret tt)
                          end)
                  (map_to_list rel_objects).*2 st1 with
          | Some (st2, Ret _) => Some (st2, Ret r)
          | Some (st2, Raise e) => Some (st2, Raise e)
          | None => None
          end
      end
  end
with RecordList_refresh (fuel : nat) (l : addr) (st : state) {struct fuel}
    : option (state * outcome addr) :=
  match fuel with
  | O => None
  | S n =>
      match get_list l st with
      | (st1, Raise e) => Some (st1, Raise e)
      | (st1, Ret lo) =>
          match for_each_fuel (λ a st, void (Record_refresh n a st)) (rl_records lo) st1 with
          | Some (st2, Ret _) => Some (st2, Ret l)
          | Some (st2, Raise e) => Some (st2, Raise e)
          | None => None
          end
      end
  end.

(** ** ObjectRecords *)

(** [ObjectRecords.read_records] when [ids] is an integer. *)
Definition read_records_id (obj : string) (i : Z) (fields : option (list string))
    (context : option (gmap string value)) (cache : option addr) : M addr :=
  record ← get_record obj (VInt i) None context;
  match fields with
  | Some fs => Record_read record (Some fs) None false;; mret tt
  | None => mret tt
  end;;
  mret record.

(** [ObjectRecords.read_records] *)
Definition read_records (obj : string) (ids : value) (fields : option (list string))
    (context : option (gmap string value)) (cache : option addr) : M pyval :=
  match as_integral ids with
  | Some i => r ← read_records_id obj i fields context cache; mret (PRec r)
  | None =>
      match ids with
      | VList _ | VStr _ =>
          match ids_of_value ids with
          | Some l => rl ← get_record_list obj l fields None context; mret (PList rl)
          | None => raise (AssertionError "rid must be int")
          end
      | _ => raise (ValueError "Wrong type for ids argument")
      end
  end.

(** ** RecordList *)

(** [RecordList.ids] *)
Definition RecordList_ids (l : addr) : M (list Z) :=
  lo ← get_list l; list_comp Record_id (rl_records lo).

(** [RecordList.context] *)
Definition RecordList_context (l : addr) : M (option (gmap string value)) :=
  lo ← get_list l;
  b ← lcache (rl_cache lo) (rl_object lo);
  mret (oc_context b).

Definition set_list_records (l : addr) (f : list addr → list addr) : M unit :=
  lo ← get_list l;
  modify (set_lists (λ ls, <[l := {| rl_object := rl_object lo; rl_cache := rl_cache lo;
                                    rl_records := f (rl_records lo) |}]> ls)).

(** [list.insert(index, x)]: the index is clamped, a negative one counts
    from the end. *)
Definition py_insert {A} (index : Z) (x : A) (l : list A) : list A :=
  let n := Z.of_nat (length l) in
  let k := Z.to_nat (if index <? 0 then Z.max 0 (n + index) else Z.min index n) in
  take k l ++ x :: drop k l.

(** [RecordList.insert] *)
Definition RecordList_insert (l : addr) (index : Z) (item : pyval) : M addr :=
  match item with
  | PRec a => set_list_records l (py_insert index a);; mret l
  | PVal v =>
      match as_integral v with
      | Some i =>
          lo ← get_list l;
          r ← read_records_id (rl_object lo) i None None None;
          set_list_records l (py_insert index r);;
          mret l
      | None => raise (AssertionError "Only Record or int instances could be added to list")
      end
  | _ => raise (AssertionError "Only Record or int instances could be added to list")
  end.

(** [RecordList.append], inherited: [self.insert(len(self), value)]. *)
Definition RecordList_append (l : addr) (item : pyval) : M unit :=
  lo ← get_list l;
  RecordList_insert l (Z.of_nat (length (rl_records lo))) item;;
  mret tt.

(** [RecordList.__contains__] *)
Definition RecordList_contains (l : addr) (item : pyval) : M bool :=
  match item with
  | PVal v =>
      match as_integral v with
      | Some i => ids ← RecordList_ids l; mret (bool_decide (i ∈ ids))
      | None => mret false
      end
  | PRec a =>
      lo ← get_list l;
      ro ← get_rec a;
      others ← list_comp get_rec (rl_records lo);
      mret (existsb (λ other, Record_eq other ro) others)
  | _ => mret false
  end.

(** [RecordList.copy] *)
Definition RecordList_copy (l : addr) (context : option (gmap string value))
    (new_cache : pyval) : M addr :=
  lo ← get_list l;
  cache ← match new_cache with
          | PCache c => mret c
          | PVal v =>
              if negb (truthy v) then mret (rl_cache lo)
              else match v with
                   | VBool true => empty_cache
                   | _ => raise (ValueError "Wrong value for parametr 'new_cache'")
                   end
          | PRec _ => raise (ValueError "Wrong value for parametr 'new_cache'")
          | PList a =>
              ao ← get_list a;
              match rl_records ao with
              | [] => mret (rl_cache lo)
              | _ => raise (ValueError "Wrong value for parametr 'new_cache'")
              end
          end;
  ids ← RecordList_ids l;
  get_record_list (rl_object lo) ids None (Some cache) context.

(** [bool(v)]: a [Record] defines neither [__bool__] nor [__len__], a
    [RecordList] has [__len__], a cache store is a mapping. *)
Definition py_truthy (v : pyval) : M bool :=
  match v with
  | PVal x => mret (truthy x)
  | PRec _ => mret true
  | PList l => lo ← get_list l; mret (match rl_records lo with [] => false | _ => true end)
  | PCache c => ca ← get_cache c; mret (negb (bool_decide (ca = ∅)))
  end.

(** [val[f]] for a string [f]: only a [Record] can be indexed by a name. *)
Definition py_getitem (val : pyval) (f : string) : M pyval :=
  match val with
  | PRec a => Record_getitem a f
  | _ => raise (TypeError "indices must be integers")
  end.

(** [x == y] as the [in] operator of a plain list evaluates it. *)
Definition py_eqb (x y : pyval) : M bool :=
  match x, y with
  | PVal a, PVal b => mret (value_eqb a b)
  | PRec a, PRec b => ra ← get_rec a; rb ← get_rec b; mret (Record_eq ra rb)
  | PRec a, PVal v | PVal v, PRec a => ra ← get_rec a; mret (Record_eq_value ra v)
  | PList a, PList b | PCache a, PCache b => mret (bool_decide (a = b))
  | _, _ => mret false
  end.

Definition dot : Ascii.ascii := Eval cbv in Ascii.ascii_of_nat 46.

(** [s.split(c)] for a one-character separator. *)
Fixpoint split_on (c : Ascii.ascii) (s : string) : list string :=
  match s with
  | EmptyString => [EmptyString]
  | String a s' =>
      if Ascii.eqb a c then EmptyString :: split_on c s'
      else match split_on c s' with
           | x :: xs => String a x :: xs
           | [] => [String a EmptyString]
           end
  end.

(** The loop of the inner [get_field] of [mapped]. *)
Fixpoint walk_fields (fields : list string) (val : pyval) : M pyval :=
  match fields with
  | [] => mret val
  | f :: fields' =>
      t ← py_truthy val;
      if (t : bool) then v ← py_getitem val f; walk_fields fields' v
      else mret val
  end.

(** The inner [get_field] of [mapped]. *)
Definition mapped_get_field (field : string) (rec : addr) : M pyval :=
  walk_fields (split_on dot field) (PRec rec).

(** What [mapped] returns: a [RecordList] or a plain list. *)
Inductive mapped_result :=
  | MRecordList (l : addr)
  | MList (items : list pyval).

Fixpoint any_m {A} (p : A → M bool) (l : list A) : M bool :=
  match l with
  | [] => mret false
  | x :: l' => b ← p x; if (b : bool) then mret true else any_m p l'
  end.

(** [res.extend(val)] for a record list [val] *)
Definition res_extend (res : mapped_result) (recs : list addr) : M mapped_result :=
  match res with
  | MList items => mret (MList (items ++ map PRec recs))
  | MRecordList l => for_each (λ a, RecordList_append l (PRec a)) recs;; mret res
  end.

(** [val in res] *)
Definition res_contains (res : mapped_result) (val : pyval) : M bool :=
  match res with
  | MList items => any_m (λ e, py_eqb e val) items
  | MRecordList l => RecordList_contains l val
  end.

(** [res.append(val)] *)
Definition res_append (res : mapped_result) (val : pyval) : M mapped_result :=
  match res with
  | MList items => mret (MList (items ++ [val]))
  | MRecordList l => RecordList_append l val;; mret res
  end.

(** The body of the loop of [mapped] once [val = get_field(record)] is
    known. *)
Definition mapped_add (res : mapped_result) (val : pyval) : M mapped_result :=
  t ← py_truthy val;
  if negb (t : bool) then mret res
  else match val with
       | PList v => lo ← get_list v; res_extend res (rl_records lo)
       | _ =>
           c ← res_contains res val;
           if (c : bool) then mret res else res_append res val
       end.

(** One turn of the loop of [mapped]. *)
Definition mapped_step (field : string) (res : mapped_result) (record : addr) : M mapped_result :=
  val ← mapped_get_field field record;
  mapped_add res val.

Fixpoint fold_m {A B} (f : B → A → M B) (acc : B) (l : list A) : M B :=
  match l with
  | [] => mret acc
  | x :: l' => acc' ← f acc x; fold_m f acc' l'
  end.

(** The first half of [mapped], "choose type of result": a record list on
    the cache of [l] when the last field of the path is relational, a plain
    list otherwise. *)
Definition mapped_choose_result (l : addr) (field : string) : M mapped_result :=
  lo ← get_list l;
  path ← (λ st, (st, resolve_field_path client (rl_object lo) field));
  '(_, _, res_rel_model) ← lift_option (IndexError "list index out of range") (last path);
  match res_rel_model with
  | Some m =>
      if String.eqb m "" then mret (MList [])
      else
        res_obj ← client_getitem m;
        ctx ← RecordList_context l;
        rl ← get_record_list res_obj [] None (Some (rl_cache lo)) ctx;
        mret (MRecordList rl)
  | None => mret (MList [])
  end.

(** [RecordList.mapped] *)
Definition RecordList_mapped (l : addr) (field : string) : M mapped_result :=
  res ← mapped_choose_result l field;
  lo ← get_list l;
  fold_m (mapped_step field) res (rl_records lo).

End WithClient.

(** ** Views of the store *)

(** The bucket of one collection in one cache store. *)
Definition bucket_of (st : state) (c : addr) (obj : string) : ObjectCache :=
  get_bucket (default ∅ (caches st !! c)) obj.

(** The cache entry of one row: [None] when the row id is not registered. *)
Definition row_of (st : state) (c : addr) (obj : string) (rid : Z) : option (gmap string value) :=
  oc_rows (bucket_of st c obj) !! rid.

(** The cached value of one field of one row. *)
Definition cached (st : state) (c : addr) (obj : string) (rid : Z) (name : string) : option value :=
  row_of st c obj rid ≫= (.!! name).

(** The store with the bucket of [obj] in cache [c] replaced. *)
Definition put_bucket (c : addr) (obj : string) (b : ObjectCache) (st : state) : state :=
  set_caches (λ cs, <[c := <[obj := b]> (default ∅ (cs !! c))]> cs) st.

(** A bucket update that changes no cached field value. *)
Definition neutral (f : ObjectCache → ObjectCache) : Prop :=
  ∀ b rid name, oc_rows (f b) !! rid ≫= (.!! name) = oc_rows b !! rid ≫= (.!! name).

(** [m], run from [st], ends in a store related to [st] by [R], whatever
    its outcome. *)
Definition pres {A} (R : relation state) (m : M A) (st : state) : Prop :=
  R st (m st).1.

(** No remote read was issued. *)
Definition same_log (st st' : state) : Prop := log st' = log st.

(** No cached field value changed. *)
Definition same_cached (st st' : state) : Prop :=
  ∀ c obj rid name, cached st' c obj rid name = cached st c obj rid name.

(** The value of field [name] that the last of the [rows] with row id [i]
    carries, if any row has that id. *)
Fixpoint last_written (name : string) (rows : list row) (i : Z) : option value :=
  match rows with
  | [] => None
  | d :: rows' =>
      match last_written name rows' i with
      | Some v => Some v
      | None => if decide (row_id d = i) then row_get d name else None
      end
  end.

(** The loop of [_get_field] that writes the returned rows to the cache. *)
Definition write_rows (c : addr) (obj ftype name : string) (rows : list row) : M unit :=
  for_each (λ data,
              v ← lift_option (KeyError name) (row_get data name);
              update_lcache c obj (cache_field (row_id data) ftype name v)) rows.

(** The part of [_get_field] after the fetch: relational fields are
    resolved, other fields are returned as cached. *)
Definition resolve_field (client : Client) (r : addr) (ftype name : string) : M pyval :=
  if String.eqb ftype "many2one" then
    v ← Record_data_get r name; Record_get_many2one_rel_obj client r name v
  else if String.eqb ftype "one2many" || String.eqb ftype "many2many" then
    v ← Record_data_get r name; Record_get_one2many_rel_obj client r name v
  else
    v ← Record_data_get r name; mret (PVal v).

(** The read that a miss on [name] issues from the store [st]. *)
Definition miss_request (st : state) (ro : RecordObj) (name : string) : request :=
  {| rq_object := rec_object ro;
     rq_ids := get_ids_to_read name (bucket_of st (rec_cache ro) (rec_object ro));
     rq_fields := Some [name];
     rq_context := oc_context (bucket_of st (rec_cache ro) (rec_object ro)) |}.

(** The bucket after the optional [update_context] of a constructor. *)
Definition with_context (ctx : option (gmap string value)) (b : ObjectCache) : ObjectCache :=
  match ctx with
  | Some x => update_context x b
  | None => b
  end.

(** A [Record] as its constructor leaves it. *)
Definition new_record (obj : string) (c : addr) (rid : Z) : RecordObj :=
  {| rec_object := obj; rec_cache := c; rec_id := rid; rec_related_objects := ∅ |}.

(** The row ids of the records at the given addresses. *)
Definition ids_at (st : state) (recs : list addr) : option (list Z) :=
  mapM (λ a, rec_id <$> records st !! a) recs.

(** No record, list or existing cache store was touched by what ran. *)
Definition same_objects (st st' : state) : Prop :=
  records st' = records st ∧ lists st' = lists st.

(** Every record of [st] is still there in [st'], with the same row id. *)
Definition stable (st st' : state) : Prop :=
  ∀ a ro, records st !! a = Some ro →
    ∃ ro', records st' !! a = Some ro' ∧ rec_id ro' = rec_id ro.

(** Every record list of [st] is still there in [st'], unchanged. *)
Definition lists_kept (st st' : state) : Prop :=
  ∀ l lo, lists st !! l = Some lo → lists st' !! l = Some lo.

Definition heap_kept (st st' : state) : Prop := stable st st' ∧ lists_kept st st'.

(** [acc] followed by the elements of [l] in order, each kept only when
    no element kept so far is equal to it under [eqb]. *)
Definition keep_from {A} (eqb : A → A → bool) (acc l : list A) : list A :=
  foldl (λ acc x, if existsb (λ e, eqb e x) acc then acc else acc ++ [x]) acc l.

(** The first occurrences in [l], in order. *)
Definition keep_first {A} (eqb : A → A → bool) (l : list A) : list A :=
  keep_from eqb [] l.

(** The raw values among [vals] that are truthy. *)
Definition truthy_values (vals : list pyval) : list value :=
  omap (λ v, match v with
             | PVal x => if truthy x then Some x else None
             | _ => None
             end) vals.

(** The records among [vals]. *)
Definition record_values (vals : list pyval) : list addr :=
  omap (λ v, match v with PRec a => Some a | _ => None end) vals.

(** The row id of the record at [a]. *)
Definition id_of (st : state) (a : addr) : Z :=
  default 0 (rec_id <$> records st !! a).

(** One turn of the loop of [mapped], remembering the value of the member. *)
Definition mapped_step_traced (client : Client) (field : string)
    (acc : mapped_result * list pyval) (record : addr) : M (mapped_result * list pyval) :=
  val ← mapped_get_field client field record;
  res ← mapped_add client acc.1 val;
  mret (res, acc.2 ++ [val]).

(** [mapped], returning next to its result the value [get_field] produced
    for each member, in member order. *)
Definition mapped_trace (client : Client) (l : addr) (field : string)
    : M (mapped_result * list pyval) :=
  res ← mapped_choose_result client l field;
  lo ← get_list l;
  fold_m (mapped_step_traced client field) (res, []) (rl_records lo).

(** *** Views for [refresh] *)

(** A memoized target names an object of the store. *)
Definition target_ok (st : state) (t : pyval) : Prop :=
  match t with
  | PRec a => (a < length (records st))%nat
  | PList l => (l < length (lists st))%nat
  | _ => True
  end.

(** Every reference held in the store names an object of the store. *)
Definition closed (st : state) : Prop :=
  Forall (λ ro, (rec_cache ro < length (caches st))%nat ∧
                map_Forall (λ _ t, target_ok st t) (rec_related_objects ro)) (records st) ∧
  Forall (λ lo, Forall (λ a, (a < length (records st))%nat) (rl_records lo)) (lists st).

(** The cache entry of a row right after [refresh]: the id and nothing else. *)
Definition reset_entry (rid : Z) : gmap string value := {["id" := VInt rid]}.

(** The record at [a] has an empty memo and a cache entry holding no field. *)
Definition clean (st : state) (a : addr) : Prop :=
  ∃ ro, records st !! a = Some ro ∧ rec_related_objects ro = ∅ ∧
        row_of st (rec_cache ro) (rec_object ro) (rec_id ro) = Some (reset_entry (rec_id ro)).

(** [b] is a record memoized by [a], or a member of a record list
    memoized by [a]. *)
Definition memo_succ (st : state) (a b : addr) : Prop :=
  ∃ ro name, records st !! a = Some ro ∧
    (rec_related_objects ro !! name = Some (PRec b) ∨
     ∃ l lo, rec_related_objects ro !! name = Some (PList l) ∧
             lists st !! l = Some lo ∧ b ∈ rl_records lo).

(** What [refresh] may do to a store: empty memos and reset cache entries,
    nothing else. *)
Definition only_resets (st st' : state) : Prop :=
  lists st' = lists st ∧ log st' = log st ∧
  length (caches st') = length (caches st) ∧
  length (records st') = length (records st) ∧
  (∀ a ro, records st !! a = Some ro →
     ∃ ro', records st' !! a = Some ro' ∧
            rec_object ro' = rec_object ro ∧ rec_cache ro' = rec_cache ro ∧
            rec_id ro' = rec_id ro ∧
            (rec_related_objects ro' = rec_related_objects ro ∨
             rec_related_objects ro' = ∅)) ∧
  (∀ c obj i, row_of st' c obj i = row_of st c obj i ∨
              row_of st' c obj i = Some (reset_entry i)).

(** The number of memoized targets in the store. *)
Definition memo_count (st : state) : nat :=
  sum_list_with (λ ro, size (rec_related_objects ro)) (records st).

(** The record with its memo emptied. *)
Definition forget (ro : RecordObj) : RecordObj :=
  {| rec_object := rec_object ro; rec_cache := rec_cache ro; rec_id := rec_id ro;
     rec_related_objects := ∅ |}.

(** The invariant of the traversal that [refresh] makes from the store
    [st0]: only resets happened so far, and every record with an empty
    memo that is not being refreshed right now (not in [G]) has had all
    its targets in [st0] refreshed. *)
Definition finished (st0 : state) (G : addr → Prop) (st : state) : Prop :=
  only_resets st0 st ∧
  ∀ a ro, ¬ G a → records st !! a = Some ro → rec_related_objects ro = ∅ →
    ∀ b, memo_succ st0 a b → clean st b.

(** A memoized target has been refreshed. *)
Definition target_clean (st : state) (t : pyval) : Prop :=
  match t with
  | PRec a => clean st a
  | PList l => ∀ lo a, lists st !! l = Some lo → a ∈ rl_records lo → clean st a
  | _ => True
  end.

(** Neither happened. *)
Definition quiet (st st' : state) : Prop := same_log st st' ∧ same_cached st st'.

(** Boolean form of [closed]. *)
Definition target_okb (st : state) (t : pyval) : bool :=
  match t with
  | PRec a => (a <? length (records st))%nat
  | PList l => (l <? length (lists st))%nat
  | _ => true
  end.

Definition closedb (st : state) : bool :=
  forallb (λ ro, (rec_cache ro <? length (caches st))%nat &&
                 forallb (λ kt, target_okb st kt.2) (map_to_list (rec_related_objects ro)))
          (records st) &&
  forallb (λ lo, forallb (λ a, (a <? length (records st))%nat) (rl_records lo)) (lists st).

(** ** A small client: three partners *)

Definition partner_columns : gmap string field_info :=
  list_to_map
    [("name", {| f_type := "char"; f_relation := None; f_function := false |});
     ("parent_id", {| f_type := "many2one"; f_relation := Some "res.partner";
                      f_function := false |});
     ("child_ids", {| f_type := "one2many"; f_relation := Some "res.partner";
                      f_function := false |})].

(** The server: partners 1 and 3 are called A, partner 2 is called B;
    partner 1 is the parent of 2 and 3. *)
Definition partner_row (fields : option (list string)) (i : Z) : row :=
  {| row_id := i;
     row_data :=
       match fields with
       | Some ["name"] => {["name" := if i =? 2 then VStr "B" else VStr "A"]}
       | Some ["parent_id"] =>
           {["parent_id" := if i =? 1 then VBool false else VList [VInt 1; VStr "A"]]}
       | Some ["child_ids"] =>
           {["child_ids" := if i =? 1 then VList [VInt 2; VInt 3] else VList []]}
       | _ => ∅
       end |}.

Definition demo_client : Client :=
  {| registered_objects := λ n, String.eqb n "res.partner";
     columns_info := λ n, if String.eqb n "res.partner" then partner_columns else ∅;
     resolve_field_path := λ obj f,
       Ret [(obj, f, if String.eqb f "name" then None else Some "res.partner")];
     remote_read := λ _ rq, Some (partner_row (rq_fields rq) <$> rq_ids rq) |}.

Definition empty_store : state :=
  {| caches := []; records := []; lists := []; log := [] |}.

(** The store after [read_records([1, 2, 3])]: list 0 holds records 0, 1
    and 2 on cache store 0. *)
Definition demo_store : state :=
  (get_record_list demo_client "res.partner" [1; 2; 3] None None None empty_store).1.

(** The store after [demo_store[0]['name']]. *)
Definition demo_store_named : state :=
  (Record_getitem demo_client 0%nat "name" demo_store).1.

(** The store after [mapped('child_ids')] and [mapped('parent_id')] on list
    0: records 0, 1 and 2 have memoized targets. *)
Definition demo_store_related : state :=
  (RecordList_mapped demo_client 0%nat "parent_id"
     (RecordList_mapped demo_client 0%nat "child_ids" demo_store).1).1.

(** ** More of record.py and utils.py *)

(** [seq[index]] for a Python list of length [len]: the position meant, a
    negative index counting from the end; [None] is an [IndexError]. *)
Definition py_index (len : nat) (index : Z) : option nat :=
  if (0 <=? index) && (index <? Z.of_nat len) then Some (Z.to_nat index)
  else if (index <? 0) && (- Z.of_nat len <=? index) then Some (Z.to_nat (Z.of_nat len + index))
  else None.

(** [RecordList.__getitem__] with an integer index. *)
Definition RecordList_getitem (l : addr) (index : Z) : M addr :=
  lo ← get_list l;
  match py_index (length (rl_records lo)) index with
  | Some k => lift_option (IndexError "list index out of range") (rl_records lo !! k)
  | None => raise (IndexError "list index out of range")
  end.

(** [RecordList.__setitem__] with an integer index. *)
Definition RecordList_setitem (l : addr) (index : Z) (value : pyval) : M unit :=
  match value with
  | PRec a =>
      lo ← get_list l;
      match py_index (length (rl_records lo)) index with
      | Some k => set_list_records l (λ recs, <[k := a]> recs)
      | None => raise (IndexError "list assignment index out of range")
      end
  | _ => raise (ValueError
           "In 'RecordList[index] = value' operation, value must be instance of Record")
  end.

(** [RecordList.__delitem__] with an integer index. *)
Definition RecordList_delitem (l : addr) (index : Z) : M unit :=
  lo ← get_list l;
  match py_index (length (rl_records lo)) index with
  | Some k => set_list_records l (λ recs, delete k recs)
  | None => raise (IndexError "list assignment index out of range")
  end.

(** [[r.id for r in records if func(r)]] *)
Fixpoint ids_where (func : addr → M bool) (recs : list addr) : M (list Z) :=
  match recs with
  | [] => mret []
  | r :: recs' =>
      b ← func r;
      if (b : bool) then i ← Record_id r; rest ← ids_where func recs'; mret (i :: rest)
      else ids_where func recs'
  end.

(** [RecordList.filter], for a callable [func]. *)
Definition RecordList_filter (client : Client) (l : addr) (func : addr → M bool) : M addr :=
  lo ← get_list l;
  ids ← ids_where func (rl_records lo);
  get_record_list client (rl_object lo) ids None (Some (rl_cache lo)) None.

(** The loop of [RecordList.existing]. *)
Definition existing_loop (existing_ids : list Z) (uniqify : bool) (ids : list Z) : list Z :=
  foldl (λ new_ids id_,
           if negb (bool_decide (id_ ∈ existing_ids)) then new_ids
           else if uniqify && bool_decide (id_ ∈ new_ids) then new_ids
           else new_ids ++ [id_]) [] ids.

(** [RecordList.existing]; [remote_exists] is the server's answer to
    [exists(ids, context=...)] ([None]: the remote call fails). *)
Definition RecordList_existing (client : Client)
    (remote_exists : list Z → option (gmap string value) → option (list Z))
    (l : addr) (uniqify : bool) : M addr :=
  lo ← get_list l;
  ctx ← RecordList_context l;
  ids ← RecordList_ids l;
  existing_ids ← lift_option RemoteFailure (remote_exists ids ctx);
  ids' ← RecordList_ids l;
  get_record_list client (rl_object lo) (existing_loop existing_ids uniqify ids') None
                  (Some (rl_cache lo)) None.

(** [RecordList._new_context] *)
Definition RecordList_new_context (l : addr) (new_context : option (gmap string value))
    : M (option (gmap string value)) :=
  match new_context with
  | None => RecordList_context l
  | Some new =>
      own ← RecordList_context l;
      mret (Some (new ∪ default ∅ own))
  end.

(** [RecordList.read] *)
Definition RecordList_read (client : Client) (l : addr) (fields : option (list string))
    (context : option (gmap string value)) : M (list row) :=
  ctx ← RecordList_new_context l context;
  lo ← get_list l;
  ids ← RecordList_ids l;
  object_read client (rl_object lo) ids fields ctx.


(** [s.lower()] on ASCII letters. *)
Definition ascii_lower (a : Ascii.ascii) : Ascii.ascii :=
  let n := Ascii.nat_of_ascii a in
  if (65 <=? n)%nat && (n <=? 90)%nat then Ascii.ascii_of_nat (n + 32) else a.

Fixpoint lower (s : string) : string :=
  match s with
  | EmptyString => EmptyString
  | String a s' => String (ascii_lower a) (lower s')
  end.

(** The [fallbacks] table of [get_encodings]. *)
Definition fallbacks (name : string) : option string :=
  if String.eqb name "latin1" then Some "latin9"
  else if String.eqb name "iso-8859-1" then Some "iso8859-15"
  else if String.eqb name "cp1252" then Some "1252"
  else None.

(** [utils.get_encodings], as the list the generator yields; [prefenc] is
    what [locale.getpreferredencoding()] returns. *)
Definition get_encodings (hint_encoding : string) (prefenc : string) : list string :=
  (if String.eqb hint_encoding "" then []
   else hint_encoding ::
        match fallbacks (lower hint_encoding) with
        | Some f => [f]
        | None => []
        end) ++
  filter (λ charset, hint_encoding = "" ∨ lower charset ≠ lower hint_encoding)
         ["utf8"; "latin1"] ++
  (if negb (String.eqb prefenc "") && negb (String.eqb (lower prefenc) "utf-8") then
     prefenc ::
     match fallbacks (lower prefenc) with
     | Some f => if String.eqb f "" then [] else [f]
     | None => []
     end
   else []).

(** [lcache[rid][key] = v], where [lcache[rid]] creates the empty mapping
    of a row id that is not registered yet. *)
Definition row_setitem (rid : Z) (key : string) (v : value) (b : ObjectCache) : ObjectCache :=
  {| oc_rows := <[rid := <[key := v]> (default ∅ (oc_rows b !! rid))]> (oc_rows b);
     oc_context := oc_context b |}.

(** [Record._name]; [name_get] is the server's answer to
    [name_get(ids, context=...)], a list of (id, name) pairs ([None]: the
    remote call fails). *)
Definition Record_name
    (name_get : list Z → option (gmap string value) → option (list (Z * value)))
    (r : addr) : M value :=
  d ← Record_data r;
  match d !! "__name_get_result" with
  | None | Some VNone =>
      ro ← get_rec r;
      b ← lcache (rec_cache ro) (rec_object ro);
      ctx ← Record_context r;
      data ← lift_option RemoteFailure (name_get (map_to_list (oc_rows b)).*1 ctx);
      for_each (λ p, update_lcache (rec_cache ro) (rec_object ro)
                       (row_setitem p.1 "__name_get_result" p.2)) data
  | Some _ => mret tt
  end;;
  d' ← Record_data r;
  mret (default (VStr "ERROR") (d' !! "__name_get_result")).

(** The name that the last of the pairs with id [i] carries, if any pair
    has that id. *)
Fixpoint last_named (data : list (Z * value)) (i : Z) : option value :=
  match data with
  | [] => None
  | p :: data' =>
      match last_named data' i with
      | Some v => Some v
      | None => if decide (p.1 = i) then Some p.2 else None
      end
  end.

(** Every handle of [st] still stands for the same row of the same
    collection on the same cache store in [st'], every record list of [st]
    is there unchanged, and no cache store was dropped. *)
Definition handles_kept (st st' : state) : Prop :=
  (length (caches st) ≤ length (caches st'))%nat ∧
  (∀ a ro, records st !! a = Some ro →
     ∃ ro', records st' !! a = Some ro' ∧ rec_object ro' = rec_object ro ∧
            rec_cache ro' = rec_cache ro ∧ rec_id ro' = rec_id ro) ∧
  (∀ l lo, lists st !! l = Some lo → lists st' !! l = Some lo).

(** * Properties *)

(** ** Running the monad *)

Lemma bind_run {A B} (m : M A) (f : A → M B) (st : state) :
  (m ≫= f) st = match m st with
                | (st', Ret a) => f a st'
                | (st', Raise e) => (st', Raise e)
                end.
Proof. reflexivity. Qed.

Lemma bind_ret {A B} (m : M A) (f : A → M B) (st st' : state) (a : A) :
  m st = (st', Ret a) → (m ≫= f) st = f a st'.
Proof. intros H. rewrite bind_run, H. reflexivity. Qed.

Lemma bind_raise {A B} (m : M A) (f : A → M B) (st st' : state) (e : exn) :
  m st = (st', Raise e) → (m ≫= f) st = (st', Raise e).
Proof. intros H. rewrite bind_run, H. reflexivity. Qed.

Lemma get_rec_run st r ro :
  records st !! r = Some ro → get_rec r st = (st, Ret ro).
Proof. intros H. unfold get_rec. rewrite bind_run. simpl. rewrite H. reflexivity. Qed.

Lemma get_list_run st l lo :
  lists st !! l = Some lo → get_list l st = (st, Ret lo).
Proof. intros H. unfold get_list. rewrite bind_run. simpl. rewrite H. reflexivity. Qed.

Lemma get_cache_run st c ca :
  caches st !! c = Some ca → get_cache c st = (st, Ret ca).
Proof. intros H. unfold get_cache. rewrite bind_run. simpl. rewrite H. reflexivity. Qed.

Lemma Record_id_run st r ro :
  records st !! r = Some ro → Record_id r st = (st, Ret (rec_id ro)).
Proof. intros H. unfold Record_id. rewrite (bind_ret _ _ _ _ _ (get_rec_run _ _ _ H)). reflexivity. Qed.

(** ** Identity of records *)

(** What [__eq__] decides between two records: the row ids, nothing else. *)
Lemma Record_eq_iff_id (r1 r2 : RecordObj) :
  Record_eq r1 r2 = true ↔ rec_id r1 = rec_id r2.
Proof. unfold Record_eq. rewrite Z.eqb_eq. split; congruence. Qed.

(** Against a bare integer, [__eq__] holds exactly for the row id. *)
Lemma Record_eq_int (h : RecordObj) (n : Z) :
  Record_eq_value h (VInt n) = true ↔ n = rec_id h.
Proof. unfold Record_eq_value. simpl. rewrite Z.eqb_eq. split; congruence. Qed.

(** Equal (collection, row id) gives equal hashes. *)
Lemma Record_hash_eq (py_hash : string * Z → Z) (h1 h2 : RecordObj) :
  rec_object h1 = rec_object h2 → rec_id h1 = rec_id h2 →
  Record_hash py_hash h1 = Record_hash py_hash h2.
Proof. unfold Record_hash. intros -> ->. reflexivity. Qed.

(** C3: [h1 == h2] is claimed to hold only when collection names and row ids
    both match.  [Record.__eq__] compares the row ids alone: a partner and a
    user with the same row id are equal, although their collections differ
    and [__hash__] is taken on the pair (collection, row id). *)
Theorem Record_eq_ignores_collection :
  let h1 := {| rec_object := "res.partner"; rec_cache := 0%nat; rec_id := 1;
               rec_related_objects := ∅ |} in
  let h2 := {| rec_object := "res.users"; rec_cache := 0%nat; rec_id := 1;
               rec_related_objects := ∅ |} in
  Record_eq h1 h2 = true ∧ rec_object h1 ≠ rec_object h2 ∧
  (rec_object h1, rec_id h1) ≠ (rec_object h2, rec_id h2).
Proof. simpl. split; [reflexivity|]. split; intros H; discriminate H. Qed.

(** ** Dictionary access to a record *)

(** C10: [r['id']] returns the row id of [r] directly: it needs no column
    named 'id', and the store (cache and log of remote reads) is left as it
    was. *)
Theorem Record_getitem_id (client : Client) (st : state) (r : addr) (ro : RecordObj) :
  records st !! r = Some ro →
  Record_getitem client r "id" st = (st, Ret (PVal (VInt (rec_id ro)))).
Proof.
  intros H. unfold Record_getitem. simpl.
  rewrite (bind_ret _ _ _ _ _ (Record_id_run _ _ _ H)). reflexivity.
Qed.

(** C8: for a name that is neither 'id' nor a declared column, [r[name]]
    raises a [KeyError] whose message names the field and the collection;
    it returns no value, and the store is left as it was. *)
Theorem Record_getitem_unknown_field (client : Client) (st : state) (r : addr)
    (ro : RecordObj) (name : string) :
  records st !! r = Some ro →
  name ≠ "id" →
  columns_info client (rec_object ro) !! name = None →
  Record_getitem client r name st =
    (st, Raise (KeyError ("No such field " +:+ name +:+ " in object " +:+
                          rec_object ro +:+ ", " +:+ pretty (rec_id ro)))).
Proof.
  intros H Hid Hcol. unfold Record_getitem.
  destruct (String.eqb_spec name "id") as [->|_]; [done|].
  rewrite (bind_ret _ _ _ _ _ (get_rec_run _ _ _ H)). rewrite Hcol.
  rewrite (bind_ret _ _ _ _ _ (Record_id_run _ _ _ H)). reflexivity.
Qed.

(** ** Frame reasoning *)

Lemma update_lcache_run st c obj f :
  (c < length (caches st))%nat →
  update_lcache c obj f st = (put_bucket c obj (f (bucket_of st c obj)) st, Ret tt).
Proof.
  intros Hc. apply lookup_lt_is_Some_2 in Hc as [ca Hca].
  unfold update_lcache. rewrite (bind_ret _ _ _ _ _ (get_cache_run _ _ _ Hca)).
  unfold modify, put_bucket, bucket_of, set_caches. simpl. rewrite Hca. reflexivity.
Qed.

Lemma update_lcache_bad st c obj f :
  (length (caches st) ≤ c)%nat →
  update_lcache c obj f st = (st, Raise BadReference).
Proof.
  intros Hc. apply lookup_ge_None_2 in Hc.
  unfold update_lcache, get_cache. rewrite !bind_run. simpl. rewrite Hc. reflexivity.
Qed.

Lemma put_bucket_length c obj b st :
  length (caches (put_bucket c obj b st)) = length (caches st).
Proof. simpl. apply length_insert. Qed.

Lemma bucket_of_put c obj b st c' obj' :
  (c < length (caches st))%nat →
  bucket_of (put_bucket c obj b st) c' obj' =
    if decide (c' = c ∧ obj' = obj) then b else bucket_of st c' obj'.
Proof.
  intros Hc. unfold bucket_of, put_bucket, get_bucket. simpl.
  destruct (decide (c' = c)) as [->|Hne].
  - rewrite list_lookup_insert_eq by done. simpl.
    destruct (decide (obj' = obj)) as [->|Hno].
    + rewrite lookup_insert_eq. rewrite decide_True by done. reflexivity.
    + rewrite lookup_insert_ne by done. rewrite decide_False by (intros [_ ?]; done).
      reflexivity.
  - rewrite list_lookup_insert_ne by done.
    rewrite decide_False by (intros [? _]; done). reflexivity.
Qed.

Lemma bucket_of_alloc st c obj :
  bucket_of (set_caches (λ cs, cs ++ [∅]) st) c obj = bucket_of st c obj.
Proof.
  unfold bucket_of. simpl.
  destruct (decide (c < length (caches st))%nat) as [Hlt|Hge].
  - rewrite lookup_app_l by done. reflexivity.
  - rewrite (lookup_ge_None_2 (caches st)) by lia. simpl.
    destruct (decide (c = length (caches st))) as [->|Hne].
    + rewrite list_lookup_middle by done. reflexivity.
    + rewrite lookup_ge_None_2; [reflexivity|]. rewrite length_app. simpl. lia.
Qed.

Lemma neutral_register rid : neutral (register rid).
Proof.
  intros b i name. unfold register.
  destruct (oc_rows b !! rid) eqn:E; [reflexivity|]. simpl.
  destruct (decide (i = rid)) as [->|Hne].
  - rewrite lookup_insert_eq, E. reflexivity.
  - rewrite lookup_insert_ne by done. reflexivity.
Qed.

Lemma neutral_update_context ctx : neutral (update_context ctx).
Proof. intros b i name. reflexivity. Qed.

Lemma neutral_id : neutral (λ b, b).
Proof. intros b i name. reflexivity. Qed.

Lemma neutral_prefetch_fields fs : neutral (prefetch_fields fs).
Proof. intros b i name. reflexivity. Qed.

Lemma neutral_update_keys ids : neutral (update_keys ids).
Proof.
  unfold update_keys. intros b. revert b.
  induction ids as [|i ids IH]; intros b rid name; simpl; [reflexivity|].
  rewrite IH. apply neutral_register.
Qed.

Section Frame.
Variable client : Client.
Variable R : relation state.
Context `{!PreOrder R}.

Lemma pres_ret {A} (a : A) st : pres R (mret a) st.
Proof. unfold pres. simpl. reflexivity. Qed.

Lemma pres_raise {A} (e : exn) st : pres R (@raise A e) st.
Proof. unfold pres. simpl. reflexivity. Qed.

Lemma pres_get_state st : pres R get_state st.
Proof. unfold pres. simpl. reflexivity. Qed.

Lemma pres_lift_option {A} e (o : option A) st : pres R (lift_option e o) st.
Proof. destruct o; [apply pres_ret|apply pres_raise]. Qed.

Lemma pres_bind {A B} (m : M A) (f : A → M B) st :
  pres R m st →
  (∀ a st', m st = (st', Ret a) → pres R (f a) st') →
  pres R (m ≫= f) st.
Proof.
  unfold pres. intros Hm Hf. rewrite bind_run.
  destruct (m st) as [st' [a|e]] eqn:E; simpl in *; [|done].
  etrans; [exact Hm|]. apply Hf. reflexivity.
Qed.

Lemma pres_for_each {A} (body : A → M unit) l st :
  (∀ x st, pres R (body x) st) → pres R (for_each body l) st.
Proof.
  intros Hb. revert st. induction l as [|x l IH]; intros st; simpl.
  - apply pres_ret.
  - apply pres_bind; [apply Hb|]. intros _ st' _. apply IH.
Qed.

Lemma pres_list_comp {A B} (f : A → M B) l st :
  (∀ x st, pres R (f x) st) → pres R (list_comp f l) st.
Proof.
  intros Hb. revert st. induction l as [|x l IH]; intros st; simpl.
  - apply pres_ret.
  - apply pres_bind; [apply Hb|]. intros y st' _.
    apply pres_bind; [apply IH|]. intros ys st'' _. apply pres_ret.
Qed.

Lemma pres_get_rec r st : pres R (get_rec r) st.
Proof.
  unfold get_rec. apply pres_bind; [apply pres_get_state|].
  intros a st' _. apply pres_lift_option.
Qed.

Lemma pres_get_list l st : pres R (get_list l) st.
Proof.
  unfold get_list. apply pres_bind; [apply pres_get_state|].
  intros a st' _. apply pres_lift_option.
Qed.

Lemma pres_get_cache c st : pres R (get_cache c) st.
Proof.
  unfold get_cache. apply pres_bind; [apply pres_get_state|].
  intros a st' _. apply pres_lift_option.
Qed.

Lemma pres_lcache c obj st : pres R (lcache c obj) st.
Proof.
  unfold lcache. apply pres_bind; [apply pres_get_cache|].
  intros a st' _. apply pres_ret.
Qed.

Lemma pres_Record_id r st : pres R (Record_id r) st.
Proof.
  unfold Record_id. apply pres_bind; [apply pres_get_rec|].
  intros a st' _. apply pres_ret.
Qed.

Lemma pres_Record_context r st : pres R (Record_context r) st.
Proof.
  unfold Record_context. apply pres_bind; [apply pres_get_rec|].
  intros a st' _. apply pres_bind; [apply pres_lcache|].
  intros b st'' _. apply pres_ret.
Qed.

Lemma pres_get_obj name st : pres R (get_obj client name) st.
Proof. unfold get_obj. destruct (registered_objects client name); [apply pres_ret|apply pres_raise]. Qed.

Lemma pres_client_getitem name st : pres R (client_getitem client name) st.
Proof.
  unfold client_getitem.
  destruct (registered_objects client name); [apply pres_ret|apply pres_raise].
Qed.

Lemma pres_relation_of obj name st : pres R (relation_of client obj name) st.
Proof.
  unfold relation_of. apply pres_bind; [apply pres_lift_option|].
  intros a st' _. apply pres_lift_option.
Qed.

Lemma pres_related_get r name st : pres R (related_get r name) st.
Proof.
  unfold related_get. apply pres_bind; [apply pres_get_rec|].
  intros a st' _. apply pres_lift_option.
Qed.

(** The ways the store is written, as [R] has to allow them. *)
Hypothesis R_alloc_cache : ∀ st, R st (set_caches (λ cs, cs ++ [∅]) st).
Hypothesis R_neutral : ∀ st c obj f,
  neutral f → R st (put_bucket c obj (f (bucket_of st c obj)) st).
Hypothesis R_alloc_record : ∀ st ro, R st (set_records (λ rs, rs ++ [ro]) st).
Hypothesis R_related : ∀ st r ro g,
  records st !! r = Some ro →
  R st (set_records (λ rs, <[r := {| rec_object := rec_object ro; rec_cache := rec_cache ro;
                                    rec_id := rec_id ro;
                                    rec_related_objects := g |}]> rs) st).
Hypothesis R_alloc_list : ∀ st lo, R st (set_lists (λ ls, ls ++ [lo]) st).

Lemma pres_empty_cache st : pres R empty_cache st.
Proof. unfold pres. simpl. apply R_alloc_cache. Qed.

Lemma pres_update_lcache c obj f st :
  neutral f → pres R (update_lcache c obj f) st.
Proof.
  intros Hf. unfold pres.
  destruct (decide (c < length (caches st))%nat) as [Hlt|Hge].
  - rewrite update_lcache_run by done. simpl. by apply R_neutral.
  - rewrite update_lcache_bad by lia. simpl. reflexivity.
Qed.

Lemma pres_set_related r g st : pres R (set_related r g) st.
Proof.
  unfold set_related. apply pres_bind; [apply pres_get_rec|].
  intros ro st' Hro. unfold pres. simpl.
  unfold get_rec in Hro. rewrite bind_run in Hro. simpl in Hro.
  destruct (records st !! r) eqn:E; simpl in Hro; [|done].
  injection Hro as <- <-. by apply R_related.
Qed.

Lemma pres_get_record obj rid cache ctx st :
  pres R (get_record obj rid cache ctx) st.
Proof.
  unfold get_record. destruct (as_integral rid) as [i|]; [|apply pres_raise].
  apply pres_bind.
  { destruct cache; [apply pres_ret|apply pres_empty_cache]. }
  intros c st1 _. apply pres_bind.
  { apply pres_update_lcache, neutral_register. }
  intros _ st2 _. apply pres_bind.
  { destruct ctx; [apply pres_update_lcache, neutral_update_context|apply pres_ret]. }
  intros _ st3 _. apply pres_bind; [apply pres_get_state|].
  intros s st4 _. apply pres_bind; [|intros; apply pres_ret].
  unfold pres. simpl. apply R_alloc_record.
Qed.

Lemma pres_get_record_list obj ids fields cache ctx st :
  pres R (get_record_list client obj ids fields cache ctx) st.
Proof.
  unfold get_record_list. apply pres_bind.
  { destruct cache; [apply pres_ret|apply pres_empty_cache]. }
  intros c st1 _. apply pres_bind.
  { apply pres_update_lcache, neutral_id. }
  intros _ st2 _. apply pres_bind.
  { destruct ctx; [apply pres_update_lcache, neutral_update_context|apply pres_ret]. }
  intros _ st3 _. apply pres_bind.
  { apply pres_update_lcache, neutral_update_keys. }
  intros _ st4 _. apply pres_bind.
  { apply pres_list_comp. intros x s. apply pres_get_record. }
  intros recs st5 _. apply pres_bind; [apply pres_get_state|].
  intros s st6 _. apply pres_bind.
  { unfold pres. simpl. apply R_alloc_list. }
  intros _ st7 _. apply pres_bind; [|intros; apply pres_ret].
  destruct fields; [|apply pres_ret].
  apply pres_update_lcache, neutral_prefetch_fields.
Qed.

Lemma pres_get_record_list_raw obj ids cache ctx st :
  pres R (get_record_list_raw client obj ids cache ctx) st.
Proof.
  unfold get_record_list_raw.
  destruct ids; try apply pres_raise; try apply pres_get_record_list;
    destruct (ids_of_value _); try apply pres_raise; apply pres_get_record_list.
Qed.

Lemma pres_Record_data r st : pres R (Record_data r) st.
Proof.
  unfold Record_data. apply pres_bind; [apply pres_get_rec|].
  intros ro st1 _. apply pres_bind.
  { apply pres_update_lcache, neutral_register. }
  intros _ st2 _. apply pres_bind; [apply pres_lcache|].
  intros b st3 _. apply pres_ret.
Qed.

Lemma pres_Record_data_get r name st : pres R (Record_data_get r name) st.
Proof.
  unfold Record_data_get. apply pres_bind; [apply pres_Record_data|].
  intros d st1 _. apply pres_lift_option.
Qed.

Lemma pres_many2one r name v st :
  pres R (Record_get_many2one_rel_obj client r name v) st.
Proof.
  unfold Record_get_many2one_rel_obj. apply pres_bind; [apply pres_get_rec|].
  intros ro st1 _. apply pres_bind; [|intros; apply pres_related_get].
  destruct (rec_related_objects ro !! name); [apply pres_ret|].
  destruct (truthy v); [|apply pres_set_related].
  apply pres_bind.
  { destruct v as [| | | |[|x l]]; try apply pres_ret. apply pres_raise. }
  intros rel_id st2 _. apply pres_bind; [apply pres_relation_of|].
  intros rel st3 _. apply pres_bind; [apply pres_get_obj|].
  intros rel_obj st4 _. apply pres_bind; [apply pres_Record_context|].
  intros ctx st5 _. apply pres_bind; [apply pres_get_record|].
  intros a st6 _. apply pres_set_related.
Qed.

Lemma pres_one2many r name v st :
  pres R (Record_get_one2many_rel_obj client r name v) st.
Proof.
  unfold Record_get_one2many_rel_obj. apply pres_bind; [apply pres_get_rec|].
  intros ro st1 _. apply pres_bind; [|intros; apply pres_related_get].
  destruct (rec_related_objects ro !! name); [apply pres_ret|].
  apply pres_bind; [apply pres_relation_of|].
  intros rel st3 _. apply pres_bind; [apply pres_get_obj|].
  intros rel_obj st4 _. apply pres_bind; [apply pres_Record_context|].
  intros ctx st5 _. apply pres_bind; [apply pres_get_record_list_raw|].
  intros a st6 _. apply pres_set_related.
Qed.

Lemma pres_resolve r ftype name st : pres R (resolve_field client r ftype name) st.
Proof.
  unfold resolve_field. destruct (String.eqb ftype "many2one").
  { apply pres_bind; [apply pres_Record_data_get|]. intros; apply pres_many2one. }
  destruct (_ || _).
  { apply pres_bind; [apply pres_Record_data_get|]. intros; apply pres_one2many. }
  apply pres_bind; [apply pres_Record_data_get|]. intros; apply pres_ret.
Qed.

End Frame.

(** ** Cache hits *)

Global Instance quiet_preorder : PreOrder quiet.
Proof.
  split.
  - intros st. split; [reflexivity|]. intros c obj rid name. reflexivity.
  - intros s1 s2 s3 [Hl1 Hc1] [Hl2 Hc2]. split.
    + unfold same_log in *. congruence.
    + intros c obj rid name. rewrite Hc2. apply Hc1.
Qed.

Lemma cached_put_neutral st c obj f c' obj' rid name :
  neutral f →
  cached (put_bucket c obj (f (bucket_of st c obj)) st) c' obj' rid name =
  cached st c' obj' rid name.
Proof.
  intros Hf. unfold cached, row_of.
  destruct (decide (c < length (caches st))%nat) as [Hlt|Hge].
  - rewrite bucket_of_put by done. case_decide as Hd; [|reflexivity].
    destruct Hd as [-> ->]. apply Hf.
  - unfold put_bucket, set_caches, bucket_of. simpl.
    rewrite list_insert_ge by lia. reflexivity.
Qed.

Lemma quiet_alloc_cache st : quiet st (set_caches (λ cs, cs ++ [∅]) st).
Proof.
  split; [reflexivity|]. intros c obj rid name.
  unfold cached, row_of. rewrite bucket_of_alloc. reflexivity.
Qed.

Lemma quiet_neutral st c obj f :
  neutral f → quiet st (put_bucket c obj (f (bucket_of st c obj)) st).
Proof.
  intros Hf. split; [reflexivity|]. intros c' obj' rid name.
  by apply cached_put_neutral.
Qed.

Lemma quiet_set_records st g : quiet st (set_records g st).
Proof. split; [reflexivity|]. intros c obj rid name. reflexivity. Qed.

Lemma quiet_set_lists st g : quiet st (set_lists g st).
Proof. split; [reflexivity|]. intros c obj rid name. reflexivity. Qed.

Lemma cached_valid st c obj rid name v :
  cached st c obj rid name = Some v → (c < length (caches st))%nat.
Proof.
  unfold cached, row_of, bucket_of. intros H.
  destruct (caches st !! c) eqn:E; [by eapply lookup_lt_Some|].
  simpl in H. unfold get_bucket in H. rewrite lookup_empty in H. simpl in H.
  rewrite lookup_empty in H. discriminate H.
Qed.

Lemma register_registered rid b e :
  oc_rows b !! rid = Some e → register rid b = b.
Proof. intros H. unfold register. rewrite H. reflexivity. Qed.

Lemma Record_data_run st r ro :
  records st !! r = Some ro →
  (rec_cache ro < length (caches st))%nat →
  let b := register (rec_id ro) (bucket_of st (rec_cache ro) (rec_object ro)) in
  Record_data r st =
    (put_bucket (rec_cache ro) (rec_object ro) b st,
     Ret (default ∅ (oc_rows b !! rec_id ro))).
Proof.
  intros Hr Hc b. unfold Record_data.
  rewrite (bind_ret _ _ _ _ _ (get_rec_run _ _ _ Hr)).
  rewrite (bind_ret _ _ _ _ _ (update_lcache_run _ _ _ _ Hc)). fold b.
  unfold lcache, get_cache. rewrite !bind_run. simpl.
  rewrite list_lookup_insert_eq by done. simpl.
  unfold get_bucket. rewrite lookup_insert_eq. reflexivity.
Qed.

(** C2: once a declared field [name] is present in the cache entry of [r],
    accessing [r[name]] issues no remote read and changes no cached field
    value, of this or of any other row; a field that is not relational
    comes back as the cached value itself. *)
Theorem Record_getitem_cache_hit (client : Client) (st : state) (r : addr)
    (ro : RecordObj) (fi : field_info) (name : string) (v : value) :
  records st !! r = Some ro →
  columns_info client (rec_object ro) !! name = Some fi →
  cached st (rec_cache ro) (rec_object ro) (rec_id ro) name = Some v →
  let res := Record_getitem client r name st in
  log res.1 = log st ∧
  (∀ c obj rid f, cached res.1 c obj rid f = cached st c obj rid f) ∧
  (name ≠ "id" → f_type fi ≠ "many2one" → f_type fi ≠ "one2many" →
   f_type fi ≠ "many2many" → res.2 = Ret (PVal v)).
Proof.
  intros Hr Hcol Hv res.
  pose proof (cached_valid _ _ _ _ _ _ Hv) as Hc.
  pose proof Hv as Hv'. unfold cached, row_of in Hv'.
  destruct (oc_rows (bucket_of st (rec_cache ro) (rec_object ro)) !! rec_id ro)
    as [e|] eqn:He; [|discriminate Hv']. simpl in Hv'.
  pose proof (Record_data_run st r ro Hr Hc) as Hd. simpl in Hd.
  rewrite (register_registered _ _ _ He) in Hd. rewrite He in Hd. simpl in Hd.
  assert (Hq : quiet st (put_bucket (rec_cache ro) (rec_object ro)
                           (bucket_of st (rec_cache ro) (rec_object ro)) st)).
  { apply (quiet_neutral st _ _ (λ b, b)), neutral_id. }
  subst res. unfold Record_getitem.
  destruct (String.eqb_spec name "id") as [->|Hid].
  { rewrite (bind_ret _ _ _ _ _ (Record_id_run _ _ _ Hr)). simpl.
    split; [reflexivity|]. split; [reflexivity|]. intros ?; done. }
  rewrite (bind_ret _ _ _ _ _ (get_rec_run _ _ _ Hr)). rewrite Hcol.
  unfold Record_get_field.
  rewrite (bind_ret _ _ _ _ _ (get_rec_run _ _ _ Hr)).
  rewrite (bind_ret _ _ _ _ _ Hd). rewrite Hv'.
  rewrite bind_run. simpl.
  fold (resolve_field client r (f_type fi) name).
  match goal with |- context [(?m ?s).1] =>
    assert (Hp : quiet s (m s).1) end.
  { apply (pres_resolve client quiet); intros.
    - apply quiet_alloc_cache.
    - by apply quiet_neutral.
    - apply quiet_set_records.
    - apply quiet_set_records.
    - apply quiet_set_lists. }
  destruct (transitivity Hq Hp) as [Hlog Hcached].
  split; [exact Hlog|]. split; [exact Hcached|].
  intros _ H1 H2 H3. unfold resolve_field.
  destruct (String.eqb_spec (f_type fi) "many2one") as [|_]; [done|].
  destruct (String.eqb_spec (f_type fi) "one2many") as [|_]; [done|].
  destruct (String.eqb_spec (f_type fi) "many2many") as [|_]; [done|].
  simpl. unfold Record_data_get.
  assert (Hr' : records (put_bucket (rec_cache ro) (rec_object ro)
                  (bucket_of st (rec_cache ro) (rec_object ro)) st) !! r = Some ro) by exact Hr.
  assert (Hc' : (rec_cache ro < length (caches (put_bucket (rec_cache ro) (rec_object ro)
                  (bucket_of st (rec_cache ro) (rec_object ro)) st)))%nat).
  { by rewrite put_bucket_length. }
  pose proof (Record_data_run _ r ro Hr' Hc') as Hd2. simpl in Hd2.
  rewrite bucket_of_put in Hd2 by done. rewrite decide_True in Hd2 by done.
  rewrite (register_registered _ _ _ He) in Hd2. rewrite He in Hd2. simpl in Hd2.
  rewrite bind_run, (bind_ret _ _ _ _ _ Hd2). rewrite Hv'. reflexivity.
Qed.

(** ** Cache misses: the batched read *)

Global Instance same_log_preorder : PreOrder same_log.
Proof. split; unfold same_log; [intros ?; reflexivity|intros ???; congruence]. Qed.

Lemma get_ids_to_read_spec name b i :
  i ∈ get_ids_to_read name b ↔ ∃ e, oc_rows b !! i = Some e ∧ e !! name = None.
Proof.
  unfold get_ids_to_read. rewrite list_elem_of_fmap. split.
  - intros [[j e] [-> H]]. apply elem_of_map_to_list in H.
    apply map_lookup_filter_Some in H as [H1 H2]. simpl in *. eauto.
  - intros (e & H1 & H2). exists (i, e). split; [reflexivity|].
    apply elem_of_map_to_list. apply map_lookup_filter_Some. split; done.
Qed.

Lemma get_ids_to_read_NoDup name b : NoDup (get_ids_to_read name b).
Proof. unfold get_ids_to_read. apply NoDup_fst_map_to_list. Qed.

Lemma same_log_update_lcache c obj f st : pres same_log (update_lcache c obj f) st.
Proof.
  unfold pres, same_log.
  destruct (decide (c < length (caches st))%nat) as [Hlt|Hge].
  - rewrite update_lcache_run by done. reflexivity.
  - rewrite update_lcache_bad by lia. reflexivity.
Qed.

Lemma cached_cache_field st c obj i ftype name v c' obj' j g :
  (c < length (caches st))%nat →
  cached (put_bucket c obj (cache_field i ftype name v (bucket_of st c obj)) st) c' obj' j g =
    if decide (c' = c ∧ obj' = obj ∧ j = i ∧ g = name) then Some v
    else cached st c' obj' j g.
Proof.
  intros Hc. unfold cached, row_of. rewrite bucket_of_put by done.
  destruct (decide (c' = c ∧ obj' = obj)) as [[-> ->]|Hne].
  - simpl. destruct (decide (j = i)) as [->|Hji].
    + rewrite lookup_insert_eq. simpl.
      destruct (decide (g = name)) as [->|Hg].
      * rewrite lookup_insert_eq. rewrite decide_True by done. reflexivity.
      * rewrite lookup_insert_ne by done.
        rewrite decide_False by (intros (_ & _ & _ & ?); done).
        destruct (oc_rows (bucket_of st c obj) !! i); reflexivity.
    + rewrite lookup_insert_ne by done.
      rewrite decide_False by (intros (_ & _ & ? & _); done). reflexivity.
  - rewrite decide_False by (intros (? & ? & _); by apply Hne). reflexivity.
Qed.

(** The loop of [_get_field] over well-formed rows: its effect on the
    cached values. *)
Lemma write_rows_run c obj ftype name rows st :
  (c < length (caches st))%nat →
  Forall (λ d, is_Some (row_get d name)) rows →
  ∃ st',
    write_rows c obj ftype name rows st = (st', Ret tt) ∧
    length (caches st') = length (caches st) ∧
    records st' = records st ∧ lists st' = lists st ∧ log st' = log st ∧
    ∀ c' obj' j g,
      cached st' c' obj' j g =
        if decide (c' = c ∧ obj' = obj ∧ g = name) then
          match last_written name rows j with
          | Some v => Some v
          | None => cached st c' obj' j g
          end
        else cached st c' obj' j g.
Proof.
  intros Hc Hrows. revert st Hc. unfold write_rows.
  induction Hrows as [|d rows [v Hv] _ IH]; intros st Hc.
  - exists st. simpl. repeat split; try reflexivity.
    intros. case_decide; reflexivity.
  - simpl. rewrite bind_run. rewrite bind_run. rewrite Hv. simpl.
    rewrite update_lcache_run by done.
    set (st1 := put_bucket c obj _ st).
    destruct (IH st1) as (st' & Hrun & Hlen & Hrec & Hl & Hlog & Hcached).
    { subst st1. by rewrite put_bucket_length. }
    exists st'. split; [exact Hrun|].
    split; [rewrite Hlen; subst st1; apply put_bucket_length|].
    do 3 (split; [done|]).
    intros c' obj' j g. rewrite Hcached. subst st1.
    rewrite cached_cache_field by done.
    destruct (decide (c' = c ∧ obj' = obj ∧ g = name)) as [(-> & -> & ->)|Hne].
    + destruct (last_written name rows j); [reflexivity|].
      destruct (decide (row_id d = j)) as [->|Hj].
      * rewrite decide_True by done. reflexivity.
      * rewrite decide_False by (intros (_ & _ & ? & _); congruence). reflexivity.
    + rewrite decide_False by (intros (? & ? & _ & ?); by apply Hne). reflexivity.
Qed.

Lemma last_written_returned name rows d :
  d ∈ rows → is_Some (row_get d name) → is_Some (last_written name rows (row_id d)).
Proof.
  intros Hin Hd. induction rows as [|d' rows IH]; [by apply elem_of_nil in Hin|].
  simpl. apply elem_of_cons in Hin as [<-|Hin].
  - destruct (last_written name rows (row_id d)); [eauto|].
    rewrite decide_True by done. exact Hd.
  - destruct (IH Hin) as [v ->]. eauto.
Qed.

Lemma Record_data_get_run st r ro name :
  records st !! r = Some ro →
  (rec_cache ro < length (caches st))%nat →
  ∃ st', Record_data_get r name st =
    (st', match cached st (rec_cache ro) (rec_object ro) (rec_id ro) name with
          | Some v => Ret v
          | None => Raise (KeyError name)
          end) ∧ quiet st st'.
Proof.
  intros Hr Hc. eexists. unfold Record_data_get.
  rewrite (bind_ret _ _ _ _ _ (Record_data_run _ _ _ Hr Hc)).
  split; [|apply quiet_neutral, neutral_register].
  pose proof (neutral_register (rec_id ro)
                (bucket_of st (rec_cache ro) (rec_object ro)) (rec_id ro) name) as Hn.
  unfold cached, row_of. rewrite <- Hn.
  destruct (oc_rows (register _ _) !! rec_id ro) as [e|] eqn:E; simpl.
  - destruct (e !! name); reflexivity.
  - rewrite lookup_empty. reflexivity.
Qed.

Lemma row_of_valid st c obj rid e :
  row_of st c obj rid = Some e → (c < length (caches st))%nat.
Proof.
  unfold row_of, bucket_of. intros H.
  destruct (caches st !! c) eqn:E; [by eapply lookup_lt_Some|].
  simpl in H. unfold get_bucket in H. rewrite lookup_empty in H. simpl in H.
  rewrite lookup_empty in H. discriminate H.
Qed.

Lemma lcache_run st c obj :
  (c < length (caches st))%nat →
  lcache c obj st = (st, Ret (bucket_of st c obj)).
Proof.
  intros Hc. apply lookup_lt_is_Some_2 in Hc as [ca Hca].
  unfold lcache. rewrite (bind_ret _ _ _ _ _ (get_cache_run _ _ _ Hca)).
  unfold bucket_of. rewrite Hca. reflexivity.
Qed.

Lemma Record_context_run st r ro :
  records st !! r = Some ro →
  (rec_cache ro < length (caches st))%nat →
  Record_context r st = (st, Ret (oc_context (bucket_of st (rec_cache ro) (rec_object ro)))).
Proof.
  intros Hr Hc. unfold Record_context.
  rewrite (bind_ret _ _ _ _ _ (get_rec_run _ _ _ Hr)).
  rewrite (bind_ret _ _ _ _ _ (lcache_run _ _ _ Hc)). reflexivity.
Qed.

Lemma same_log_write_rows c obj ftype name rows st :
  pres same_log (write_rows c obj ftype name rows) st.
Proof.
  apply pres_for_each; [apply _|]. intros d s.
  apply pres_bind; [apply _|apply pres_lift_option; apply _|].
  intros v s' _. apply same_log_update_lcache.
Qed.

Lemma same_log_resolve client r ftype name st :
  pres same_log (resolve_field client r ftype name) st.
Proof. apply pres_resolve; try apply _; intros; reflexivity. Qed.

Lemma quiet_resolve client r ftype name st :
  pres quiet (resolve_field client r ftype name) st.
Proof.
  apply pres_resolve; try apply _; intros.
  - apply quiet_alloc_cache.
  - by apply quiet_neutral.
  - apply quiet_set_records.
  - apply quiet_set_records.
  - apply quiet_set_lists.
Qed.

(** A miss, step by step: the id is (already) registered, the read is
    logged and sent, the rows are written, the field is resolved. *)
Lemma Record_getitem_miss_run (client : Client) (st : state) (r : addr)
    (ro : RecordObj) (fi : field_info) (name : string) (e : gmap string value) :
  records st !! r = Some ro →
  name ≠ "id" →
  columns_info client (rec_object ro) !! name = Some fi →
  row_of st (rec_cache ro) (rec_object ro) (rec_id ro) = Some e →
  e !! name = None →
  let s1 := put_bucket (rec_cache ro) (rec_object ro)
              (bucket_of st (rec_cache ro) (rec_object ro)) st in
  let s2 := set_log (λ lg, lg ++ [miss_request st ro name]) s1 in
  Record_getitem client r name st =
    match remote_read client (log st) (miss_request st ro name) with
    | None => (s2, Raise RemoteFailure)
    | Some rows =>
        (write_rows (rec_cache ro) (rec_object ro) (f_type fi) name rows;;
         resolve_field client r (f_type fi) name) s2
    end.
Proof.
  intros Hr Hid Hcol He Hname s1 s2.
  pose proof (row_of_valid _ _ _ _ _ He) as Hc.
  unfold Record_getitem.
  destruct (String.eqb_spec name "id") as [|_]; [done|].
  rewrite (bind_ret _ _ _ _ _ (get_rec_run _ _ _ Hr)). rewrite Hcol.
  unfold Record_get_field.
  rewrite (bind_ret _ _ _ _ _ (get_rec_run _ _ _ Hr)).
  pose proof (Record_data_run st r ro Hr Hc) as Hd. simpl in Hd.
  unfold row_of in He. rewrite (register_registered _ _ _ He) in Hd.
  rewrite He in Hd. simpl in Hd.
  rewrite (bind_ret _ _ _ _ _ Hd). rewrite Hname. clear Hd. fold s1.
  assert (Hc1 : (rec_cache ro < length (caches s1))%nat).
  { subst s1. by rewrite put_bucket_length. }
  assert (Hr1 : records s1 !! r = Some ro) by exact Hr.
  assert (Hb1 : bucket_of s1 (rec_cache ro) (rec_object ro) =
                bucket_of st (rec_cache ro) (rec_object ro)).
  { subst s1. rewrite bucket_of_put by done. by rewrite decide_True. }
  fold (write_rows (rec_cache ro) (rec_object ro) (f_type fi) name).
  fold (resolve_field client r (f_type fi) name).
  rewrite bind_run.
  rewrite (bind_ret _ _ _ _ _ (lcache_run _ _ _ Hc1)).
  rewrite (bind_ret _ _ _ _ _ (Record_context_run _ _ _ Hr1 Hc1)).
  rewrite Hb1. fold (miss_request st ro name).
  rewrite (bind_run (object_read _ _ _ _ _)).
  unfold object_read. rewrite (bind_run get_state). simpl.
  rewrite (bind_run (modify _)). simpl.
  fold (miss_request st ro name). fold s2.
  destruct (remote_read client (log st) (miss_request st ro name)) as [rows|]; simpl.
  - rewrite bind_run. reflexivity.
  - reflexivity.
Qed.

(** C1: for a declared field [name] (other than 'id', which never reaches
    the cache) that is absent from the cache entry of [r], accessing
    [r[name]] issues exactly one read, for the field [name] alone and for
    the row ids registered in the bucket of [r] that lack [name] (the id of
    [r] among them); when the server answers with rows carrying the field,
    every returned row's value is in the cache afterwards (the last row
    winning when an id is returned twice, other rows keeping what they had),
    and for a field that is not relational the access returns the value now
    cached for [r]. *)
Theorem Record_getitem_miss_batched_read (client : Client) (st : state) (r : addr)
    (ro : RecordObj) (fi : field_info) (name : string) (e : gmap string value) :
  records st !! r = Some ro →
  name ≠ "id" →
  columns_info client (rec_object ro) !! name = Some fi →
  row_of st (rec_cache ro) (rec_object ro) (rec_id ro) = Some e →
  e !! name = None →
  let c := rec_cache ro in
  let obj := rec_object ro in
  let rq := miss_request st ro name in
  let res := Record_getitem client r name st in
  log res.1 = log st ++ [rq] ∧
  rq_object rq = obj ∧ rq_fields rq = Some [name] ∧
  (∀ i, i ∈ rq_ids rq ↔ ∃ e', row_of st c obj i = Some e' ∧ e' !! name = None) ∧
  rec_id ro ∈ rq_ids rq ∧
  ∀ rows,
    remote_read client (log st) rq = Some rows →
    Forall (λ d, is_Some (row_get d name)) rows →
    (∀ i, cached res.1 c obj i name =
            match last_written name rows i with
            | Some v => Some v
            | None => cached st c obj i name
            end) ∧
    (∀ d, d ∈ rows → is_Some (cached res.1 c obj (row_id d) name)) ∧
    (f_type fi ≠ "many2one" → f_type fi ≠ "one2many" → f_type fi ≠ "many2many" →
     res.2 = match cached res.1 c obj (rec_id ro) name with
             | Some v => Ret (PVal v)
             | None => Raise (KeyError name)
             end).
Proof.
  intros Hr Hid Hcol He Hname c obj rq res.
  pose proof (row_of_valid _ _ _ _ _ He) as Hc.
  pose proof (Record_getitem_miss_run client st r ro fi name e Hr Hid Hcol He Hname) as Hrun.
  simpl in Hrun. fold rq in Hrun. fold res in Hrun.
  set (s1 := put_bucket (rec_cache ro) (rec_object ro)
               (bucket_of st (rec_cache ro) (rec_object ro)) st) in *.
  set (s2 := set_log (λ lg, lg ++ [rq]) s1) in *.
  assert (Hids : ∀ i, i ∈ rq_ids rq ↔ ∃ e', row_of st c obj i = Some e' ∧ e' !! name = None).
  { intros i. apply get_ids_to_read_spec. }
  assert (Hc2 : (rec_cache ro < length (caches s2))%nat).
  { subst s2 s1. simpl. by rewrite length_insert. }
  assert (Hcached2 : ∀ c' obj' i g, cached s2 c' obj' i g = cached st c' obj' i g).
  { intros. apply (cached_put_neutral st _ _ (λ b, b)), neutral_id. }
  split.
  { rewrite Hrun. destruct (remote_read client (log st) rq) as [rows|]; [|reflexivity].
    rewrite bind_run.
    pose proof (same_log_write_rows (rec_cache ro) (rec_object ro) (f_type fi) name rows s2) as H1.
    unfold pres in H1.
    destruct (write_rows _ _ _ _ _ s2) as [s3 [[]|ex]]; simpl in H1; [|exact H1].
    pose proof (same_log_resolve client r (f_type fi) name s3) as H2.
    unfold pres, same_log in *. rewrite H2, H1. reflexivity. }
  split; [reflexivity|]. split; [reflexivity|]. split; [exact Hids|].
  split; [apply Hids; eauto|].
  intros rows Hrows Hwf. rewrite Hrows in Hrun.
  destruct (write_rows_run (rec_cache ro) (rec_object ro) (f_type fi) name rows s2 Hc2 Hwf)
    as (s3 & Hw & Hlen3 & Hrec3 & _ & _ & Hcached3).
  rewrite (bind_ret _ _ _ _ _ Hw) in Hrun.
  pose proof (quiet_resolve client r (f_type fi) name s3) as [_ Hq]. unfold pres in Hq.
  rewrite <- Hrun in Hq.
  assert (Hfinal : ∀ i, cached res.1 c obj i name =
            match last_written name rows i with
            | Some v => Some v
            | None => cached st c obj i name
            end).
  { intros i. rewrite Hq, Hcached3. rewrite decide_True by done.
    rewrite Hcached2. reflexivity. }
  split; [exact Hfinal|]. split.
  { intros d Hd. rewrite Hfinal.
    rewrite Forall_forall in Hwf.
    destruct (last_written_returned name rows d Hd (Hwf d Hd)) as [v ->]. eauto. }
  intros H1 H2 H3. rewrite Hq. rewrite Hrun. unfold resolve_field.
  destruct (String.eqb_spec (f_type fi) "many2one") as [|_]; [done|].
  destruct (String.eqb_spec (f_type fi) "one2many") as [|_]; [done|].
  destruct (String.eqb_spec (f_type fi) "many2many") as [|_]; [done|].
  simpl.
  assert (Hr3 : records s3 !! r = Some ro) by (rewrite Hrec3; exact Hr).
  assert (Hc3 : (rec_cache ro < length (caches s3))%nat) by (rewrite Hlen3; exact Hc2).
  destruct (Record_data_get_run s3 r ro name Hr3 Hc3) as (s4 & Hg & _).
  rewrite bind_run, Hg. fold c obj.
  destruct (cached s3 c obj (rec_id ro) name); reflexivity.
Qed.

(** ** Constructors *)

Lemma put_bucket_put_bucket c obj b1 b2 st :
  put_bucket c obj b2 (put_bucket c obj b1 st) = put_bucket c obj b2 st.
Proof.
  unfold put_bucket, set_caches. simpl. f_equal.
  destruct (decide (c < length (caches st))%nat) as [Hlt|Hge].
  - rewrite list_lookup_insert_eq by done. simpl.
    rewrite list_insert_insert_eq. by rewrite insert_insert_eq.
  - rewrite !list_insert_ge by (rewrite ?length_insert; lia). reflexivity.
Qed.

Lemma put_bucket_id c obj st ca b :
  caches st !! c = Some ca → ca !! obj = Some b →
  put_bucket c obj b st = st.
Proof.
  intros Hca Hb. unfold put_bucket, set_caches. destruct st as [cs rs ls lg]. simpl in *.
  f_equal. rewrite Hca. simpl. rewrite insert_id by done. by apply list_insert_id.
Qed.

Lemma put_bucket_lookup c obj b st :
  (c < length (caches st))%nat →
  caches (put_bucket c obj b st) !! c = Some (<[obj := b]> (default ∅ (caches st !! c))).
Proof. intros Hc. simpl. by rewrite list_lookup_insert_eq. Qed.

Lemma put_bucket_same c obj b st :
  (c < length (caches st))%nat →
  bucket_of (put_bucket c obj b st) c obj = b.
Proof. intros Hc. rewrite bucket_of_put by done. by rewrite decide_True. Qed.

Lemma get_record_run obj i c ctx st :
  (c < length (caches st))%nat →
  get_record obj (VInt i) (Some c) ctx st =
    (set_records (λ rs, rs ++ [new_record obj c i])
       (put_bucket c obj (with_context ctx (register i (bucket_of st c obj))) st),
     Ret (length (records st))).
Proof.
  intros Hc. unfold get_record. simpl. rewrite bind_run. simpl.
  rewrite (bind_ret _ _ _ _ _ (update_lcache_run _ _ _ _ Hc)).
  set (s1 := put_bucket c obj _ st).
  assert (Hc1 : (c < length (caches s1))%nat) by (subst s1; by rewrite put_bucket_length).
  destruct ctx as [x|]; simpl.
  - rewrite (bind_ret _ _ _ _ _ (update_lcache_run _ _ _ _ Hc1)).
    subst s1. rewrite put_bucket_same by done. rewrite put_bucket_put_bucket.
    reflexivity.
  - reflexivity.
Qed.

Lemma empty_cache_run st :
  empty_cache st = (set_caches (λ cs, cs ++ [∅]) st, Ret (length (caches st))).
Proof. reflexivity. Qed.

Lemma get_record_fresh_run obj i ctx st :
  let c := length (caches st) in
  get_record obj (VInt i) None ctx st =
    (set_records (λ rs, rs ++ [new_record obj c i])
       (put_bucket c obj (with_context ctx (register i empty_bucket))
          (set_caches (λ cs, cs ++ [∅]) st)),
     Ret (length (records st))).
Proof.
  intros c.
  assert (Hc : (c < length (caches (set_caches (λ cs, cs ++ [∅]) st)))%nat).
  { simpl. rewrite length_app. simpl. lia. }
  pose proof (get_record_run obj i c ctx _ Hc) as H.
  assert (Hb : bucket_of (set_caches (λ cs, cs ++ [∅]) st) c obj = empty_bucket).
  { unfold bucket_of. simpl. subst c. rewrite list_lookup_middle by done. reflexivity. }
  rewrite Hb in H. etrans; [|exact H]. unfold get_record. simpl.
  rewrite !bind_run. reflexivity.
Qed.

Lemma update_keys_registered ids b i :
  i ∈ ids → is_Some (oc_rows (update_keys ids b) !! i).
Proof.
  unfold update_keys. revert b. induction ids as [|j ids IH]; intros b Hin.
  - by apply elem_of_nil in Hin.
  - simpl. assert (Hmono : ∀ l b', is_Some (oc_rows b' !! i) →
                      is_Some (oc_rows (foldl (λ b rid, register rid b) b' l) !! i)).
    { clear. induction l as [|k l IH]; intros b' Hb; simpl; [done|].
      apply IH. unfold register. destruct (oc_rows b' !! k) eqn:E; [done|]. simpl.
      destruct (decide (i = k)) as [->|Hne]; [rewrite lookup_insert_eq; eauto|].
      by rewrite lookup_insert_ne. }
    apply elem_of_cons in Hin as [->|Hin]; [|by apply IH].
    apply Hmono. unfold register. destruct (oc_rows b !! j) eqn:E; [by rewrite E|].
    simpl. rewrite lookup_insert_eq. eauto.
Qed.

(** Building the records of a list whose ids are registered already. *)
Lemma records_of_ids_run obj c ids st ca b :
  caches st !! c = Some ca → ca !! obj = Some b →
  (∀ i, i ∈ ids → is_Some (oc_rows b !! i)) →
  list_comp (λ id_, get_record obj (VInt id_) (Some c) None) ids st =
    (set_records (λ rs, rs ++ map (new_record obj c) ids) st,
     Ret (seq (length (records st)) (length ids))).
Proof.
  revert st. induction ids as [|i ids IH]; intros st Hca Hb Hreg; simpl.
  - unfold set_records. rewrite app_nil_r. by destruct st.
  - assert (Hc : (c < length (caches st))%nat) by (by eapply lookup_lt_Some).
    rewrite (bind_ret _ _ _ _ _ (get_record_run _ _ _ _ _ Hc)). simpl.
    assert (Hbo : bucket_of st c obj = b).
    { unfold bucket_of, get_bucket. rewrite Hca. simpl. by rewrite Hb. }
    rewrite Hbo. destruct (Hreg i) as [e He]; [left|].
    rewrite (register_registered _ _ _ He).
    rewrite (put_bucket_id _ _ _ _ _ Hca Hb).
    rewrite (bind_ret _ _ _ _ _ (IH (set_records _ st) Hca Hb
               (λ j Hj, Hreg j (list_elem_of_further _ _ _ Hj)))).
    simpl. rewrite length_app. simpl. unfold set_records. simpl.
    rewrite <- app_assoc. simpl. do 3 f_equal.
    rewrite Nat.add_1_r. reflexivity.
Qed.

Lemma get_record_list_run client obj ids fields c ctx st :
  (c < length (caches st))%nat →
  get_record_list client obj ids fields (Some c) ctx st =
    (set_lists (λ ls, ls ++ [{| rl_object := obj; rl_cache := c;
                                rl_records := seq (length (records st)) (length ids) |}])
       (set_records (λ rs, rs ++ map (new_record obj c) ids)
          (put_bucket c obj (update_keys ids (with_context ctx (bucket_of st c obj))) st)),
     Ret (length (lists st))).
Proof.
  intros Hc. unfold get_record_list. rewrite bind_run. simpl.
  rewrite (bind_ret _ _ _ _ _ (update_lcache_run _ _ _ _ Hc)).
  set (s1 := put_bucket c obj _ st).
  assert (Hc1 : (c < length (caches s1))%nat) by (subst s1; by rewrite put_bucket_length).
  assert (∃ s2, (match ctx with
                 | Some x => update_lcache c obj (update_context x)
                 | None => mret ()
                 end) s1 = (s2, Ret tt) ∧
                s2 = put_bucket c obj (with_context ctx (bucket_of st c obj)) st)
    as (s2 & Hs2 & Es2).
  { destruct ctx as [x|]; simpl.
    - eexists. split; [apply update_lcache_run; done|].
      subst s1. rewrite put_bucket_same by done. by rewrite put_bucket_put_bucket.
    - eexists. split; reflexivity. }
  rewrite (bind_ret _ _ _ _ _ Hs2).
  assert (Hc2 : (c < length (caches s2))%nat) by (subst s2; by rewrite put_bucket_length).
  rewrite (bind_ret _ _ _ _ _ (update_lcache_run _ _ _ _ Hc2)).
  set (s3 := put_bucket c obj _ s2).
  assert (Es3 : s3 = put_bucket c obj
                  (update_keys ids (with_context ctx (bucket_of st c obj))) st).
  { subst s3. rewrite Es2. rewrite put_bucket_same by done. by rewrite put_bucket_put_bucket. }
  clearbody s3. subst s3. clear Hs2 Hc2 s1 Hc1. clear s2 Es2.
  set (b3 := update_keys ids (with_context ctx (bucket_of st c obj))).
  set (s3 := put_bucket c obj b3 st).
  assert (Hca3 : caches s3 !! c = Some (<[obj := b3]> (default ∅ (caches st !! c)))).
  { subst s3. by apply put_bucket_lookup. }
  assert (Hb3 : <[obj := b3]> (default ∅ (caches st !! c)) !! obj = Some b3)
    by apply lookup_insert_eq.
  rewrite (bind_ret _ _ _ _ _ (records_of_ids_run obj c ids s3 _ _ Hca3 Hb3
             (λ i Hi, update_keys_registered ids _ i Hi))).
  rewrite bind_run. simpl. rewrite bind_run. simpl.
  destruct fields as [fs|]; simpl; [|reflexivity].
  rewrite bind_run.
  match goal with |- context [update_lcache c obj ?f ?s] =>
    assert (Hp : update_lcache c obj f s = (s, Ret tt)) end.
  { rewrite update_lcache_run by (simpl; by rewrite length_insert).
    f_equal. unfold prefetch_fields.
    eapply put_bucket_id; [exact Hca3|].
    rewrite Hb3. f_equal. symmetry. exact (put_bucket_same c obj b3 st Hc). }
  rewrite Hp. reflexivity.
Qed.

Lemma get_record_list_fresh_run client obj ids fields ctx st :
  let c := length (caches st) in
  get_record_list client obj ids fields None ctx st =
    (set_lists (λ ls, ls ++ [{| rl_object := obj; rl_cache := c;
                                rl_records := seq (length (records st)) (length ids) |}])
       (set_records (λ rs, rs ++ map (new_record obj c) ids)
          (put_bucket c obj (update_keys ids (with_context ctx empty_bucket))
             (set_caches (λ cs, cs ++ [∅]) st))),
     Ret (length (lists st))).
Proof.
  intros c.
  assert (Hc : (c < length (caches (set_caches (λ cs, cs ++ [∅]) st)))%nat).
  { simpl. rewrite length_app. simpl. lia. }
  pose proof (get_record_list_run client obj ids fields c ctx _ Hc) as H.
  assert (Hb : bucket_of (set_caches (λ cs, cs ++ [∅]) st) c obj = empty_bucket).
  { unfold bucket_of. simpl. subst c. rewrite list_lookup_middle by done. reflexivity. }
  rewrite Hb in H. etrans; [|exact H]. unfold get_record_list.
  rewrite !bind_run. reflexivity.
Qed.

Lemma list_comp_Record_id st recs ids :
  ids_at st recs = Some ids → list_comp Record_id recs st = (st, Ret ids).
Proof.
  revert ids. induction recs as [|a recs IH]; intros ids H; simpl.
  - unfold ids_at in H. simpl in H. by injection H as <-.
  - unfold ids_at in H. simpl in H.
    destruct (records st !! a) as [ro|] eqn:Ea; simpl in H; [|discriminate H].
    destruct (mapM _ recs) as [ids'|] eqn:Em; simpl in H; [|discriminate H].
    injection H as <-.
    rewrite (bind_ret _ _ _ _ _ (Record_id_run _ _ _ Ea)).
    rewrite (bind_ret _ _ _ _ _ (IH _ Em)). reflexivity.
Qed.

Lemma RecordList_ids_run st l lo ids :
  lists st !! l = Some lo → ids_at st (rl_records lo) = Some ids →
  RecordList_ids l st = (st, Ret ids).
Proof.
  intros Hl Hids. unfold RecordList_ids.
  rewrite (bind_ret _ _ _ _ _ (get_list_run _ _ _ Hl)).
  by apply list_comp_Record_id.
Qed.

Lemma ids_at_new_records st obj c ids :
  ids_at (set_records (λ rs, rs ++ map (new_record obj c) ids) st)
         (seq (length (records st)) (length ids)) = Some ids.
Proof.
  unfold ids_at. apply mapM_Some_2. apply Forall2_same_length_lookup_2.
  - by rewrite length_seq.
  - intros k a i Ha Hi. apply lookup_seq in Ha as [-> Hk]. simpl.
    rewrite lookup_app_r by lia.
    replace (length (records st) + k - length (records st))%nat with k by lia.
    rewrite list_lookup_fmap, Hi. reflexivity.
Qed.

(** ** Copies of a record list *)

(** C6, as the code has it: [copy] gives a list on the same collection and
    with the same ids whose cache store is, for [new_cache] any falsy
    value ([False], but also [None], [0], an empty string or list), the
    store of [L]; for [True], a store created by the call, holding nothing
    but the ids of [L] with empty field mappings (and the context given);
    for an existing cache store, that store.  Any other raw value, and a
    record, raises [ValueError] and no list is made. *)
Theorem RecordList_copy_new_cache (client : Client) (st : state) (l : addr)
    (lo : RecordListObj) (ids : list Z) (context : option (gmap string value)) :
  lists st !! l = Some lo →
  ids_at st (rl_records lo) = Some ids →
  (rl_cache lo < length (caches st))%nat →
  let copy_on (new_cache : pyval) (c : addr) (st' : state) :=
    ∃ lo', RecordList_copy client l context new_cache st = (st', Ret (length (lists st))) ∧
           lists st !! length (lists st) = None ∧
           lists st' !! length (lists st) = Some lo' ∧
           rl_object lo' = rl_object lo ∧ rl_cache lo' = c ∧
           ids_at st' (rl_records lo') = Some ids in
  (∀ v, truthy v = false → ∃ st', copy_on (PVal v) (rl_cache lo) st') ∧
  (∃ st', copy_on (PVal (VBool true)) (length (caches st)) st' ∧
          caches st !! length (caches st) = None ∧
          caches st' !! length (caches st) =
            Some {[ rl_object lo := update_keys ids (with_context context empty_bucket) ]}) ∧
  (∀ s, (s < length (caches st))%nat → ∃ st', copy_on (PCache s) s st') ∧
  (∀ v, truthy v = true → v ≠ VBool true →
        RecordList_copy client l context (PVal v) st =
          (st, Raise (ValueError "Wrong value for parametr 'new_cache'"))) ∧
  (∀ a, RecordList_copy client l context (PRec a) st =
          (st, Raise (ValueError "Wrong value for parametr 'new_cache'"))).
Proof.
  intros Hl Hids Hc copy_on.
  assert (Hshared : ∀ nc c,
    (c < length (caches st))%nat →
    RecordList_copy client l context nc st =
      get_record_list client (rl_object lo) ids None (Some c) context st →
    ∃ st', copy_on nc c st').
  { intros nc c Hcv Hrun. eexists. unfold copy_on. eexists. rewrite Hrun.
    split; [apply get_record_list_run; exact Hcv|].
    split; [apply lookup_ge_None_2; lia|]. simpl.
    split; [apply list_lookup_middle; reflexivity|].
    split; [reflexivity|]. split; [reflexivity|].
    apply (ids_at_new_records (put_bucket _ _ _ st)). }
  split; [|split; [|split; [|split]]].
  - intros v Hv. apply Hshared; [exact Hc|]. unfold RecordList_copy.
    rewrite (bind_ret _ _ _ _ _ (get_list_run _ _ _ Hl)). rewrite Hv. simpl.
    rewrite bind_run. simpl.
    rewrite (bind_ret _ _ _ _ _ (RecordList_ids_run _ _ _ _ Hl Hids)). reflexivity.
  - eexists. split; [|split; [apply lookup_ge_None_2; lia|]].
    + unfold copy_on. eexists.
      assert (Hrun : RecordList_copy client l context (PVal (VBool true)) st =
                get_record_list client (rl_object lo) ids None None context st).
      { unfold RecordList_copy.
        rewrite (bind_ret _ _ _ _ _ (get_list_run _ _ _ Hl)). simpl.
        rewrite bind_run. simpl.
        assert (Hl' : lists (set_caches (λ cs, cs ++ [∅]) st) !! l = Some lo) by exact Hl.
        rewrite (bind_ret _ _ _ _ _ (RecordList_ids_run _ _ _ _ Hl' Hids)).
        unfold get_record_list. rewrite !bind_run. reflexivity. }
      rewrite Hrun. split; [apply get_record_list_fresh_run|].
      split; [apply lookup_ge_None_2; lia|]. simpl.
      split; [apply list_lookup_middle; reflexivity|].
      split; [reflexivity|]. split; [reflexivity|].
      apply (ids_at_new_records (put_bucket _ _ _ (set_caches _ st))).
    + simpl. rewrite list_lookup_insert_eq by (rewrite length_app; simpl; lia).
      rewrite list_lookup_middle by done. simpl. reflexivity.
  - intros s Hs. apply Hshared; [exact Hs|]. unfold RecordList_copy.
    rewrite (bind_ret _ _ _ _ _ (get_list_run _ _ _ Hl)). simpl.
    rewrite bind_run. simpl.
    rewrite (bind_ret _ _ _ _ _ (RecordList_ids_run _ _ _ _ Hl Hids)). reflexivity.
  - intros v Hv Hne. unfold RecordList_copy.
    rewrite (bind_ret _ _ _ _ _ (get_list_run _ _ _ Hl)). rewrite Hv. simpl.
    destruct v as [|[]| | |]; try reflexivity. done.
  - intros a. unfold RecordList_copy.
    rewrite (bind_ret _ _ _ _ _ (get_list_run _ _ _ Hl)). reflexivity.
Qed.

(** ** read_records *)

Global Instance same_objects_preorder : PreOrder same_objects.
Proof.
  split; [intros ?; by split|].
  intros s1 s2 s3 [H1 H2] [H3 H4]. split; congruence.
Qed.

Lemma same_objects_update_lcache c obj f st : pres same_objects (update_lcache c obj f) st.
Proof.
  unfold pres.
  destruct (decide (c < length (caches st))%nat) as [Hlt|Hge].
  - rewrite update_lcache_run by done. by split.
  - rewrite update_lcache_bad by lia. by split.
Qed.

Lemma same_objects_object_read client obj ids fields ctx st :
  pres same_objects (object_read client obj ids fields ctx) st.
Proof.
  unfold object_read. apply pres_bind; [apply _|apply pres_get_state; apply _|].
  intros s st1 _. apply pres_bind; [apply _|by split|].
  intros _ st2 _. apply pres_lift_option; apply _.
Qed.

Lemma same_objects_Record_read client r fields ctx multi st :
  pres same_objects (Record_read client r fields ctx multi) st.
Proof.
  unfold Record_read. apply pres_bind; [apply _|apply pres_get_rec; apply _|].
  intros ro st1 _. apply pres_bind; [apply _|apply pres_Record_context; apply _|].
  intros own st2 _. apply pres_bind; [apply _|apply pres_lcache; apply _|].
  intros b st3 _. apply pres_bind; [apply _|apply same_objects_object_read|].
  intros rows st4 _. apply pres_bind; [apply _| |intros; apply pres_ret; apply _].
  apply pres_for_each; [apply _|]. intros d s. apply same_objects_update_lcache.
Qed.

Lemma ids_of_value_ints ids : ids_of_value (VList (VInt <$> ids)) = Some ids.
Proof.
  unfold ids_of_value. apply mapM_Some_2.
  induction ids as [|i ids IH]; simpl; constructor; done.
Qed.

(** The [cache] argument of [read_records] is never looked at. *)
Lemma read_records_cache_unused client obj ids fields context cache cache' :
  read_records client obj ids fields context cache =
  read_records client obj ids fields context cache'.
Proof. reflexivity. Qed.

(** With a single integer id, the record made by [read_records] sits on a
    cache store created by the call, whatever [cache] is passed and
    whatever the outcome of the optional read. *)
Lemma read_records_id_fresh_cache client obj i fields context cache st :
  let res := read_records_id client obj i fields context cache st in
  caches st !! length (caches st) = None ∧
  records res.1 !! length (records st) = Some (new_record obj (length (caches st)) i) ∧
  (fields = None → res.2 = Ret (length (records st)) ∧ log res.1 = log st).
Proof.
  intros res. split; [apply lookup_ge_None_2; lia|].
  subst res. unfold read_records_id.
  rewrite (bind_ret _ _ _ _ _ (get_record_fresh_run obj i context st)).
  destruct fields as [fs|]; simpl.
  - split; [|done]. rewrite !bind_run.
    match goal with |- context [Record_read ?cl ?r ?f ?x ?m ?s] =>
      pose proof (same_objects_Record_read cl r f x m s) as Hrec; unfold pres in Hrec;
      destruct (Record_read cl r f x m s) as [s' [a|e]] end;
      destruct Hrec as [Hrec _]; simpl in *; rewrite Hrec;
      apply list_lookup_middle; reflexivity.
  - split; [apply list_lookup_middle; reflexivity|]. done.
Qed.

(** C9: with a list of ids, the [cache] argument is documented as the
    cache to use for the record list, but [read_records] does not pass it
    on: the list it returns sits on a cache store created by the call,
    never on the store passed in. *)
Theorem read_records_list_ignores_cache (client : Client) (obj : string) (ids : list Z)
    (fields : option (list string)) (context : option (gmap string value))
    (cache : option addr) (st : state) :
  ∃ st' lo,
    read_records client obj (VList (VInt <$> ids)) fields context cache st =
      (st', Ret (PList (length (lists st)))) ∧
    lists st' !! length (lists st) = Some lo ∧
    rl_cache lo = length (caches st) ∧
    caches st !! rl_cache lo = None ∧
    (∀ c, cache = Some c → (c < length (caches st))%nat → rl_cache lo ≠ c).
Proof.
  eexists _, _. unfold read_records. simpl.
  pose proof (ids_of_value_ints ids) as Hi. unfold ids_of_value in Hi. rewrite Hi.
  rewrite (bind_ret _ _ _ _ _ (get_record_list_fresh_run client obj ids fields context st)).
  split; [reflexivity|]. simpl.
  split; [apply list_lookup_middle; reflexivity|]. simpl.
  split; [reflexivity|]. split; [apply lookup_ge_None_2; lia|].
  intros c _ Hc. lia.
Qed.

(** ** Inserting into a record list *)

Lemma set_list_records_run st l lo f :
  lists st !! l = Some lo →
  set_list_records l f st =
    (set_lists (λ ls, <[l := {| rl_object := rl_object lo; rl_cache := rl_cache lo;
                              rl_records := f (rl_records lo) |}]> ls) st, Ret tt).
Proof.
  intros Hl. unfold set_list_records.
  rewrite (bind_ret _ _ _ _ _ (get_list_run _ _ _ Hl)). reflexivity.
Qed.

(** C5, as the code has it: [insert] puts a record handle into the list as
    it is and writes to no cache store; an integer is turned by
    [read_records] into a new record on a cache store created by the call,
    in which the id is registered with an empty field mapping, no remote
    read is issued, and the cache store of [L] is left as it was; anything
    else fails the assertion and changes nothing. *)
Theorem RecordList_insert_spec (client : Client) (st : state) (l : addr)
    (lo : RecordListObj) (index : Z) :
  lists st !! l = Some lo →
  let placed (a : addr) (st' : state) :=
    lists st' !! l = Some {| rl_object := rl_object lo; rl_cache := rl_cache lo;
                             rl_records := py_insert index a (rl_records lo) |} in
  (∀ a, ∃ st', RecordList_insert client l index (PRec a) st = (st', Ret l) ∧
               placed a st' ∧ caches st' = caches st ∧ records st' = records st ∧
               log st' = log st) ∧
  (∀ v i, as_integral v = Some i →
     ∃ st', RecordList_insert client l index (PVal v) st = (st', Ret l) ∧
            placed (length (records st)) st' ∧
            records st' !! length (records st) =
              Some (new_record (rl_object lo) (length (caches st)) i) ∧
            caches st !! length (caches st) = None ∧
            row_of st' (length (caches st)) (rl_object lo) i = Some ∅ ∧
            (∀ c, (c < length (caches st))%nat → caches st' !! c = caches st !! c) ∧
            log st' = log st) ∧
  (∀ v, as_integral v = None →
     RecordList_insert client l index (PVal v) st =
       (st, Raise (AssertionError "Only Record or int instances could be added to list"))) ∧
  (∀ a, RecordList_insert client l index (PList a) st =
          (st, Raise (AssertionError "Only Record or int instances could be added to list")) ∧
        RecordList_insert client l index (PCache a) st =
          (st, Raise (AssertionError "Only Record or int instances could be added to list"))).
Proof.
  intros Hl placed. assert (Hlt : (l < length (lists st))%nat) by (by eapply lookup_lt_Some).
  split; [|split; [|split]].
  - intros a. eexists. unfold RecordList_insert.
    rewrite (bind_ret _ _ _ _ _ (set_list_records_run _ _ _ _ Hl)).
    split; [reflexivity|]. unfold placed. simpl.
    split; [by apply list_lookup_insert_eq|]. done.
  - intros v i Hv. eexists. unfold RecordList_insert. rewrite Hv.
    rewrite (bind_ret _ _ _ _ _ (get_list_run _ _ _ Hl)).
    unfold read_records_id.
    rewrite (bind_ret _ _ _ _ _ (bind_ret _ _ _ _ _ (get_record_fresh_run _ i None st))).
    simpl. rewrite bind_run. simpl.
    match goal with |- context [set_list_records l ?f ?s] =>
      assert (Hl' : lists s !! l = Some lo) by exact Hl;
      rewrite (set_list_records_run s l lo f Hl') end.
    split; [reflexivity|]. unfold placed. simpl.
    split; [by apply list_lookup_insert_eq|].
    split; [apply list_lookup_middle; reflexivity|].
    split; [apply lookup_ge_None_2; lia|]. split; [|split; [|reflexivity]].
    + unfold row_of, bucket_of, get_bucket. simpl.
      rewrite list_lookup_insert_eq by (rewrite length_app; simpl; lia).
      simpl. rewrite lookup_insert_eq. simpl. unfold register. simpl.
      rewrite lookup_empty. simpl. apply lookup_insert_eq.
    + intros c Hc. rewrite list_lookup_insert_ne by lia. by rewrite lookup_app_l.
  - intros v Hv. unfold RecordList_insert. rewrite Hv. reflexivity.
  - intros a. split; reflexivity.
Qed.

(** ** Frame reasoning for field access with reads *)

Section FrameFull.
Variable client : Client.
Variable R : relation state.
Context `{!PreOrder R}.

Hypothesis R_alloc_cache : ∀ st, R st (set_caches (λ cs, cs ++ [∅]) st).
Hypothesis R_put : ∀ st c obj b, R st (put_bucket c obj b st).
Hypothesis R_alloc_record : ∀ st ro, R st (set_records (λ rs, rs ++ [ro]) st).
Hypothesis R_related : ∀ st r ro g,
  records st !! r = Some ro →
  R st (set_records (λ rs, <[r := {| rec_object := rec_object ro; rec_cache := rec_cache ro;
                                    rec_id := rec_id ro;
                                    rec_related_objects := g |}]> rs) st).
Hypothesis R_alloc_list : ∀ st lo, R st (set_lists (λ ls, ls ++ [lo]) st).
Hypothesis R_log : ∀ st f, R st (set_log f st).

Lemma pres_update_lcache_any c obj f st : pres R (update_lcache c obj f) st.
Proof.
  unfold pres.
  destruct (decide (c < length (caches st))%nat) as [Hlt|Hge].
  - rewrite update_lcache_run by done. simpl. apply R_put.
  - rewrite update_lcache_bad by lia. simpl. reflexivity.
Qed.

Lemma pres_object_read obj ids fields ctx st :
  pres R (object_read client obj ids fields ctx) st.
Proof.
  unfold object_read. apply pres_bind; [apply _|apply pres_get_state; apply _|].
  intros s st1 _. apply pres_bind; [apply _|apply R_log|].
  intros _ st2 _. apply pres_lift_option; apply _.
Qed.

Lemma pres_resolve_full r ftype name st : pres R (resolve_field client r ftype name) st.
Proof. apply pres_resolve; auto. Qed.

Lemma pres_Record_get_field r ftype name st :
  pres R (Record_get_field client r ftype name) st.
Proof.
  unfold Record_get_field. apply pres_bind; [apply _|apply pres_get_rec; apply _|].
  intros ro st1 _. apply pres_bind; [apply _|apply pres_Record_data; auto|].
  intros d st2 _. apply pres_bind; [apply _| |intros; apply pres_resolve_full].
  destruct (d !! name); [apply pres_ret; apply _|].
  apply pres_bind; [apply _|apply pres_lcache; apply _|].
  intros b st3 _. apply pres_bind; [apply _|apply pres_Record_context; apply _|].
  intros ctx st4 _. apply pres_bind; [apply _|apply pres_object_read|].
  intros rows st5 _. apply pres_for_each; [apply _|]. intros data s.
  apply pres_bind; [apply _|apply pres_lift_option; apply _|].
  intros v s' _. apply pres_update_lcache_any.
Qed.

Lemma pres_Record_getitem r name st : pres R (Record_getitem client r name) st.
Proof.
  unfold Record_getitem. destruct (String.eqb name "id").
  { apply pres_bind; [apply _|apply pres_Record_id; apply _|].
    intros; apply pres_ret; apply _. }
  apply pres_bind; [apply _|apply pres_get_rec; apply _|].
  intros ro st1 _. destruct (columns_info client (rec_object ro) !! name).
  - apply pres_Record_get_field.
  - apply pres_bind; [apply _|apply pres_Record_id; apply _|].
    intros; apply pres_raise; apply _.
Qed.

Lemma pres_py_truthy v st : pres R (py_truthy v) st.
Proof.
  destruct v; simpl; try (apply pres_ret; apply _).
  - apply pres_bind; [apply _|apply pres_get_list; apply _|].
    intros; apply pres_ret; apply _.
  - apply pres_bind; [apply _|apply pres_get_cache; apply _|].
    intros; apply pres_ret; apply _.
Qed.

Lemma pres_walk_fields fields val st : pres R (walk_fields client fields val) st.
Proof.
  revert val st. induction fields as [|f fields IH]; intros val st; simpl.
  - apply pres_ret; apply _.
  - apply pres_bind; [apply _|apply pres_py_truthy|].
    intros t st1 _. destruct t; [|apply pres_ret; apply _].
    apply pres_bind; [apply _| |intros; apply IH].
    destruct val; simpl; try (apply pres_raise; apply _). apply pres_Record_getitem.
Qed.

Lemma pres_mapped_get_field field r st : pres R (mapped_get_field client field r) st.
Proof. apply pres_walk_fields. Qed.

End FrameFull.

Section FrameList.
Variable client : Client.
Variable R : relation state.
Context `{!PreOrder R}.

Hypothesis R_alloc_cache : ∀ st, R st (set_caches (λ cs, cs ++ [∅]) st).
Hypothesis R_put : ∀ st c obj b, R st (put_bucket c obj b st).
Hypothesis R_alloc_record : ∀ st ro, R st (set_records (λ rs, rs ++ [ro]) st).
Hypothesis R_lists : ∀ st g, R st (set_lists g st).
Hypothesis R_log : ∀ st f, R st (set_log f st).

Lemma pres_list_get_record obj rid cache ctx st :
  pres R (get_record obj rid cache ctx) st.
Proof.
  unfold get_record. destruct (as_integral rid) as [i|]; [|apply pres_raise; apply _].
  apply pres_bind; [apply _| |].
  { destruct cache; [apply pres_ret; apply _|]. unfold pres. simpl. apply R_alloc_cache. }
  intros c st1 _. apply pres_bind; [apply _|by apply pres_update_lcache_any|].
  intros _ st2 _. apply pres_bind; [apply _| |].
  { destruct ctx; [by apply pres_update_lcache_any|apply pres_ret; apply _]. }
  intros _ st3 _. apply pres_bind; [apply _|apply pres_get_state; apply _|].
  intros s st4 _. apply pres_bind; [apply _| |intros; apply pres_ret; apply _].
  unfold pres. simpl. apply R_alloc_record.
Qed.

Lemma pres_RecordList_insert l index item st :
  pres R (RecordList_insert client l index item) st.
Proof.
  assert (Hset : ∀ f s, pres R (set_list_records l f) s).
  { intros f s. unfold set_list_records.
    apply pres_bind; [apply _|apply pres_get_list; apply _|].
    intros lo s' _. unfold pres. simpl. apply R_lists. }
  unfold RecordList_insert. destruct item as [v|a|a|a]; try (apply pres_raise; apply _).
  - destruct (as_integral v); [|apply pres_raise; apply _].
    apply pres_bind; [apply _|apply pres_get_list; apply _|].
    intros lo st1 _. apply pres_bind; [apply _| |].
    { unfold read_records_id. apply pres_bind; [apply _|apply pres_list_get_record|].
      intros r st2 _. apply pres_bind; [apply _|apply pres_ret; apply _|].
      intros; apply pres_ret; apply _. }
    intros r st2 _. apply pres_bind; [apply _|apply Hset|].
    intros; apply pres_ret; apply _.
  - apply pres_bind; [apply _|apply Hset|]. intros; apply pres_ret; apply _.
Qed.

Lemma pres_RecordList_append l item st :
  pres R (RecordList_append client l item) st.
Proof.
  unfold RecordList_append. apply pres_bind; [apply _|apply pres_get_list; apply _|].
  intros lo st1 _. apply pres_bind; [apply _|apply pres_RecordList_insert|].
  intros; apply pres_ret; apply _.
Qed.

Lemma pres_any_m {A} (p : A → M bool) l st :
  (∀ x s, pres R (p x) s) → pres R (any_m p l) st.
Proof.
  intros Hp. revert st. induction l as [|x l IH]; intros st; simpl.
  - apply pres_ret; apply _.
  - apply pres_bind; [apply _|apply Hp|].
    intros b st1 _. destruct b; [apply pres_ret; apply _|apply IH].
Qed.

Lemma pres_py_eqb x y st : pres R (py_eqb x y) st.
Proof.
  destruct x, y; simpl; try (apply pres_ret; apply _);
    repeat (apply pres_bind; [apply _|apply pres_get_rec; apply _|]; intros);
    apply pres_ret; apply _.
Qed.

Lemma pres_RecordList_contains l item st :
  pres R (RecordList_contains l item) st.
Proof.
  unfold RecordList_contains. destruct item as [v|a|a|a]; try (apply pres_ret; apply _).
  - destruct (as_integral v); [|apply pres_ret; apply _].
    apply pres_bind; [apply _| |intros; apply pres_ret; apply _].
    unfold RecordList_ids. apply pres_bind; [apply _|apply pres_get_list; apply _|].
    intros lo st1 _. apply pres_list_comp; [apply _|].
    intros; apply pres_Record_id; apply _.
  - apply pres_bind; [apply _|apply pres_get_list; apply _|].
    intros lo st1 _. apply pres_bind; [apply _|apply pres_get_rec; apply _|].
    intros ro st2 _. apply pres_bind; [apply _| |intros; apply pres_ret; apply _].
    apply pres_list_comp; [apply _|]. intros; apply pres_get_rec; apply _.
Qed.

Lemma pres_mapped_add res val st : pres R (mapped_add client res val) st.
Proof.
  assert (Hrest : ∀ s, pres R (c ← res_contains res val;
                              if (c : bool) then mret res else res_append client res val) s).
  { intros s. apply pres_bind; [apply _| |].
    - destruct res; simpl; [apply pres_RecordList_contains|].
      apply pres_any_m. intros; apply pres_py_eqb.
    - intros c s1 _. destruct c; [apply pres_ret; apply _|].
      destruct res; simpl; [|apply pres_ret; apply _].
      apply pres_bind; [apply _|apply pres_RecordList_append|].
      intros; apply pres_ret; apply _. }
  unfold mapped_add. apply pres_bind; [apply _|by apply pres_py_truthy|].
  intros t st1 _. destruct t; simpl; [|apply pres_ret; apply _].
  destruct val as [v|a|a|a]; try apply Hrest.
  apply pres_bind; [apply _|apply pres_get_list; apply _|].
  intros lo st2 _. destruct res; simpl; [|apply pres_ret; apply _].
  apply pres_bind; [apply _| |intros; apply pres_ret; apply _].
  apply pres_for_each; [apply _|]. intros; apply pres_RecordList_append.
Qed.

Hypothesis R_related : ∀ st r ro g,
  records st !! r = Some ro →
  R st (set_records (λ rs, <[r := {| rec_object := rec_object ro; rec_cache := rec_cache ro;
                                    rec_id := rec_id ro;
                                    rec_related_objects := g |}]> rs) st).

Lemma pres_mapped_step_traced field acc r st :
  pres R (mapped_step_traced client field acc r) st.
Proof.
  unfold mapped_step_traced. apply pres_bind; [apply _| |].
  { apply pres_mapped_get_field; auto. }
  intros val st1 _. apply pres_bind; [apply _|apply pres_mapped_add|].
  intros; apply pres_ret; apply _.
Qed.

Lemma pres_fold_traced field acc recs st :
  pres R (fold_m (mapped_step_traced client field) acc recs) st.
Proof.
  revert acc st. induction recs as [|r recs IH]; intros acc st; simpl.
  - apply pres_ret; apply _.
  - apply pres_bind; [apply _|apply pres_mapped_step_traced|]. intros; apply IH.
Qed.

End FrameList.

(** ** mapped *)

Global Instance stable_preorder : PreOrder stable.
Proof.
  split.
  - intros st a ro H. eauto.
  - intros s1 s2 s3 H1 H2 a ro H.
    destruct (H1 a ro H) as (ro' & H' & E').
    destruct (H2 a ro' H') as (ro'' & H'' & E''). exists ro''. split; [done|congruence].
Qed.

Global Instance lists_kept_preorder : PreOrder lists_kept.
Proof. split; [intros st l lo H; done|intros s1 s2 s3 H1 H2 l lo H; eauto]. Qed.

Global Instance heap_kept_preorder : PreOrder heap_kept.
Proof.
  split; [intros st; split; reflexivity|].
  intros s1 s2 s3 [H1 H2] [H3 H4]. split; etrans; eauto.
Qed.

Lemma stable_same_records st st' : records st' = records st → stable st st'.
Proof. intros E a ro H. rewrite E. eauto. Qed.

Lemma stable_alloc_record st ro : stable st (set_records (λ rs, rs ++ [ro]) st).
Proof. intros a ro' H. simpl. exists ro'. split; [by apply lookup_app_l_Some|done]. Qed.

Lemma stable_related st r ro g :
  records st !! r = Some ro →
  stable st (set_records (λ rs, <[r := {| rec_object := rec_object ro; rec_cache := rec_cache ro;
                                         rec_id := rec_id ro;
                                         rec_related_objects := g |}]> rs) st).
Proof.
  intros Hr a ro' H. simpl. destruct (decide (a = r)) as [->|Hne].
  - eexists. split; [apply list_lookup_insert_eq; by eapply lookup_lt_Some|].
    simpl. congruence.
  - exists ro'. by rewrite list_lookup_insert_ne.
Qed.

Lemma stable_fold_traced client field acc recs st :
  pres stable (fold_m (mapped_step_traced client field) acc recs) st.
Proof.
  apply pres_fold_traced; try apply _; intros;
    try (apply stable_same_records; reflexivity).
  - apply stable_alloc_record.
  - by apply stable_related.
Qed.

Lemma stable_mapped_add client res val st : pres stable (mapped_add client res val) st.
Proof.
  apply pres_mapped_add; try apply _; intros;
    try (apply stable_same_records; reflexivity).
  apply stable_alloc_record.
Qed.

Lemma heap_kept_get_field client field r st :
  pres heap_kept (mapped_get_field client field r) st.
Proof.
  apply pres_mapped_get_field; try apply _; intros.
  - split; [by apply stable_same_records|by intros ??].
  - split; [by apply stable_same_records|by intros ??].
  - split; [apply stable_alloc_record|by intros ??].
  - split; [by apply stable_related|by intros ??].
  - split; [by apply stable_same_records|]. intros l' lo' H. simpl.
    by apply lookup_app_l_Some.
  - split; [by apply stable_same_records|by intros ??].
Qed.

Lemma bind_inv {A B} (m : M A) (f : A → M B) st st' b :
  (m ≫= f) st = (st', Ret b) →
  ∃ a s, m st = (s, Ret a) ∧ f a s = (st', Ret b).
Proof.
  rewrite bind_run. destruct (m st) as [s [a|e]]; [eauto|discriminate].
Qed.

Lemma ret_inv {A} (a b : A) st st' :
  (mret a : M A) st = (st', Ret b) → st' = st ∧ b = a.
Proof. intros H. injection H as <- <-. done. Qed.

(** The trace forgets nothing: [mapped] returns what [mapped_trace] does. *)
Lemma fold_traced_erase client field recs res seen st st' res' vals :
  fold_m (mapped_step_traced client field) (res, seen) recs st = (st', Ret (res', vals)) →
  fold_m (mapped_step client field) res recs st = (st', Ret res') ∧
  ∃ new, vals = seen ++ new ∧ length new = length recs.
Proof.
  revert res seen st. induction recs as [|r recs IH]; intros res seen st H; simpl in *.
  - apply ret_inv in H as [-> H]. injection H as -> ->.
    split; [done|]. exists []. by rewrite app_nil_r.
  - apply bind_inv in H as ([res1 seen1] & s1 & Hstep & Hrest).
    unfold mapped_step_traced in Hstep. simpl in Hstep.
    apply bind_inv in Hstep as (val & s0 & Hval & Hstep).
    apply bind_inv in Hstep as (res1' & s0' & Hadd & Hret).
    apply ret_inv in Hret as [-> Hret]. injection Hret as -> ->.
    destruct (IH _ _ _ Hrest) as (Hfold & new & -> & Hlen).
    split.
    + assert (Hs : mapped_step client field res r st = (s0', Ret res1')).
      { unfold mapped_step. rewrite (bind_ret _ _ _ _ _ Hval). exact Hadd. }
      rewrite (bind_ret _ _ _ _ _ Hs). exact Hfold.
    + exists (val :: new). rewrite <- app_assoc. simpl. by rewrite Hlen.
Qed.

Lemma any_m_raw x raws st :
  any_m (λ e, py_eqb e (PVal x)) (PVal <$> raws) st =
    (st, Ret (existsb (λ e, value_eqb e x) raws)).
Proof.
  induction raws as [|e raws IH]; simpl; [reflexivity|].
  rewrite bind_run. simpl. destruct (value_eqb e x); [reflexivity|exact IH].
Qed.

Lemma mapped_add_plain client raws x st :
  mapped_add client (MList (PVal <$> raws)) (PVal x) st =
    (st, Ret (MList (PVal <$>
       (if truthy x then
          if existsb (λ e, value_eqb e x) raws then raws else raws ++ [x]
        else raws)))).
Proof.
  unfold mapped_add. rewrite bind_run. simpl.
  destruct (truthy x); simpl; [|reflexivity].
  rewrite bind_run. rewrite any_m_raw.
  destruct (existsb _ raws); simpl; [reflexivity|].
  by rewrite fmap_app.
Qed.

(** The loop of [mapped] over a plain result, when every member yields a
    raw value. *)
Lemma fold_traced_plain client field recs raws seen new st st' res :
  fold_m (mapped_step_traced client field) (MList (PVal <$> raws), seen) recs st =
    (st', Ret (res, seen ++ new)) →
  Forall (λ v, ∃ x, v = PVal x) new →
  res = MList (PVal <$> keep_from value_eqb raws (truthy_values new)).
Proof.
  revert raws seen new st. induction recs as [|r recs IH]; intros raws seen new st H Hraw.
  - simpl in H. apply ret_inv in H as [-> H]. injection H as -> E.
    assert (new = []) as -> by (apply (app_inv_head seen); by rewrite app_nil_r).
    reflexivity.
  - simpl in H. apply bind_inv in H as ([res1 seen1] & s1 & Hstep & Hrest).
    unfold mapped_step_traced in Hstep. simpl in Hstep.
    apply bind_inv in Hstep as (val & s0 & Hval & Hstep).
    apply bind_inv in Hstep as (res1' & s0' & Hadd & Hret).
    apply ret_inv in Hret as [-> Hret]. injection Hret as -> ->.
    destruct (fold_traced_erase _ _ _ _ _ _ _ _ _ Hrest) as (_ & new' & E & _).
    rewrite <- app_assoc in E. apply app_inv_head in E. simpl in E. subst new.
    apply Forall_cons in Hraw as [[x ->] Hraw].
    rewrite mapped_add_plain in Hadd. injection Hadd as <- <-.
    replace (seen ++ PVal x :: new') with ((seen ++ [PVal x]) ++ new') in Hrest
      by (by rewrite <- app_assoc).
    rewrite (IH _ _ _ _ Hrest Hraw). unfold truthy_values. simpl.
    destruct (truthy x); reflexivity.
Qed.

Lemma get_rec_inv r st st' ro :
  get_rec r st = (st', Ret ro) → st' = st ∧ records st !! r = Some ro.
Proof.
  unfold get_rec. rewrite bind_run. simpl.
  destruct (records st !! r); simpl; intros H; [|discriminate H].
  by injection H as <- <-.
Qed.

Lemma list_comp_get_rec_inv l st st' others :
  list_comp get_rec l st = (st', Ret others) →
  st' = st ∧ Forall2 (λ a ro, records st !! a = Some ro) l others.
Proof.
  revert others st'. induction l as [|a l IH]; intros others st' H; simpl in H.
  - apply ret_inv in H as [-> ->]. split; [done|constructor].
  - apply bind_inv in H as (ro & s & Ha & H). apply get_rec_inv in Ha as [-> Ha].
    apply bind_inv in H as (ros & s & Hl & H). apply IH in Hl as [-> Hl].
    apply ret_inv in H as [-> ->]. split; [done|by constructor].
Qed.

Lemma py_insert_end {A} (x : A) (l : list A) :
  py_insert (Z.of_nat (length l)) x l = l ++ [x].
Proof.
  unfold py_insert. destruct (Z.ltb_spec (Z.of_nat (length l)) 0); [lia|].
  rewrite Z.min_id, Nat2Z.id. rewrite take_ge, drop_ge by lia. reflexivity.
Qed.

(** One record offered to the record list that [mapped] is building. *)
Lemma mapped_add_record client lres m c acc a st st' res :
  lists st !! lres = Some {| rl_object := m; rl_cache := c; rl_records := acc |} →
  mapped_add client (MRecordList lres) (PRec a) st = (st', Ret res) →
  res = MRecordList lres ∧
  ∃ ro others,
    records st !! a = Some ro ∧
    Forall2 (λ e eo, records st !! e = Some eo) acc others ∧
    lists st' !! lres =
      Some {| rl_object := m; rl_cache := c;
              rl_records := if existsb (λ other, Record_eq other ro) others
                            then acc else acc ++ [a] |}.
Proof.
  intros Hl H. unfold mapped_add in H. rewrite bind_run in H. simpl in H.
  apply bind_inv in H as (b & s & Hc & H).
  unfold RecordList_contains in Hc.
  rewrite (bind_ret _ _ _ _ _ (get_list_run _ _ _ Hl)) in Hc. simpl in Hc.
  apply bind_inv in Hc as (ro & s1 & Hro & Hc). apply get_rec_inv in Hro as [-> Hro].
  apply bind_inv in Hc as (others & s1 & Ho & Hc).
  apply list_comp_get_rec_inv in Ho as [-> Ho].
  apply ret_inv in Hc as [-> ->].
  destruct (existsb _ others) eqn:Eex.
  - apply ret_inv in H as [-> ->]. split; [done|]. exists ro, others. by rewrite Eex.
  - simpl in H. apply bind_inv in H as ([] & s2 & Happ & H).
    apply ret_inv in H as [-> ->]. split; [done|]. exists ro, others. rewrite Eex.
    split; [done|]. split; [done|].
    unfold RecordList_append in Happ.
    rewrite (bind_ret _ _ _ _ _ (get_list_run _ _ _ Hl)) in Happ. simpl in Happ.
    unfold RecordList_insert in Happ.
    rewrite (bind_ret _ _ _ _ _ (bind_ret _ _ _ _ _ (set_list_records_run _ _ _ _ Hl))) in Happ.
    simpl in Happ. injection Happ as <-. simpl.
    rewrite py_insert_end. apply list_lookup_insert_eq. by eapply lookup_lt_Some.
Qed.

Lemma id_of_stable st st' a ro :
  stable st st' → records st !! a = Some ro → id_of st' a = rec_id ro.
Proof.
  intros Hs Ha. destruct (Hs a ro Ha) as (ro' & Ha' & E).
  unfold id_of. rewrite Ha'. simpl. exact E.
Qed.

(** The loop of [mapped] over a record-list result, when every member
    yields a record or a falsy raw value. *)
Lemma fold_traced_records client field recs lres m c acc seen new st st' res :
  fold_m (mapped_step_traced client field) (MRecordList lres, seen) recs st =
    (st', Ret (res, seen ++ new)) →
  lists st !! lres = Some {| rl_object := m; rl_cache := c; rl_records := acc |} →
  Forall (λ v, (∃ a, v = PRec a) ∨ (∃ x, v = PVal x ∧ truthy x = false)) new →
  res = MRecordList lres ∧
  lists st' !! lres =
    Some {| rl_object := m; rl_cache := c;
            rl_records := keep_from (λ e a, id_of st' a =? id_of st' e) acc
                                    (record_values new) |}.
Proof.
  revert acc seen new st.
  induction recs as [|r recs IH]; intros acc seen new st H Hl Hvals.
  - simpl in H. apply ret_inv in H as [-> H]. injection H as -> E.
    assert (new = []) as -> by (apply (app_inv_head seen); by rewrite app_nil_r).
    split; [done|exact Hl].
  - simpl in H. apply bind_inv in H as ([res1 seen1] & s1 & Hstep & Hrest).
    unfold mapped_step_traced in Hstep. simpl in Hstep.
    apply bind_inv in Hstep as (val & s0 & Hval & Hstep).
    apply bind_inv in Hstep as (res1' & s0' & Hadd & Hret).
    apply ret_inv in Hret as [-> Hret]. injection Hret as -> ->.
    destruct (fold_traced_erase _ _ _ _ _ _ _ _ _ Hrest) as (_ & new' & E & _).
    rewrite <- app_assoc in E. apply app_inv_head in E. simpl in E. subst new.
    apply Forall_cons in Hvals as [Hval1 Hvals].
    replace (seen ++ val :: new') with ((seen ++ [val]) ++ new') in Hrest
      by (by rewrite <- app_assoc).
    pose proof (heap_kept_get_field client field r st) as [_ Hkept].
    rewrite Hval in Hkept. simpl in Hkept. apply Hkept in Hl.
    pose proof (stable_fold_traced client field (res1', seen ++ [val]) recs s0') as Hst.
    unfold pres in Hst. rewrite Hrest in Hst. simpl in Hst.
    destruct Hval1 as [[a ->]|(x & -> & Hx)].
    + destruct (mapped_add_record _ _ _ _ _ _ _ _ _ Hl Hadd)
        as (-> & ro & others & Ha & Hothers & Hl').
      destruct (IH _ _ _ _ Hrest Hl' Hvals) as [-> Hfinal].
      split; [done|]. rewrite Hfinal. simpl. do 3 f_equal.
      pose proof (stable_mapped_add client (MRecordList lres) (PRec a) s0) as Hst0.
      unfold pres in Hst0. rewrite Hadd in Hst0. simpl in Hst0.
      assert (Hst' : stable s0 st') by (etrans; eauto).
      rewrite (id_of_stable _ _ _ _ Hst' Ha).
      assert (Hex : existsb (λ other, Record_eq other ro) others =
                    existsb (λ e, rec_id ro =? id_of st' e) acc).
      { clear -Hothers Hst'. induction Hothers as [|e eo acc others He _ IH']; simpl; [done|].
        rewrite IH'. rewrite (id_of_stable _ _ _ _ Hst' He). reflexivity. }
      rewrite Hex. reflexivity.
    + unfold mapped_add in Hadd. rewrite bind_run in Hadd. simpl in Hadd.
      rewrite Hx in Hadd. simpl in Hadd. injection Hadd as <- <-.
      exact (IH _ _ _ _ Hrest Hl Hvals).
Qed.

Lemma get_list_inv l st st' lo :
  get_list l st = (st', Ret lo) → st' = st ∧ lists st !! l = Some lo.
Proof.
  unfold get_list. rewrite bind_run. simpl.
  destruct (lists st !! l); simpl; intros H; [|discriminate H].
  by injection H as <- <-.
Qed.

Lemma lcache_inv c obj st st' b :
  lcache c obj st = (st', Ret b) →
  st' = st ∧ (c < length (caches st))%nat ∧ b = bucket_of st c obj.
Proof.
  unfold lcache, get_cache. rewrite !bind_run. simpl.
  destruct (caches st !! c) as [ca|] eqn:E; simpl; intros H; [|discriminate H].
  injection H as <- <-. split; [done|]. split; [by eapply lookup_lt_Some|].
  unfold bucket_of. by rewrite E.
Qed.

Lemma walk_fields_falsy client fs v st :
  truthy v = false → walk_fields client fs (PVal v) st = (st, Ret (PVal v)).
Proof.
  intros Hv. destruct fs as [|f fs]; simpl; [reflexivity|].
  rewrite bind_run. simpl. rewrite Hv. reflexivity.
Qed.

(** What "choose type of result" leaves behind when it returns. *)
Lemma mapped_choose_result_inv client l lo field path m f rel st st' res :
  lists st !! l = Some lo →
  resolve_field_path client (rl_object lo) field = Ret path →
  last path = Some (m, f, rel) →
  mapped_choose_result client l field st = (st', Ret res) →
  lists st' !! l = Some lo ∧
  ((rel = None ∨ rel = Some "") ∧ st' = st ∧ res = MList []
   ∨ ∃ mm, rel = Some mm ∧ mm ≠ "" ∧ res = MRecordList (length (lists st)) ∧
           lists st' !! length (lists st) =
             Some {| rl_object := mm; rl_cache := rl_cache lo; rl_records := [] |}).
Proof.
  intros Hl Hpath Hlast H. unfold mapped_choose_result in H.
  rewrite (bind_ret _ _ _ _ _ (get_list_run _ _ _ Hl)) in H.
  rewrite bind_run in H. rewrite Hpath in H. rewrite Hlast in H. simpl in H.
  rewrite bind_run in H. simpl in H.
  destruct rel as [mm|].
  - destruct (String.eqb_spec mm "") as [->|Hmm].
    + apply ret_inv in H as [-> ->]. split; [done|]. left. auto.
    + apply bind_inv in H as (res_obj & s1 & Hobj & H).
      unfold client_getitem in Hobj.
      destruct (registered_objects client mm); [|discriminate Hobj].
      apply ret_inv in Hobj as [-> ->].
      apply bind_inv in H as (ctx & s1 & Hctx & H).
      unfold RecordList_context in Hctx.
      rewrite (bind_ret _ _ _ _ _ (get_list_run _ _ _ Hl)) in Hctx.
      apply bind_inv in Hctx as (b & s2 & Hb & Hctx).
      apply lcache_inv in Hb as (-> & Hc & ->). apply ret_inv in Hctx as [-> ->].
      rewrite (bind_ret _ _ _ _ _ (get_record_list_run client mm [] None _ _ st Hc)) in H.
      apply ret_inv in H as [-> ->]. simpl.
      split; [by apply lookup_app_l_Some|]. right. exists mm.
      split; [done|]. split; [done|]. split; [done|].
      by apply list_lookup_middle.
  - apply ret_inv in H as [-> ->]. split; [done|]. left. auto.
Qed.

(** C4, as the code has it.  Let [vals] be the values that walking the path
    yields for the members, in member order ([mapped_trace] returns them
    next to the result of [mapped]).  When the last field of the path is
    not relational and the values are raw, [mapped] returns a plain list of
    the truthy ones, in member order, each value once (first occurrence).
    When the last field is relational and the values are records or falsy,
    it returns a new record list on the collection of the relation and on
    the cache store of the source list, holding the records in member
    order, one per row id (first occurrence).  A falsy value met along the
    path ends the walk without an error, and contributes nothing. *)
Theorem RecordList_mapped_spec (client : Client) (st st' : state) (l : addr)
    (lo : RecordListObj) (field : string) (path : list (string * string * option string))
    (m f : string) (rel : option string) (res : mapped_result) (vals : list pyval) :
  lists st !! l = Some lo →
  resolve_field_path client (rl_object lo) field = Ret path →
  last path = Some (m, f, rel) →
  mapped_trace client l field st = (st', Ret (res, vals)) →
  RecordList_mapped client l field st = (st', Ret res) ∧
  length vals = length (rl_records lo) ∧
  (rel = None ∨ rel = Some "" →
   Forall (λ v, ∃ x, v = PVal x) vals →
   res = MList (PVal <$> keep_first value_eqb (truthy_values vals))) ∧
  (∀ mm, rel = Some mm → mm ≠ "" →
   Forall (λ v, (∃ a, v = PRec a) ∨ (∃ x, v = PVal x ∧ truthy x = false)) vals →
   res = MRecordList (length (lists st)) ∧
   lists st !! length (lists st) = None ∧
   lists st' !! length (lists st) =
     Some {| rl_object := mm; rl_cache := rl_cache lo;
             rl_records := keep_first (λ e a, id_of st' a =? id_of st' e)
                                      (record_values vals) |}) ∧
  (∀ fs v s, truthy v = false → walk_fields client fs (PVal v) s = (s, Ret (PVal v))).
Proof.
  intros Hl Hpath Hlast Htrace.
  unfold mapped_trace in Htrace.
  apply bind_inv in Htrace as (res0 & s1 & Hchoose & Htrace).
  apply bind_inv in Htrace as (lo1 & s1' & Hl1 & Hfold).
  apply get_list_inv in Hl1 as [-> Hl1].
  destruct (mapped_choose_result_inv _ _ _ _ _ _ _ _ _ _ _ Hl Hpath Hlast Hchoose)
    as [Hl1' Hcases].
  assert (lo1 = lo) as -> by congruence.
  destruct (fold_traced_erase _ _ _ _ _ _ _ _ _ Hfold) as (Hmapped & new & E & Hlen).
  simpl in E. subst new.
  split.
  { unfold RecordList_mapped. rewrite (bind_ret _ _ _ _ _ Hchoose).
    rewrite (bind_ret _ _ _ _ _ (get_list_run _ _ _ Hl1)). exact Hmapped. }
  split; [exact Hlen|]. split; [|split].
  - intros Hrel Hraw. destruct Hcases as [(_ & -> & ->)|(mm & -> & Hmm & _)].
    + exact (fold_traced_plain client field _ [] [] vals _ _ _ Hfold Hraw).
    + destruct Hrel as [Hrel|Hrel]; [discriminate Hrel|]. congruence.
  - intros mm -> Hmm Hvals.
    destruct Hcases as [([Hrel|Hrel] & _)|(mm' & Hrel & _ & -> & Hnew)];
      [discriminate Hrel|congruence|].
    injection Hrel as <-.
    destruct (fold_traced_records client field _ _ _ _ [] [] vals _ _ _ Hfold Hnew Hvals)
      as [-> Hfinal].
    split; [done|]. split; [apply lookup_ge_None_2; lia|]. exact Hfinal.
  - intros fs v s Hv. by apply walk_fields_falsy.
Qed.

(** ** refresh *)

Global Instance only_resets_preorder : PreOrder only_resets.
Proof.
  split.
  - intros st. repeat split; eauto. intros a ro H. exists ro. eauto 10.
  - intros s1 s2 s3 (L1 & G1 & C1 & N1 & R1 & W1) (L2 & G2 & C2 & N2 & R2 & W2).
    repeat split; try congruence.
    + intros a ro H. destruct (R1 a ro H) as (ro' & H' & O' & K' & I' & M').
      destruct (R2 a ro' H') as (ro'' & H'' & O'' & K'' & I'' & M'').
      exists ro''. repeat split; try congruence.
      destruct M'' as [M''|M'']; [|by right]. rewrite M''. exact M'.
    + intros c obj i. destruct (W2 c obj i) as [E|E]; [|by right].
      rewrite E. apply W1.
Qed.

Lemma clean_only_resets st st' a : only_resets st st' → clean st a → clean st' a.
Proof.
  intros (_ & _ & _ & _ & R & W) (ro & Ha & Hm & Hrow).
  destruct (R a ro Ha) as (ro' & Ha' & O & K & I & M).
  exists ro'. split; [done|]. split.
  - destruct M as [M|M]; congruence.
  - rewrite O, K, I. destruct (W (rec_cache ro) (rec_object ro) (rec_id ro)) as [E|E];
      [by rewrite E|exact E].
Qed.

Lemma closed_only_resets st st' : only_resets st st' → closed st → closed st'.
Proof.
  intros (L & _ & C & N & R & _) [Hrec Hlist]. split.
  - apply Forall_lookup. intros a ro' Ha'.
    assert (Hlt : (a < length (records st))%nat).
    { rewrite <- N. by eapply lookup_lt_Some. }
    apply lookup_lt_is_Some_2 in Hlt as [ro Ha].
    destruct (R a ro Ha) as (ro'' & Ha'' & O & K & I & M).
    assert (ro'' = ro') as -> by congruence.
    rewrite Forall_lookup in Hrec. destruct (Hrec a ro Ha) as [Hc Hm].
    split; [rewrite K, C; exact Hc|].
    destruct M as [M|M]; rewrite M; [|apply map_Forall_empty].
    intros name t Ht. specialize (Hm name t Ht).
    destruct t; simpl in *; try done; [by rewrite N|by rewrite L].
  - rewrite L. eapply Forall_impl; [exact Hlist|]. intros lo Hlo.
    eapply Forall_impl; [exact Hlo|]. intros a Ha. simpl in Ha. by rewrite N.
Qed.

Lemma memo_count_only_resets st st' : only_resets st st' → (memo_count st' ≤ memo_count st)%nat.
Proof.
  intros (_ & _ & _ & N & R & _). unfold memo_count.
  assert (HF : Forall2 (λ ro ro', (size (rec_related_objects ro') ≤
                                   size (rec_related_objects ro))%nat)
                 (records st) (records st')).
  { apply Forall2_same_length_lookup_2; [done|]. intros a ro ro' Ha Ha'.
    destruct (R a ro Ha) as (ro'' & Ha'' & _ & _ & _ & M).
    assert (ro'' = ro') as -> by congruence.
    destruct M as [M|M]; rewrite M; [done|]. rewrite map_size_empty. lia. }
  clear N R. revert HF. generalize (records st) (records st'). intros l l' HF.
  induction HF as [|ro ro' l l' H _ IH]; simpl; lia.
Qed.

Lemma memo_count_forget rs r ro :
  rs !! r = Some ro →
  (sum_list_with (λ ro, size (rec_related_objects ro)) (<[r := forget ro]> rs) +
   size (rec_related_objects ro) =
   sum_list_with (λ ro, size (rec_related_objects ro)) rs)%nat.
Proof.
  revert r. induction rs as [|x rs IH]; intros r H; [done|].
  destruct r as [|r]; simpl in *.
  - injection H as ->. rewrite map_size_empty. lia.
  - specialize (IH r H). lia.
Qed.

Lemma put_bucket_reset_register c obj rid st :
  (c < length (caches st))%nat →
  row_of (put_bucket c obj (reset_row rid (register rid (bucket_of st c obj))) st) c obj rid =
    Some (reset_entry rid) ∧
  ∀ c' obj' i,
    row_of (put_bucket c obj (reset_row rid (register rid (bucket_of st c obj))) st) c' obj' i =
      row_of st c' obj' i ∨
    row_of (put_bucket c obj (reset_row rid (register rid (bucket_of st c obj))) st) c' obj' i =
      Some (reset_entry i).
Proof.
  intros Hc. unfold row_of. split.
  - rewrite put_bucket_same by done. simpl. apply lookup_insert_eq.
  - intros c' obj' i. rewrite bucket_of_put by done.
    case_decide as Hd; [|by left]. destruct Hd as [-> ->]. simpl.
    destruct (decide (i = rid)) as [->|Hne].
    + right. apply lookup_insert_eq.
    + left. rewrite lookup_insert_ne by done. unfold register.
      destruct (oc_rows (bucket_of st c obj) !! rid); [done|]. simpl.
      by rewrite lookup_insert_ne.
Qed.

(** The head of [Record.refresh]: the row is reset, the memo emptied and
    handed back. *)
Lemma Record_refresh_head_run st r ro :
  records st !! r = Some ro →
  (rec_cache ro < length (caches st))%nat →
  ∃ st1,
    Record_refresh_head r st = (st1, Ret (rec_related_objects ro)) ∧
    only_resets st st1 ∧ clean st1 r ∧
    records st1 = <[r := forget ro]> (records st) ∧
    (memo_count st1 + size (rec_related_objects ro) = memo_count st)%nat.
Proof.
  intros Hr Hc. eexists. unfold Record_refresh_head.
  rewrite (bind_ret _ _ _ _ _ (get_rec_run _ _ _ Hr)).
  rewrite (bind_ret _ _ _ _ _ (update_lcache_run _ _ _ _ Hc)).
  set (s1 := put_bucket _ _ _ st).
  assert (Hc1 : (rec_cache ro < length (caches s1))%nat) by (subst s1; by rewrite put_bucket_length).
  rewrite (bind_ret _ _ _ _ _ (update_lcache_run _ _ _ _ Hc1)).
  subst s1. rewrite put_bucket_same by done. rewrite put_bucket_put_bucket.
  set (s2 := put_bucket _ _ _ st).
  assert (Hr2 : records s2 !! r = Some ro) by exact Hr.
  unfold set_related. rewrite (bind_ret _ _ _ _ _ (bind_ret _ _ _ _ _ (get_rec_run _ _ _ Hr2))).
  simpl. split; [reflexivity|].
  destruct (put_bucket_reset_register (rec_cache ro) (rec_object ro) (rec_id ro) st Hc)
    as [Hreset Hrows].
  assert (Hlt : (r < length (records st))%nat) by (by eapply lookup_lt_Some).
  split; [|split; [|split]].
  - repeat split; simpl.
    + by rewrite length_insert.
    + by rewrite length_insert.
    + intros a ro' Ha. destruct (decide (a = r)) as [->|Hne].
      * rewrite list_lookup_insert_eq by done. eexists. split; [done|]. simpl.
        assert (ro' = ro) as -> by congruence. auto.
      * rewrite list_lookup_insert_ne by done. exists ro'. auto 10.
    + exact Hrows.
  - eexists. simpl. split; [by apply list_lookup_insert_eq|]. simpl. split; [done|].
    exact Hreset.
  - reflexivity.
  - unfold memo_count. simpl. by apply (memo_count_forget (records st)).
Qed.

Lemma for_each_fuel_inv {A} (body : A → state → option (state * outcome unit))
    (I : state → Prop) (Q : A → state → Prop) (l : list A) (st : state) :
  (∀ x s, x ∈ l → I s →
     ∃ s', body x s = Some (s', Ret tt) ∧ I s' ∧ only_resets s s' ∧ Q x s') →
  (∀ x s s', Q x s → only_resets s s' → Q x s') →
  I st →
  ∃ st', for_each_fuel body l st = Some (st', Ret tt) ∧ I st' ∧ only_resets st st' ∧
         ∀ x, x ∈ l → Q x st'.
Proof.
  intros Hbody Hkeep. revert st. induction l as [|x l IH]; intros st HI; simpl.
  - exists st. split; [done|]. split; [done|]. split; [reflexivity|].
    intros x Hx. by apply elem_of_nil in Hx.
  - destruct (Hbody x st) as (s1 & -> & HI1 & Hr1 & HQ1); [left|done|].
    destruct (IH (λ y s Hy, Hbody y s (list_elem_of_further _ _ _ Hy)) s1 HI1)
      as (st' & Hrun & HI' & Hr' & HQ').
    exists st'. split; [exact Hrun|]. split; [done|]. split; [by etrans|].
    intros y Hy. apply elem_of_cons in Hy as [->|Hy]; [|by apply HQ'].
    by eapply Hkeep.
Qed.

Lemma target_clean_only_resets st st' t :
  only_resets st st' → target_clean st t → target_clean st' t.
Proof.
  intros Hr. destruct t as [v|a|l|c]; simpl; try done.
  - by apply clean_only_resets.
  - intros H lo a Hl Ha. pose proof Hr as (L & _). rewrite L in Hl.
    eapply clean_only_resets; [exact Hr|]. by eapply H.
Qed.

Lemma closed_record st a ro :
  closed st → records st !! a = Some ro →
  (rec_cache ro < length (caches st))%nat ∧
  ∀ name t, rec_related_objects ro !! name = Some t → target_ok st t.
Proof.
  intros [Hrec _] Ha. rewrite Forall_lookup in Hrec. destruct (Hrec a ro Ha) as [Hc Hm].
  split; [done|]. intros name t Ht. exact (Hm name t Ht).
Qed.

Lemma closed_list st l lo a :
  closed st → lists st !! l = Some lo → a ∈ rl_records lo →
  (a < length (records st))%nat.
Proof.
  intros [_ Hlist] Hl Ha. rewrite Forall_lookup in Hlist.
  specialize (Hlist l lo Hl). rewrite Forall_forall in Hlist. by apply Hlist.
Qed.

(** Termination and effect of [refresh], for [Record] and [RecordList]
    together: fuel above twice the number of memoized targets is enough,
    only resets happen, and the traversal invariant is kept. *)
Lemma refresh_enough_fuel (st0 : state) (n : nat) :
  (∀ st r G,
     closed st → finished st0 G st → (r < length (records st))%nat →
     (2 * memo_count st + 1 ≤ n)%nat →
     ∃ st', Record_refresh n r st = Some (st', Ret r) ∧
            only_resets st st' ∧ finished st0 G st' ∧ clean st' r) ∧
  (∀ st l G,
     closed st → finished st0 G st → (l < length (lists st))%nat →
     (2 * memo_count st + 2 ≤ n)%nat →
     ∃ st', RecordList_refresh n l st = Some (st', Ret l) ∧
            only_resets st st' ∧ finished st0 G st' ∧ target_clean st' (PList l)).
Proof.
  induction n as [|n [IHrec IHlist]]; [split; intros; lia|]. split.
  - intros st r G Hclosed Hfin Hr Hfuel.
    apply lookup_lt_is_Some_2 in Hr as [ro Hro].
    destruct (closed_record _ _ _ Hclosed Hro) as [Hc Hmemo].
    destruct (Record_refresh_head_run st r ro Hro Hc) as (st1 & Hhead & Hres1 & Hclean1 & Hrecs1 & Hcount).
    simpl. rewrite Hhead.
    set (G' := λ a, G a ∨ a = r).
    assert (Hfin1 : finished st0 G' st1).
    { destruct Hfin as [Hor Hfin]. split; [by etrans|].
      intros a roa HG Ha Hm b Hb.
      assert (a ≠ r) by (intros ->; apply HG; by right).
      rewrite Hrecs1 in Ha. rewrite list_lookup_insert_ne in Ha by done.
      eapply clean_only_resets; [exact Hres1|].
      eapply Hfin; eauto. intros HGa. apply HG. by left. }
    set (children := (map_to_list (rec_related_objects ro)).*2).
    destruct (for_each_fuel_inv
                (λ rel, match rel with
                        | PRec a => λ st, void (Record_refresh n a st)
                        | PList l => λ st, void (RecordList_refresh n l st)
                        | _ => λ st, Some (st, Ret tt)
                        end)
                (λ s, closed s ∧ finished st0 G' s ∧ only_resets st1 s)
                (λ t s, target_clean s t) children st1)
      as (st2 & Hloop & (Hclosed2 & Hfin2 & Hres2) & _ & HQ).
    { intros t s Ht (Hcs & Hfs & Hrs).
      assert (Hin : ∃ name, rec_related_objects ro !! name = Some t).
      { subst children. apply list_elem_of_fmap in Ht as [[name t'] [-> Ht]].
        apply elem_of_map_to_list in Ht. eauto. }
      destruct Hin as [name Hname].
      assert (Hk : (1 ≤ size (rec_related_objects ro))%nat).
      { destruct (decide (size (rec_related_objects ro) = 0%nat)) as [E|E]; [|lia].
        apply map_size_empty_inv in E. rewrite E in Hname.
        by rewrite lookup_empty in Hname. }
      pose proof (memo_count_only_resets _ _ Hrs) as Hle.
      pose proof (Hmemo name t Hname) as Hok.
      pose proof Hres1 as (L1 & _ & _ & N1 & _).
      pose proof Hrs as (Ls & _ & _ & Ns & _).
      destruct t as [v|a|l|c]; simpl in Hok.
      + exists s. split; [done|]. split; [done|]. split; [reflexivity|done].
      + destruct (IHrec s a G' Hcs Hfs) as (s' & Hrun & Hrs' & Hfs' & Hcl).
        { rewrite Ns, N1. exact Hok. }
        { lia. }
        exists s'. rewrite Hrun. simpl. split; [done|].
        split; [|split; [done|exact Hcl]].
        split; [by eapply closed_only_resets|]. split; [done|by etrans].
      + destruct (IHlist s l G' Hcs Hfs) as (s' & Hrun & Hrs' & Hfs' & Hcl).
        { rewrite Ls, L1. exact Hok. }
        { lia. }
        exists s'. rewrite Hrun. simpl. split; [done|].
        split; [|split; [done|exact Hcl]].
        split; [by eapply closed_only_resets|]. split; [done|by etrans].
      + exists s. split; [done|]. split; [done|]. split; [reflexivity|done]. }
    { intros t s s' Ht Hrs. by eapply target_clean_only_resets. }
    { split; [by eapply closed_only_resets|]. split; [done|reflexivity]. }
    rewrite Hloop. exists st2. split; [done|].
    assert (Hres : only_resets st st2) by (by etrans).
    split; [done|]. split; [|exact (clean_only_resets _ _ _ Hres2 Hclean1)].
    destruct Hfin2 as [Hor2 Hfin2]. split; [done|].
    intros a roa HG Ha Hm b Hb.
    destruct (decide (a = r)) as [->|Hne].
    + destruct Hfin as [Hor Hfin].
      destruct Hb as (ro0 & name & Hro0 & Hedge).
      pose proof Hor as (L0 & _ & _ & _ & R0 & _).
      destruct (R0 r ro0 Hro0) as (ro' & Hro' & _ & _ & _ & M).
      assert (ro' = ro) as -> by congruence.
      destruct M as [M|M].
      * assert (Hchild : ∀ t, rec_related_objects ro0 !! name = Some t → target_clean st2 t).
        { intros t Ht. apply HQ. subst children. apply list_elem_of_fmap.
          exists (name, t). split; [done|]. apply elem_of_map_to_list. by rewrite M. }
        destruct Hedge as [Hedge|(l & lo & Hedge & Hl & Hin)].
        -- exact (Hchild _ Hedge).
        -- apply (Hchild _ Hedge lo b); [|done].
           pose proof Hor2 as (L2 & _). by rewrite L2.
      * eapply clean_only_resets; [exact Hres|].
        eapply (Hfin r ro HG Hro M). exists ro0, name. eauto.
    + eapply Hfin2; eauto. intros [HGa|E]; [by apply HG|done].
  - intros st l G Hclosed Hfin Hl Hfuel.
    apply lookup_lt_is_Some_2 in Hl as [lo Hlo].
    simpl. rewrite (get_list_run _ _ _ Hlo).
    destruct (for_each_fuel_inv
                (λ a st, void (Record_refresh n a st))
                (λ s, closed s ∧ finished st0 G s ∧ only_resets st s)
                (λ a s, clean s a) (rl_records lo) st)
      as (st2 & Hloop & (Hclosed2 & Hfin2 & Hres2) & _ & HQ).
    { intros a s Ha (Hcs & Hfs & Hrs).
      pose proof (memo_count_only_resets _ _ Hrs) as Hle.
      pose proof Hrs as (Ls & _ & _ & Ns & _).
      destruct (IHrec s a G Hcs Hfs) as (s' & Hrun & Hrs' & Hfs' & Hcl).
      { rewrite Ns. by eapply closed_list. }
      { lia. }
      exists s'. rewrite Hrun. simpl. split; [done|].
      split; [|split; [done|exact Hcl]].
      split; [by eapply closed_only_resets|]. split; [done|by etrans]. }
    { intros a s s' Ha Hrs. by eapply clean_only_resets. }
    { split; [done|]. split; [done|reflexivity]. }
    rewrite Hloop. exists st2. split; [done|]. split; [done|]. split; [done|].
    simpl. intros lo' a Hl' Ha. apply HQ.
    pose proof Hres2 as (L2 & _). rewrite L2 in Hl'. congruence.
Qed.

(** C7: [r.refresh()] returns [r] itself (given fuel above twice the number
    of memoized targets in the store); afterwards the cache entry of [r]
    holds no field (the id alone is put back) while the row id is still
    registered, the memo of [r] is empty, and the same holds of every
    record reached from [r] through memoized records and memoized record
    lists, however deep; nothing else happened to the store: memos were
    emptied and cache entries reset, no remote read was issued. *)
Theorem Record_refresh_spec (st : state) (r : addr) (ro : RecordObj) (fuel : nat) :
  closed st →
  records st !! r = Some ro →
  (2 * memo_count st + 1 ≤ fuel)%nat →
  ∃ st',
    Record_refresh fuel r st = Some (st', Ret r) ∧
    row_of st' (rec_cache ro) (rec_object ro) (rec_id ro) = Some {["id" := VInt (rec_id ro)]} ∧
    records st' !! r = Some (forget ro) ∧
    (∀ a, rtc (memo_succ st) r a → clean st' a) ∧
    only_resets st st' ∧ log st' = log st.
Proof.
  intros Hclosed Hro Hfuel.
  assert (Hfin : finished st (λ _, False) st).
  { split; [reflexivity|]. intros a roa _ Ha Hm b (roa' & name & Ha' & Hedge).
    assert (roa' = roa) as -> by congruence. rewrite Hm in Hedge.
    destruct Hedge as [H|(l & lo & H & _)]; by rewrite lookup_empty in H. }
  destruct (refresh_enough_fuel st fuel) as [Hrec _].
  destruct (Hrec st r (λ _, False) Hclosed Hfin) as (st' & Hrun & Hres & Hfin' & Hclean);
    [by eapply lookup_lt_Some|done|].
  exists st'. split; [exact Hrun|].
  pose proof Hres as (_ & Hlog & _ & _ & R & _).
  destruct (R r ro Hro) as (ro' & Hro' & O & K & I & _).
  destruct Hclean as (ro'' & Hro'' & Hm & Hrow).
  assert (ro'' = ro') as -> by congruence.
  split; [by rewrite <- O, <- K, <- I|]. split.
  { rewrite Hro'. f_equal. destruct ro'. unfold forget. simpl in *. congruence. }
  split; [|done].
  apply rtc_ind_r.
  - exists ro'. done.
  - intros x y _ Hxy (rox & Hx & Hmx & _).
    destruct Hfin' as [_ Hfin']. eapply (Hfin' x rox); eauto.
Qed.

Lemma closedb_closed st : closedb st = true → closed st.
Proof.
  unfold closedb, closed. intros H. apply andb_true_iff in H as [Hrec Hlist]. split.
  - apply Forall_forall. intros ro Hro.
    rewrite forallb_forall in Hrec. apply list_elem_of_In in Hro.
    specialize (Hrec ro Hro). apply andb_true_iff in Hrec as [Hc Hm].
    split; [by apply Nat.ltb_lt|].
    intros name t Ht. rewrite forallb_forall in Hm.
    specialize (Hm (name, t)). simpl in Hm.
    assert (Hin : In (name, t) (map_to_list (rec_related_objects ro))).
    { apply list_elem_of_In. by apply elem_of_map_to_list. }
    specialize (Hm Hin). destruct t; simpl in *; try done; by apply Nat.ltb_lt.
  - apply Forall_forall. intros lo Hlo.
    rewrite forallb_forall in Hlist. apply list_elem_of_In in Hlo.
    specialize (Hlist lo Hlo). apply Forall_forall. intros a Ha.
    rewrite forallb_forall in Hlist. apply list_elem_of_In in Ha.
    apply Nat.ltb_lt. by apply Hlist.
Qed.

(** ** The properties at work on the three partners *)

Lemma Record_getitem_id_witness :
  Record_getitem demo_client 0%nat "id" demo_store = (demo_store, Ret (PVal (VInt 1))).
Proof.
  apply (Record_getitem_id demo_client demo_store 0%nat (new_record "res.partner" 0%nat 1)).
  reflexivity.
Defined.

Lemma Record_getitem_unknown_field_witness :
  Record_getitem demo_client 0%nat "colour" demo_store =
    (demo_store, Raise (KeyError "No such field colour in object res.partner, 1")).
Proof.
  apply (Record_getitem_unknown_field demo_client demo_store 0%nat
           (new_record "res.partner" 0%nat 1) "colour").
  - reflexivity.
  - discriminate.
  - reflexivity.
Defined.

Lemma Record_getitem_miss_batched_read_witness :
  log (Record_getitem demo_client 0%nat "name" demo_store).1 =
    log demo_store ++ [miss_request demo_store (new_record "res.partner" 0%nat 1) "name"].
Proof.
  refine (proj1 (Record_getitem_miss_batched_read demo_client demo_store 0%nat
                   (new_record "res.partner" 0%nat 1)
                   {| f_type := "char"; f_relation := None; f_function := false |}
                   "name" ∅ _ _ _ _ _)).
  - reflexivity.
  - discriminate.
  - reflexivity.
  - vm_compute. reflexivity.
  - reflexivity.
Defined.

Lemma Record_getitem_cache_hit_witness :
  log (Record_getitem demo_client 1%nat "name" demo_store_named).1 = log demo_store_named.
Proof.
  refine (proj1 (Record_getitem_cache_hit demo_client demo_store_named 1%nat
                   (new_record "res.partner" 0%nat 2)
                   {| f_type := "char"; f_relation := None; f_function := false |}
                   "name" (VStr "B") _ _ _)).
  - reflexivity.
  - reflexivity.
  - vm_compute. reflexivity.
Defined.

(** Against C4 as stated: the names of the three partners are A, B and A;
    [mapped('name')] returns A and B only: the plain list is deduplicated. *)
Lemma mapped_names_deduplicated :
  (list_comp (λ r, Record_getitem demo_client r "name") [0; 1; 2]%nat demo_store).2 =
    Ret [PVal (VStr "A"); PVal (VStr "B"); PVal (VStr "A")] ∧
  (RecordList_mapped demo_client 0%nat "name" demo_store).2 =
    Ret (MList [PVal (VStr "A"); PVal (VStr "B")]) ∧
  (RecordList_mapped demo_client 0%nat "name" demo_store).2 ≠
    Ret (MList [PVal (VStr "A"); PVal (VStr "B"); PVal (VStr "A")]).
Proof.
  split; [vm_compute; reflexivity|]. split; [vm_compute; reflexivity|].
  vm_compute. discriminate.
Qed.

Lemma RecordList_mapped_spec_witness :
  RecordList_mapped demo_client 0%nat "name" demo_store =
    ((mapped_trace demo_client 0%nat "name" demo_store).1,
     Ret (MList [PVal (VStr "A"); PVal (VStr "B")])).
Proof.
  refine (proj1 (RecordList_mapped_spec demo_client demo_store _ 0%nat
                   {| rl_object := "res.partner"; rl_cache := 0%nat;
                      rl_records := [0; 1; 2]%nat |}
                   "name" [("res.partner", "name", None)] "res.partner" "name" None
                   (MList [PVal (VStr "A"); PVal (VStr "B")])
                   [PVal (VStr "A"); PVal (VStr "B"); PVal (VStr "A")] _ _ _ _)).
  - reflexivity.
  - reflexivity.
  - reflexivity.
  - vm_compute. reflexivity.
Defined.

(** Against C5 as stated: inserting the integer 7 into list 0 leaves 7
    unregistered in the cache store of the list (store 0), and reads
    nothing from the server. *)
Lemma insert_int_not_registered :
  let res := RecordList_insert demo_client 0%nat 0 (PVal (VInt 7)) demo_store in
  res.2 = Ret 0%nat ∧
  (rl_cache <$> lists res.1 !! 0%nat) = Some 0%nat ∧
  row_of res.1 0%nat "res.partner" 7 = None ∧
  log res.1 = [].
Proof. vm_compute. repeat split; reflexivity. Qed.

Lemma RecordList_insert_spec_witness :
  ∃ st', RecordList_insert demo_client 0%nat 0 (PRec 2%nat) demo_store = (st', Ret 0%nat) ∧
         lists st' !! 0%nat =
           Some {| rl_object := "res.partner"; rl_cache := 0%nat;
                   rl_records := py_insert 0 2%nat [0; 1; 2]%nat |} ∧
         caches st' = caches demo_store ∧ records st' = records demo_store ∧
         log st' = log demo_store.
Proof.
  refine (proj1 (RecordList_insert_spec demo_client demo_store 0%nat
                   {| rl_object := "res.partner"; rl_cache := 0%nat;
                      rl_records := [0; 1; 2]%nat |} 0 _) 2%nat).
  reflexivity.
Defined.

(** Against C6 as stated: [copy(new_cache=None)] raises nothing: it
    returns a list on the cache store of the source list. *)
Lemma copy_None_shares_cache :
  let res := RecordList_copy demo_client 0%nat None (PVal VNone) demo_store in
  res.2 = Ret 1%nat ∧ (rl_cache <$> lists res.1 !! 1%nat) = Some 0%nat.
Proof. vm_compute. split; reflexivity. Qed.

Lemma RecordList_copy_new_cache_witness :
  RecordList_copy demo_client 0%nat None (PVal (VInt 5)) demo_store =
    (demo_store, Raise (ValueError "Wrong value for parametr 'new_cache'")).
Proof.
  refine (proj1 (proj2 (proj2 (proj2
            (RecordList_copy_new_cache demo_client demo_store 0%nat
               {| rl_object := "res.partner"; rl_cache := 0%nat;
                  rl_records := [0; 1; 2]%nat |} [1; 2; 3] None _ _ _))))
            (VInt 5) _ _).
  - reflexivity.
  - reflexivity.
  - vm_compute. lia.
  - reflexivity.
  - discriminate.
Defined.

Lemma Record_refresh_spec_witness :
  ∃ st', Record_refresh 13 0%nat demo_store_related = Some (st', Ret 0%nat) ∧
         row_of st' 0%nat "res.partner" 1 = Some {["id" := VInt 1]} ∧
         records st' !! 0%nat = Some (new_record "res.partner" 0%nat 1) ∧
         (∀ a, rtc (memo_succ demo_store_related) 0%nat a → clean st' a) ∧
         only_resets demo_store_related st' ∧ log st' = log demo_store_related.
Proof.
  refine (Record_refresh_spec demo_store_related 0%nat
            {| rec_object := "res.partner"; rec_cache := 0%nat; rec_id := 1;
               rec_related_objects :=
                 {["child_ids" := PList 2%nat; "parent_id" := PVal (VBool false)]} |}
            13 _ _ _).
  - apply closedb_closed. vm_compute. reflexivity.
  - vm_compute. reflexivity.
  - vm_compute. lia.
Defined.

(** ** What [keep_first] keeps *)

Lemma keep_from_cons {A} (eqb : A → A → bool) (acc : list A) (x : A) (l : list A) :
  keep_from eqb acc (x :: l) =
    keep_from eqb (if existsb (λ e, eqb e x) acc then acc else acc ++ [x]) l.
Proof. reflexivity. Qed.

(** The kept elements come from the list, in its order. *)
Lemma keep_from_sublist {A} (eqb : A → A → bool) (acc l : list A) :
  ∃ k, keep_from eqb acc l = acc ++ k ∧ sublist k l.
Proof.
  revert acc. induction l as [|x l IH]; intros acc.
  - exists []. split; [by rewrite app_nil_r|constructor].
  - rewrite keep_from_cons.
    destruct (existsb (λ e, eqb e x) acc).
    + destruct (IH acc) as (k & E & Hk). exists k. split; [done|by apply sublist_cons].
    + destruct (IH (acc ++ [x])) as (k & E & Hk). exists (x :: k).
      split; [by rewrite E, <- app_assoc|by apply sublist_skip].
Qed.

Lemma keep_first_sublist {A} (eqb : A → A → bool) (l : list A) :
  sublist (keep_first eqb l) l.
Proof. destruct (keep_from_sublist eqb [] l) as (k & E & Hk). unfold keep_first. by rewrite E. Qed.

(** No kept element is equal to one kept before it. *)
Lemma keep_first_distinct {A} (eqb : A → A → bool) (l : list A) (i j : nat) (e x : A) :
  (i < j)%nat → keep_first eqb l !! i = Some e → keep_first eqb l !! j = Some x →
  eqb e x = false.
Proof.
  unfold keep_first.
  assert (H : ∀ acc,
    (∀ i j e x, (i < j)%nat → acc !! i = Some e → acc !! j = Some x → eqb e x = false) →
    ∀ i j e x, (i < j)%nat → keep_from eqb acc l !! i = Some e →
               keep_from eqb acc l !! j = Some x → eqb e x = false).
  { induction l as [|y l IH]; intros acc Hacc; [exact Hacc|].
    rewrite keep_from_cons.
    destruct (existsb (λ e, eqb e y) acc) eqn:Ex; [by apply IH|].
    apply IH. intros i' j' e' x' Hlt Hi Hj.
    destruct (decide (j' < length acc)%nat) as [Hj'|Hj'].
    - rewrite lookup_app_l in Hi, Hj by lia. eauto.
    - rewrite lookup_app_r in Hj by lia.
      destruct (j' - length acc)%nat as [|n] eqn:En; [|by destruct n].
      injection Hj as <-. rewrite lookup_app_l in Hi by lia.
      destruct (eqb e' y) eqn:E; [|done].
      assert (existsb (λ e, eqb e y) acc = true); [|congruence].
      apply existsb_exists. exists e'. split; [|done].
      apply list_elem_of_In. by eapply list_elem_of_lookup_2. }
  apply H. intros ? ? ? ? _ Hi. done.
Qed.

(** Every element of the list is kept, or is equal to one that is. *)
Lemma keep_first_covers {A} (eqb : A → A → bool) (l : list A) (x : A) :
  x ∈ l → x ∈ keep_first eqb l ∨ ∃ e, e ∈ keep_first eqb l ∧ eqb e x = true.
Proof.
  unfold keep_first. generalize (@nil A) as acc.
  induction l as [|y l IH]; intros acc Hx; [by apply elem_of_nil in Hx|].
  rewrite keep_from_cons.
  apply elem_of_cons in Hx as [->|Hx]; [|by apply IH].
  destruct (existsb (λ e, eqb e y) acc) eqn:Ex.
  - right. apply existsb_exists in Ex as (e & He & Ee). exists e. split; [|done].
    destruct (keep_from_sublist eqb acc l) as (k & -> & _).
    apply elem_of_app. left. by apply list_elem_of_In.
  - left. destruct (keep_from_sublist eqb (acc ++ [y]) l) as (k & -> & _).
    apply elem_of_app. left. apply elem_of_app. right. by left.
Qed.

(** * More properties of the module *)

(** ** Indexing a record list *)

Lemma py_index_Some len index :
  - Z.of_nat len ≤ index < Z.of_nat len →
  ∃ k, py_index len index = Some k ∧ (k < len)%nat.
Proof.
  intros H. unfold py_index.
  destruct (Z.leb_spec 0 index); destruct (Z.ltb_spec index (Z.of_nat len)); simpl;
    try lia.
  - exists (Z.to_nat index). split; [done|lia].
  - destruct (Z.ltb_spec index 0); destruct (Z.leb_spec (- Z.of_nat len) index); simpl;
      try lia.
    exists (Z.to_nat (Z.of_nat len + index)). split; [done|lia].
Qed.

Lemma py_index_None len index :
  index < - Z.of_nat len ∨ Z.of_nat len ≤ index → py_index len index = None.
Proof.
  intros H. unfold py_index.
  destruct (Z.leb_spec 0 index), (Z.ltb_spec index (Z.of_nat len)),
    (Z.ltb_spec index 0), (Z.leb_spec (- Z.of_nat len) index); simpl; try lia; done.
Qed.

(** X1: with an index in range (negative ones counting from the end),
    [L[index] = rec] followed by [L[index]] gives [rec] back; the list keeps
    its length and its other members, and no cache store is touched. *)
Theorem RecordList_setitem_getitem (st : state) (l : addr) (lo : RecordListObj)
    (index : Z) (a : addr) :
  lists st !! l = Some lo →
  - Z.of_nat (length (rl_records lo)) ≤ index < Z.of_nat (length (rl_records lo)) →
  ∃ st' k lo',
    RecordList_setitem l index (PRec a) st = (st', Ret tt) ∧
    RecordList_getitem l index st' = (st', Ret a) ∧
    lists st' !! l = Some lo' ∧
    length (rl_records lo') = length (rl_records lo) ∧
    rl_records lo' !! k = Some a ∧
    (∀ j, j ≠ k → rl_records lo' !! j = rl_records lo !! j) ∧
    caches st' = caches st ∧ records st' = records st ∧ log st' = log st.
Proof.
  intros Hl Hrange. destruct (py_index_Some _ _ Hrange) as (k & Hk & Hlt).
  assert (Hll : (l < length (lists st))%nat) by (by eapply lookup_lt_Some).
  eexists _, k, _. unfold RecordList_setitem.
  rewrite (bind_ret _ _ _ _ _ (get_list_run _ _ _ Hl)). rewrite Hk.
  rewrite (set_list_records_run _ _ _ _ Hl).
  split; [reflexivity|].
  set (st' := set_lists _ st).
  assert (Hl' : lists st' !! l = Some {| rl_object := rl_object lo; rl_cache := rl_cache lo;
                                        rl_records := <[k := a]> (rl_records lo) |}).
  { subst st'. simpl. by apply list_lookup_insert_eq. }
  split.
  { unfold RecordList_getitem. rewrite (bind_ret _ _ _ _ _ (get_list_run _ _ _ Hl')).
    simpl. rewrite length_insert, Hk. rewrite list_lookup_insert_eq by done. reflexivity. }
  split; [exact Hl'|]. simpl. split; [apply length_insert|].
  split; [by apply list_lookup_insert_eq|].
  split; [intros j Hj; by apply list_lookup_insert_ne|]. done.
Qed.

(** X2: [L[index] = value] raises [ValueError] for any value that is not a
    record, whatever the index, and [IndexError] for a record at an index
    out of range; in both cases the store is left as it was. *)
Theorem RecordList_setitem_rejects (st : state) (l : addr) (lo : RecordListObj) (index : Z) :
  lists st !! l = Some lo →
  (∀ value, (∀ a, value ≠ PRec a) →
     RecordList_setitem l index value st =
       (st, Raise (ValueError
          "In 'RecordList[index] = value' operation, value must be instance of Record"))) ∧
  (index < - Z.of_nat (length (rl_records lo)) ∨ Z.of_nat (length (rl_records lo)) ≤ index →
   ∀ a, RecordList_setitem l index (PRec a) st =
          (st, Raise (IndexError "list assignment index out of range"))).
Proof.
  intros Hl. split.
  - intros value Hv. destruct value as [v|a|a|a]; try reflexivity. by destruct (Hv a).
  - intros Hout a. unfold RecordList_setitem.
    rewrite (bind_ret _ _ _ _ _ (get_list_run _ _ _ Hl)).
    by rewrite (py_index_None _ _ Hout).
Qed.

Lemma py_insert_inside {A} (index : Z) (x : A) (l : list A) :
  0 ≤ index ≤ Z.of_nat (length l) →
  py_insert index x l = take (Z.to_nat index) l ++ x :: drop (Z.to_nat index) l.
Proof.
  intros H. unfold py_insert. destruct (Z.ltb_spec index 0); [lia|].
  by rewrite Z.min_l by lia.
Qed.

(** X3: for an index between 0 and the length of the list,
    [L.insert(index, rec)] followed by [del L[index]] gives the list its
    members back, in order; [L[index]] in between is [rec]. *)
Theorem RecordList_insert_delitem (client : Client) (st : state) (l : addr)
    (lo : RecordListObj) (index : Z) (a : addr) :
  lists st !! l = Some lo →
  0 ≤ index ≤ Z.of_nat (length (rl_records lo)) →
  ∃ st1 st2,
    RecordList_insert client l index (PRec a) st = (st1, Ret l) ∧
    RecordList_getitem l index st1 = (st1, Ret a) ∧
    RecordList_delitem l index st1 = (st2, Ret tt) ∧
    lists st2 !! l = Some lo ∧
    caches st2 = caches st ∧ records st2 = records st ∧ log st2 = log st.
Proof.
  intros Hl Hrange.
  assert (Hll : (l < length (lists st))%nat) by (by eapply lookup_lt_Some).
  set (k := Z.to_nat index).
  assert (Hk : (k ≤ length (rl_records lo))%nat) by lia.
  eexists _, _. unfold RecordList_insert.
  rewrite (bind_ret _ _ _ _ _ (set_list_records_run _ _ _ _ Hl)).
  split; [reflexivity|].
  set (st1 := set_lists _ st).
  set (recs1 := py_insert index a (rl_records lo)).
  assert (Hl1 : lists st1 !! l = Some {| rl_object := rl_object lo; rl_cache := rl_cache lo;
                                        rl_records := recs1 |}).
  { subst st1. simpl. by apply list_lookup_insert_eq. }
  assert (Erecs : recs1 = take k (rl_records lo) ++ a :: drop k (rl_records lo)).
  { subst recs1 k. by apply py_insert_inside. }
  assert (Hlen1 : length recs1 = S (length (rl_records lo))).
  { rewrite Erecs, length_app. simpl. rewrite length_take, length_drop. lia. }
  assert (Hidx : py_index (length recs1) index = Some k).
  { destruct (py_index_Some (length recs1) index) as (k' & Hk' & _); [lia|].
    rewrite Hk'. unfold py_index in Hk'.
    destruct (Z.leb_spec 0 index); [|lia].
    destruct (Z.ltb_spec index (Z.of_nat (length recs1))); [|lia].
    simpl in Hk'. by injection Hk' as <-. }
  split.
  { unfold RecordList_getitem. rewrite (bind_ret _ _ _ _ _ (get_list_run _ _ _ Hl1)).
    simpl. rewrite Hidx. rewrite Erecs.
    rewrite lookup_app_r by (rewrite length_take; lia).
    rewrite length_take. replace (k - k `min` length (rl_records lo))%nat with 0%nat by lia.
    reflexivity. }
  unfold RecordList_delitem. rewrite (bind_ret _ _ _ _ _ (get_list_run _ _ _ Hl1)).
  simpl. rewrite Hidx. rewrite (set_list_records_run _ _ _ _ Hl1).
  split; [reflexivity|]. simpl.
  split; [|done]. rewrite list_insert_insert_eq.
  rewrite list_lookup_insert_eq by done. f_equal.
  destruct lo as [o c recs]. simpl in *. f_equal.
  fold recs1. rewrite Erecs.
  replace k with (length (take k recs)) at 1 by (rewrite length_take; lia).
  rewrite delete_middle. apply take_drop.
Qed.

(** ** existing *)

Lemma existing_loop_from (ex : list Z) (u : bool) (ids acc : list Z) :
  let step := λ new_ids id_,
    if negb (bool_decide (id_ ∈ ex)) then new_ids
    else if u && bool_decide (id_ ∈ new_ids) then new_ids
    else new_ids ++ [id_] in
  ∃ k, foldl step acc ids = acc ++ k ∧
       sublist k ids ∧
       (∀ i, i ∈ k → i ∈ ex) ∧
       (∀ i, i ∈ ids → i ∈ ex → i ∈ acc ++ k) ∧
       (u = true → NoDup acc → NoDup (acc ++ k)) ∧
       (u = false → k = filter (λ i, i ∈ ex) ids).
Proof.
  intros step. revert acc. induction ids as [|x ids IH]; intros acc.
  - exists []. rewrite app_nil_r. simpl. split; [done|]. split; [constructor|].
    split; [intros i Hi; by apply elem_of_nil in Hi|].
    split; [intros i Hi; by apply elem_of_nil in Hi|]. split; done.
  - simpl. unfold step at 2.
    destruct (bool_decide_reflect (x ∈ ex)) as [Hx|Hx]; simpl.
    + destruct u; simpl.
      * destruct (bool_decide_reflect (x ∈ acc)) as [Hacc|Hacc].
        -- destruct (IH acc) as (k & E & Hs & Hex & Hcov & Hnd & Hf).
           exists k. split; [done|]. split; [by apply sublist_cons|]. split; [done|].
           split; [|split; [done|intros ?; done]].
           intros i Hi Hie. apply elem_of_cons in Hi as [->|Hi]; [|by apply Hcov].
           apply elem_of_app. by left.
        -- destruct (IH (acc ++ [x])) as (k & E & Hs & Hex & Hcov & Hnd & Hf).
           exists (x :: k). rewrite E, <- app_assoc. simpl.
           split; [done|]. split; [by apply sublist_skip|]. split.
           { intros i Hi. apply elem_of_cons in Hi as [->|Hi]; [done|by apply Hex]. }
           split.
           { intros i Hi Hie. replace (acc ++ x :: k) with ((acc ++ [x]) ++ k)
               by (by rewrite <- app_assoc).
             apply elem_of_cons in Hi as [->|Hi]; [|by apply Hcov].
             apply elem_of_app. left. apply elem_of_app. right. by left. }
           split; [|intros ?; done].
           intros _ Hnda. replace (acc ++ x :: k) with ((acc ++ [x]) ++ k)
             by (by rewrite <- app_assoc).
           apply Hnd; [done|]. apply NoDup_app. split; [done|].
           split; [|apply NoDup_singleton].
           intros y Hy Hyx. apply list_elem_of_singleton in Hyx as ->. done.
      * destruct (IH (acc ++ [x])) as (k & E & Hs & Hex & Hcov & Hnd & Hf).
        exists (x :: k). rewrite E, <- app_assoc. simpl.
        split; [done|]. split; [by apply sublist_skip|]. split.
        { intros i Hi. apply elem_of_cons in Hi as [->|Hi]; [done|by apply Hex]. }
        split.
        { intros i Hi Hie. replace (acc ++ x :: k) with ((acc ++ [x]) ++ k)
            by (by rewrite <- app_assoc).
          apply elem_of_cons in Hi as [->|Hi]; [|by apply Hcov].
          apply elem_of_app. left. apply elem_of_app. right. by left. }
        split; [intros ?; done|].
        intros _. rewrite filter_cons_True by done. by rewrite Hf.
    + destruct (IH acc) as (k & E & Hs & Hex & Hcov & Hnd & Hf).
      exists k. split; [done|]. split; [by apply sublist_cons|]. split; [done|].
      split; [|split; [done|]].
      * intros i Hi Hie. apply elem_of_cons in Hi as [->|Hi]; [done|by apply Hcov].
      * intros Hu. rewrite filter_cons_False by done. by apply Hf.
Qed.

(** X4: [existing] returns a new record list on the collection and the
    cache store of the source list, whose ids are the ids of the source
    that the server reports as existing, in the order of the source; with
    [uniqify] no id is repeated, without it every occurrence is kept. *)
Theorem RecordList_existing_spec (client : Client)
    (remote_exists : list Z → option (gmap string value) → option (list Z))
    (st : state) (l : addr) (lo : RecordListObj) (ids ex : list Z) (uniqify : bool) :
  lists st !! l = Some lo →
  ids_at st (rl_records lo) = Some ids →
  (rl_cache lo < length (caches st))%nat →
  remote_exists ids (oc_context (bucket_of st (rl_cache lo) (rl_object lo))) = Some ex →
  ∃ st' lo' ids',
    RecordList_existing client remote_exists l uniqify st = (st', Ret (length (lists st))) ∧
    lists st' !! length (lists st) = Some lo' ∧
    rl_object lo' = rl_object lo ∧ rl_cache lo' = rl_cache lo ∧
    ids_at st' (rl_records lo') = Some ids' ∧
    sublist ids' ids ∧
    (∀ i, i ∈ ids' ↔ i ∈ ids ∧ i ∈ ex) ∧
    (uniqify = true → NoDup ids') ∧
    (uniqify = false → ids' = filter (λ i, i ∈ ex) ids) ∧
    lists st' !! l = Some lo ∧ log st' = log st.
Proof.
  intros Hl Hids Hc Hex.
  destruct (existing_loop_from ex uniqify ids []) as (k & E & Hs & Hin & Hcov & Hnd & Hf).
  simpl in *. fold (existing_loop ex uniqify ids) in E.
  eexists _, _, k. unfold RecordList_existing.
  rewrite (bind_ret _ _ _ _ _ (get_list_run _ _ _ Hl)).
  assert (Hctx : RecordList_context l st =
                 (st, Ret (oc_context (bucket_of st (rl_cache lo) (rl_object lo))))).
  { unfold RecordList_context. rewrite (bind_ret _ _ _ _ _ (get_list_run _ _ _ Hl)).
    rewrite (bind_ret _ _ _ _ _ (lcache_run _ _ _ Hc)). reflexivity. }
  rewrite (bind_ret _ _ _ _ _ Hctx).
  rewrite (bind_ret _ _ _ _ _ (RecordList_ids_run _ _ _ _ Hl Hids)).
  rewrite Hex. simpl. rewrite bind_run. simpl.
  rewrite (bind_ret _ _ _ _ _ (RecordList_ids_run _ _ _ _ Hl Hids)).
  rewrite E. rewrite (get_record_list_run _ _ _ _ _ _ _ Hc).
  split; [reflexivity|]. simpl.
  split; [by apply list_lookup_middle|]. simpl.
  split; [done|]. split; [done|].
  split; [apply (ids_at_new_records (put_bucket _ _ _ st))|].
  split; [done|]. split.
  { intros i. split.
    - intros Hi. split; [|by apply Hin]. eapply elem_of_sublist; eauto.
    - intros [Hi Hie]. by apply Hcov. }
  split; [intros Hu; apply Hnd; [done|constructor]|].
  split; [done|]. split; [by apply lookup_app_l_Some|done].
Qed.

(** ** get_encodings *)

(** X5: whatever the hint and the locale, the encodings that
    [get_encodings] yields start with the hint when one is given, and
    always hold an encoding named utf8 and one named latin1 (the hint
    itself when it names one of them in another case). *)
Theorem get_encodings_always_offers (hint_encoding prefenc : string) :
  (hint_encoding ≠ "" → head (get_encodings hint_encoding prefenc) = Some hint_encoding) ∧
  (∃ e, e ∈ get_encodings hint_encoding prefenc ∧ lower e = "utf8") ∧
  (∃ e, e ∈ get_encodings hint_encoding prefenc ∧ lower e = "latin1").
Proof.
  unfold get_encodings.
  destruct (String.eqb_spec hint_encoding "") as [->|Hne].
  - split; [done|]. split.
    + exists "utf8". split; [|done]. apply elem_of_app. right. apply elem_of_app. left.
      apply list_elem_of_filter. split; [by left|by left].
    + exists "latin1". split; [|done]. apply elem_of_app. right. apply elem_of_app. left.
      apply list_elem_of_filter. split; [by left|right; by left].
  - split; [done|].
    assert (Hoffer : ∀ cs, cs ∈ ["utf8"; "latin1"] → lower cs = cs →
              ∃ e, e ∈ (hint_encoding ::
                          match fallbacks (lower hint_encoding) with
                          | Some f => [f]
                          | None => []
                          end) ++
                        filter (λ charset, hint_encoding = "" ∨
                                           lower charset ≠ lower hint_encoding)
                               ["utf8"; "latin1"] ++
                        (if negb (String.eqb prefenc "") &&
                            negb (String.eqb (lower prefenc) "utf-8")
                         then prefenc ::
                              match fallbacks (lower prefenc) with
                              | Some f => if String.eqb f "" then [] else [f]
                              | None => []
                              end
                         else []) ∧ lower e = cs).
    { intros cs Hcs Hlow.
      destruct (decide (lower cs = lower hint_encoding)) as [E|E].
      - exists hint_encoding. split; [apply elem_of_app; left; by left|congruence].
      - exists cs. split; [|done]. apply elem_of_app. right. apply elem_of_app. left.
        apply list_elem_of_filter. split; [by right|done]. }
    split.
    + apply Hoffer; [by left|done].
    + apply Hoffer; [right; by left|done].
Qed.

(** ** Constructors, membership and filter *)

Lemma get_record_integral_run obj rid i c ctx st :
  as_integral rid = Some i →
  (c < length (caches st))%nat →
  get_record obj rid (Some c) ctx st =
    (set_records (λ rs, rs ++ [new_record obj c i])
       (put_bucket c obj (with_context ctx (register i (bucket_of st c obj))) st),
     Ret (length (records st))).
Proof.
  intros Hi Hc. rewrite <- (get_record_run obj i c ctx st Hc).
  unfold get_record. rewrite Hi. reflexivity.
Qed.

Lemma row_of_register_context st c obj i ctx :
  (c < length (caches st))%nat →
  is_Some (row_of (put_bucket c obj (with_context ctx (register i (bucket_of st c obj))) st)
                  c obj i).
Proof.
  intros Hc. unfold row_of. rewrite put_bucket_same by done.
  assert (H : is_Some (oc_rows (register i (bucket_of st c obj)) !! i)).
  { unfold register. destruct (oc_rows (bucket_of st c obj) !! i) eqn:E; [by rewrite E|].
    simpl. rewrite lookup_insert_eq. eauto. }
  by destruct ctx.
Qed.

Lemma neutral_with_context ctx f : neutral f → neutral (λ b, with_context ctx (f b)).
Proof. intros Hf b i name. destruct ctx; simpl; apply Hf. Qed.

(** X6: constructing a record on an existing cache store registers its row
    id in the bucket of its collection and changes no cached field value:
    a row registered before keeps what it holds.  The new handle has an
    empty memo.  A row id that is not an integer fails the assertion and
    leaves the store as it was. *)
Theorem get_record_registers (obj : string) (rid : value) (c : addr)
    (ctx : option (gmap string value)) (st : state) :
  (c < length (caches st))%nat →
  (∀ i, as_integral rid = Some i →
     ∃ st', get_record obj rid (Some c) ctx st = (st', Ret (length (records st))) ∧
            records st' !! length (records st) = Some (new_record obj c i) ∧
            is_Some (row_of st' c obj i) ∧
            (∀ c' obj' j name, cached st' c' obj' j name = cached st c' obj' j name) ∧
            (∀ a ro, records st !! a = Some ro → records st' !! a = Some ro) ∧
            lists st' = lists st ∧ log st' = log st) ∧
  (as_integral rid = None →
     get_record obj rid (Some c) ctx st = (st, Raise (AssertionError "rid must be int"))).
Proof.
  intros Hc. split.
  - intros i Hi. eexists. rewrite (get_record_integral_run _ _ _ _ _ _ Hi Hc).
    split; [reflexivity|]. simpl.
    split; [by apply list_lookup_middle|].
    split; [by apply row_of_register_context|].
    split.
    { intros c' obj' j name.
      apply (cached_put_neutral st c obj (λ b, with_context ctx (register i b))).
      apply neutral_with_context, neutral_register. }
    split; [intros a ro Ha; by apply lookup_app_l_Some|]. done.
  - intros Hi. unfold get_record. by rewrite Hi.
Qed.


Lemma list_comp_get_rec_run st recs ids :
  ids_at st recs = Some ids →
  ∃ others, list_comp get_rec recs st = (st, Ret others) ∧ rec_id <$> others = ids.
Proof.
  revert ids. induction recs as [|a recs IH]; intros ids H.
  - unfold ids_at in H. simpl in H. injection H as <-. by exists [].
  - unfold ids_at in H. simpl in H.
    destruct (records st !! a) as [ro|] eqn:Ea; simpl in H; [|discriminate H].
    destruct (mapM _ recs) as [ids'|] eqn:Em; simpl in H; [|discriminate H].
    injection H as <-. destruct (IH _ Em) as (others & Hrun & Hids).
    exists (ro :: others). simpl.
    rewrite (bind_ret _ _ _ _ _ (get_rec_run _ _ _ Ea)).
    rewrite (bind_ret _ _ _ _ _ Hrun). split; [reflexivity|].
    rewrite <- Hids. reflexivity.
Qed.

(** X8: [item in L] looks at row ids only: for an integer it holds exactly
    when the integer is the id of a member, for a record handle exactly
    when a member has the id of the handle (whatever store or collection
    the handle is on), and for anything else it is false; the store is
    left as it was. *)
Theorem RecordList_contains_spec (st : state) (l : addr) (lo : RecordListObj)
    (ids : list Z) :
  lists st !! l = Some lo →
  ids_at st (rl_records lo) = Some ids →
  (∀ v i, as_integral v = Some i →
     RecordList_contains l (PVal v) st = (st, Ret (bool_decide (i ∈ ids)))) ∧
  (∀ a ro, records st !! a = Some ro →
     RecordList_contains l (PRec a) st = (st, Ret (bool_decide (rec_id ro ∈ ids)))) ∧
  (∀ v, as_integral v = None → RecordList_contains l (PVal v) st = (st, Ret false)) ∧
  (∀ a, RecordList_contains l (PList a) st = (st, Ret false) ∧
        RecordList_contains l (PCache a) st = (st, Ret false)).
Proof.
  intros Hl Hids. split; [|split; [|split]].
  - intros v i Hv. unfold RecordList_contains. rewrite Hv.
    rewrite (bind_ret _ _ _ _ _ (RecordList_ids_run _ _ _ _ Hl Hids)). reflexivity.
  - intros a ro Ha. unfold RecordList_contains.
    rewrite (bind_ret _ _ _ _ _ (get_list_run _ _ _ Hl)).
    rewrite (bind_ret _ _ _ _ _ (get_rec_run _ _ _ Ha)).
    destruct (list_comp_get_rec_run _ _ _ Hids) as (others & Hrun & <-).
    rewrite (bind_ret _ _ _ _ _ Hrun).
    assert (Hb : existsb (λ other, Record_eq other ro) others =
                 bool_decide (rec_id ro ∈ rec_id <$> others)).
    { clear. induction others as [|o others IH].
      - symmetry. apply bool_decide_eq_false_2. apply not_elem_of_nil.
      - rewrite fmap_cons. cbn [existsb]. unfold Record_eq at 1.
        destruct (Z.eqb_spec (rec_id ro) (rec_id o)) as [E|E]; cbn [orb].
        + symmetry. apply bool_decide_eq_true_2. rewrite E. by left.
        + rewrite IH. apply bool_decide_ext. rewrite elem_of_cons.
          split; [by right|by intros [?|?]]. }
    rewrite <- Hb. reflexivity.
  - intros v Hv. unfold RecordList_contains. by rewrite Hv.
  - intros a. split; reflexivity.
Qed.

Lemma ids_where_run (func : addr → M bool) (p : addr → bool) st recs ids :
  (∀ r, r ∈ recs → func r st = (st, Ret (p r))) →
  ids_at st recs = Some ids →
  ∃ ids', ids_where func recs st = (st, Ret ids') ∧
          ids_at st (filter (λ r, p r = true) recs) = Some ids' ∧
          sublist ids' ids.
Proof.
  revert ids. induction recs as [|a recs IH]; intros ids Hf H.
  - unfold ids_at in H. simpl in H. injection H as <-. exists []. done.
  - unfold ids_at in H. simpl in H.
    destruct (records st !! a) as [ro|] eqn:Ea; simpl in H; [|discriminate H].
    destruct (mapM _ recs) as [ids0|] eqn:Em; simpl in H; [|discriminate H].
    injection H as <-.
    destruct (IH _ (λ r Hr, Hf r (list_elem_of_further _ _ _ Hr)) Em)
      as (ids' & Hrun & Hat & Hsub).
    simpl. rewrite (bind_ret _ _ _ _ _ (Hf a (list_elem_of_here _ _))).
    destruct (p a) eqn:Ep.
    + exists (rec_id ro :: ids').
      rewrite (bind_ret _ _ _ _ _ (Record_id_run _ _ _ Ea)).
      rewrite (bind_ret _ _ _ _ _ Hrun). split; [reflexivity|].
      rewrite filter_cons_True by done. split; [|by apply sublist_skip].
      unfold ids_at in *. simpl. rewrite Ea. simpl. by rewrite Hat.
    + exists ids'. rewrite filter_cons_False by (by rewrite Ep).
      split; [done|]. split; [done|by apply sublist_cons].
Qed.

(** X9: for a predicate that answers without writing to the store,
    [filter] returns a new record list on the collection and the cache
    store of the source list, whose ids are the ids of the members that
    satisfy the predicate, in their original order; the source list is
    unchanged and nothing is read from the server. *)
Theorem RecordList_filter_spec (client : Client) (st : state) (l : addr)
    (lo : RecordListObj) (func : addr → M bool) (p : addr → bool) (ids : list Z) :
  lists st !! l = Some lo →
  ids_at st (rl_records lo) = Some ids →
  (rl_cache lo < length (caches st))%nat →
  (∀ r, r ∈ rl_records lo → func r st = (st, Ret (p r))) →
  ∃ st' lo' ids',
    RecordList_filter client l func st = (st', Ret (length (lists st))) ∧
    lists st' !! length (lists st) = Some lo' ∧
    rl_object lo' = rl_object lo ∧ rl_cache lo' = rl_cache lo ∧
    ids_at st' (rl_records lo') = Some ids' ∧
    ids_at st (filter (λ r, p r = true) (rl_records lo)) = Some ids' ∧
    sublist ids' ids ∧
    lists st' !! l = Some lo ∧ log st' = log st.
Proof.
  intros Hl Hids Hc Hf.
  destruct (ids_where_run func p st _ _ Hf Hids) as (ids' & Hrun & Hat & Hsub).
  eexists _, _, ids'. unfold RecordList_filter.
  rewrite (bind_ret _ _ _ _ _ (get_list_run _ _ _ Hl)).
  rewrite (bind_ret _ _ _ _ _ Hrun).
  rewrite (get_record_list_run _ _ _ _ _ _ _ Hc).
  split; [reflexivity|]. simpl.
  split; [by apply list_lookup_middle|]. simpl.
  split; [done|]. split; [done|].
  split; [apply (ids_at_new_records (put_bucket _ _ _ st))|].
  split; [done|]. split; [done|]. split; [by apply lookup_app_l_Some|done].
Qed.

(** ** Relational fields *)

Lemma many2one_memo_hit client st r ro name t d :
  records st !! r = Some ro →
  rec_related_objects ro !! name = Some t →
  Record_get_many2one_rel_obj client r name d st = (st, Ret t).
Proof.
  intros Hr Hm. unfold Record_get_many2one_rel_obj.
  rewrite (bind_ret _ _ _ _ _ (get_rec_run _ _ _ Hr)). rewrite Hm.
  rewrite bind_run. simpl. unfold related_get.
  rewrite (bind_ret _ _ _ _ _ (get_rec_run _ _ _ Hr)). by rewrite Hm.
Qed.

Lemma one2many_memo_hit client st r ro name t d :
  records st !! r = Some ro →
  rec_related_objects ro !! name = Some t →
  Record_get_one2many_rel_obj client r name d st = (st, Ret t).
Proof.
  intros Hr Hm. unfold Record_get_one2many_rel_obj.
  rewrite (bind_ret _ _ _ _ _ (get_rec_run _ _ _ Hr)). rewrite Hm.
  rewrite bind_run. simpl. unfold related_get.
  rewrite (bind_ret _ _ _ _ _ (get_rec_run _ _ _ Hr)). by rewrite Hm.
Qed.

Lemma set_related_run st r ro g :
  records st !! r = Some ro →
  set_related r g st =
    (set_records (λ rs, <[r := {| rec_object := rec_object ro; rec_cache := rec_cache ro;
                                rec_id := rec_id ro;
                                rec_related_objects := g (rec_related_objects ro) |}]> rs) st,
     Ret tt).
Proof.
  intros Hr. unfold set_related.
  rewrite (bind_ret _ _ _ _ _ (get_rec_run _ _ _ Hr)). reflexivity.
Qed.

Lemma relation_of_run client obj name fi rel st :
  columns_info client obj !! name = Some fi → f_relation fi = Some rel →
  relation_of client obj name st = (st, Ret rel).
Proof.
  intros Hcol Hrel. unfold relation_of. rewrite Hcol. rewrite bind_run. simpl.
  by rewrite Hrel.
Qed.

Lemma get_obj_run client rel st :
  registered_objects client rel = true → get_obj client rel st = (st, Ret rel).
Proof. intros H. unfold get_obj. by rewrite H. Qed.

(** X10: the first resolution of a many2one field whose raw value is an id,
    or an (id, name) pair, makes a record handle for that id on the
    collection of the relation and on the cache store of [r], registers the
    id there, and memoizes the handle: every later resolution returns the
    same handle, whatever raw value it is given, and changes nothing.  A
    falsy raw value resolves to [False], memoized the same way.  No remote
    read is issued. *)
Theorem Record_get_many2one_memoizes (client : Client) (st : state) (r : addr)
    (ro : RecordObj) (name rel : string) (fi : field_info) :
  records st !! r = Some ro →
  rec_related_objects ro !! name = None →
  (rec_cache ro < length (caches st))%nat →
  columns_info client (rec_object ro) !! name = Some fi →
  f_relation fi = Some rel →
  registered_objects client rel = true →
  (∀ rel_data i,
     (rel_data = VInt i ∧ i ≠ 0) ∨ (∃ rest, rel_data = VList (VInt i :: rest)) →
     ∃ st',
       Record_get_many2one_rel_obj client r name rel_data st =
         (st', Ret (PRec (length (records st)))) ∧
       records st' !! length (records st) = Some (new_record rel (rec_cache ro) i) ∧
       is_Some (row_of st' (rec_cache ro) rel i) ∧
       (∀ d, Record_get_many2one_rel_obj client r name d st' =
               (st', Ret (PRec (length (records st))))) ∧
       log st' = log st) ∧
  (∀ rel_data, truthy rel_data = false →
     ∃ st',
       Record_get_many2one_rel_obj client r name rel_data st =
         (st', Ret (PVal (VBool false))) ∧
       (∀ d, Record_get_many2one_rel_obj client r name d st' =
               (st', Ret (PVal (VBool false)))) ∧
       caches st' = caches st ∧ log st' = log st).
Proof.
  intros Hr Hm Hc Hcol Hrel Hreg.
  assert (Hlt : (r < length (records st))%nat) by (by eapply lookup_lt_Some).
  split.
  - intros rel_data i Hdata.
    assert (Hstart : Record_get_many2one_rel_obj client r name rel_data st =
      ((a ← get_record rel (VInt i) (Some (rec_cache ro))
              (oc_context (bucket_of st (rec_cache ro) (rec_object ro)));
        set_related r (insert name (PRec a)));; related_get r name) st).
    { unfold Record_get_many2one_rel_obj.
      rewrite (bind_ret _ _ _ _ _ (get_rec_run _ _ _ Hr)). rewrite Hm.
      assert (Ht : truthy rel_data = true).
      { destruct Hdata as [[-> Hi]|[rest ->]]; simpl; [|done].
        by destruct (Z.eqb_spec i 0). }
      rewrite Ht. rewrite bind_run.
      assert (Hid : (match rel_data with
                     | VList (x :: _) => mret x
                     | VList [] => raise (TypeError "list index out of range")
                     | VStr s => mret (VStr (String.substring 0 1 s))
                     | v => mret v
                     end : M value) st = (st, Ret (VInt i))).
      { by destruct Hdata as [[-> Hi]|[rest ->]]. }
      rewrite (bind_ret _ _ _ _ _ Hid).
      rewrite (bind_ret _ _ _ _ _ (relation_of_run _ _ _ _ _ _ Hcol Hrel)).
      rewrite (bind_ret _ _ _ _ _ (get_obj_run _ _ _ Hreg)).
      rewrite (bind_ret _ _ _ _ _ (Record_context_run _ _ _ Hr Hc)).
      rewrite !bind_run. reflexivity. }
    rewrite Hstart. rewrite bind_run.
    rewrite (bind_ret _ _ _ _ _ (get_record_run _ _ _ _ _ Hc)).
    set (s1 := set_records _ _).
    assert (Hr1 : records s1 !! r = Some ro).
    { subst s1. simpl. by apply lookup_app_l_Some. }
    rewrite (set_related_run _ _ _ _ Hr1).
    set (s2 := set_records _ s1).
    set (ro2 := {| rec_object := rec_object ro; rec_cache := rec_cache ro;
                   rec_id := rec_id ro;
                   rec_related_objects :=
                     <[name := PRec (length (records st))]> (rec_related_objects ro) |}).
    assert (Hr2 : records s2 !! r = Some ro2).
    { subst s2. simpl. apply list_lookup_insert_eq. rewrite length_app. lia. }
    assert (Hm2 : rec_related_objects ro2 !! name = Some (PRec (length (records st))))
      by apply lookup_insert_eq.
    exists s2. split.
    { unfold related_get. rewrite (bind_ret _ _ _ _ _ (get_rec_run _ _ _ Hr2)).
      by rewrite Hm2. }
    split.
    { subst s2 s1. simpl. rewrite list_lookup_insert_ne by lia.
      by apply list_lookup_middle. }
    split; [apply (row_of_register_context st _ _ _ _ Hc)|].
    split; [intros d; by eapply many2one_memo_hit|done].
  - intros rel_data Ht.
    set (ro2 := {| rec_object := rec_object ro; rec_cache := rec_cache ro;
                   rec_id := rec_id ro;
                   rec_related_objects :=
                     <[name := PVal (VBool false)]> (rec_related_objects ro) |}).
    exists (set_records (λ rs, <[r := ro2]> rs) st).
    assert (Hr2 : records (set_records (λ rs, <[r := ro2]> rs) st) !! r = Some ro2).
    { simpl. by apply list_lookup_insert_eq. }
    assert (Hm2 : rec_related_objects ro2 !! name = Some (PVal (VBool false)))
      by apply lookup_insert_eq.
    split.
    { unfold Record_get_many2one_rel_obj.
      rewrite (bind_ret _ _ _ _ _ (get_rec_run _ _ _ Hr)). rewrite Hm, Ht.
      rewrite (bind_ret _ _ _ _ _ (set_related_run _ _ _ _ Hr)).
      unfold related_get. rewrite (bind_ret _ _ _ _ _ (get_rec_run _ _ _ Hr2)).
      by rewrite Hm2. }
    split; [intros d; by eapply many2one_memo_hit|done].
Qed.

(** X11: the first resolution of a one2many or many2many field whose raw
    value is a list of ids makes a record list with those ids, in order, on
    the collection of the relation and on the cache store of [r], with
    every id registered in that bucket (so that a later miss on one of them
    fetches for all), and memoizes the list: every later resolution returns
    the same list and changes nothing.  No remote read is issued. *)
Theorem Record_get_one2many_memoizes (client : Client) (st : state) (r : addr)
    (ro : RecordObj) (name rel : string) (fi : field_info) (ids : list Z) :
  records st !! r = Some ro →
  rec_related_objects ro !! name = None →
  (rec_cache ro < length (caches st))%nat →
  columns_info client (rec_object ro) !! name = Some fi →
  f_relation fi = Some rel →
  registered_objects client rel = true →
  ∃ st' lo',
    Record_get_one2many_rel_obj client r name (VList (VInt <$> ids)) st =
      (st', Ret (PList (length (lists st)))) ∧
    lists st' !! length (lists st) = Some lo' ∧
    rl_object lo' = rel ∧ rl_cache lo' = rec_cache ro ∧
    ids_at st' (rl_records lo') = Some ids ∧
    (∀ i, i ∈ ids → is_Some (row_of st' (rec_cache ro) rel i)) ∧
    (∀ d, Record_get_one2many_rel_obj client r name d st' =
            (st', Ret (PList (length (lists st))))) ∧
    log st' = log st.
Proof.
  intros Hr Hm Hc Hcol Hrel Hreg.
  assert (Hlt : (r < length (records st))%nat) by (by eapply lookup_lt_Some).
  set (ctx := oc_context (bucket_of st (rec_cache ro) (rec_object ro))).
  assert (Hstart : Record_get_one2many_rel_obj client r name (VList (VInt <$> ids)) st =
    ((l ← get_record_list client rel ids None (Some (rec_cache ro)) ctx;
      set_related r (insert name (PList l)));; related_get r name) st).
  { unfold Record_get_one2many_rel_obj.
    rewrite (bind_ret _ _ _ _ _ (get_rec_run _ _ _ Hr)). rewrite Hm.
    rewrite bind_run.
    rewrite (bind_ret _ _ _ _ _ (relation_of_run _ _ _ _ _ _ Hcol Hrel)).
    rewrite (bind_ret _ _ _ _ _ (get_obj_run _ _ _ Hreg)).
    rewrite (bind_ret _ _ _ _ _ (Record_context_run _ _ _ Hr Hc)).
    unfold get_record_list_raw.
    pose proof (ids_of_value_ints ids) as Hi. rewrite Hi.
    rewrite !bind_run. reflexivity. }
  rewrite Hstart. rewrite bind_run.
  rewrite (bind_ret _ _ _ _ _ (get_record_list_run _ _ _ _ _ _ _ Hc)).
  set (s1 := set_lists _ _).
  assert (Hr1 : records s1 !! r = Some ro).
  { subst s1. simpl. by apply lookup_app_l_Some. }
  rewrite (set_related_run _ _ _ _ Hr1).
  set (s2 := set_records _ s1).
  set (ro2 := {| rec_object := rec_object ro; rec_cache := rec_cache ro;
                 rec_id := rec_id ro;
                 rec_related_objects :=
                   <[name := PList (length (lists st))]> (rec_related_objects ro) |}).
  assert (Hr2 : records s2 !! r = Some ro2).
  { subst s2. simpl. apply list_lookup_insert_eq. rewrite length_app. lia. }
  assert (Hm2 : rec_related_objects ro2 !! name = Some (PList (length (lists st))))
    by apply lookup_insert_eq.
  exists s2. eexists. split.
  { unfold related_get. rewrite (bind_ret _ _ _ _ _ (get_rec_run _ _ _ Hr2)).
    by rewrite Hm2. }
  split; [subst s2 s1; simpl; by apply list_lookup_middle|]. simpl.
  split; [done|]. split; [done|].
  split.
  { unfold ids_at. subst s2 s1. simpl. apply mapM_Some_2.
    apply Forall2_same_length_lookup_2; [by rewrite length_seq|].
    intros k a i Ha Hi. apply lookup_seq in Ha as [-> Hk].
    rewrite list_lookup_insert_ne by lia.
    rewrite lookup_app_r by lia.
    replace (length (records st) + k - length (records st))%nat with k by lia.
    rewrite list_lookup_fmap, Hi. reflexivity. }
  split.
  { intros i Hi. unfold row_of.
    match goal with |- context [bucket_of ?s (rec_cache ro) rel] =>
      replace (bucket_of s (rec_cache ro) rel)
        with (update_keys ids (with_context ctx (bucket_of st (rec_cache ro) rel)))
        by (symmetry; exact (put_bucket_same (rec_cache ro) rel _ st Hc)) end.
    by apply update_keys_registered. }
  split; [intros d; by eapply one2many_memo_hit|done].
Qed.

(** ** Explicit reads *)

Lemma row_get_dict d key : row_get d key = row_dict d !! key.
Proof.
  unfold row_get, row_dict. destruct (String.eqb_spec key "id") as [->|Hne].
  - by rewrite lookup_insert_eq.
  - by rewrite lookup_insert_ne.
Qed.

Lemma cached_update_row st c obj d c' obj' j g :
  (c < length (caches st))%nat →
  cached (put_bucket c obj (update_row d (bucket_of st c obj)) st) c' obj' j g =
    if decide (c' = c ∧ obj' = obj ∧ j = row_id d) then
      match row_get d g with
      | Some v => Some v
      | None => cached st c' obj' j g
      end
    else cached st c' obj' j g.
Proof.
  intros Hc. unfold cached, row_of. rewrite bucket_of_put by done.
  destruct (decide (c' = c ∧ obj' = obj)) as [[-> ->]|Hne].
  - simpl. destruct (decide (j = row_id d)) as [->|Hj].
    + rewrite decide_True by done. rewrite lookup_insert_eq. simpl.
      rewrite lookup_union, row_get_dict.
      destruct (row_dict d !! g) as [v|] eqn:Ed; simpl.
      * by destruct (default ∅ (oc_rows (bucket_of st c obj) !! row_id d) !! g).
      * destruct (oc_rows (bucket_of st c obj) !! row_id d) as [e|]; simpl.
        -- by destruct (e !! g).
        -- by rewrite lookup_empty.
    + rewrite lookup_insert_ne by done.
      rewrite decide_False by (intros (_ & _ & ?); done). reflexivity.
  - rewrite decide_False by (intros (? & ? & _); by apply Hne). reflexivity.
Qed.

Lemma update_rows_run c obj rows st :
  (c < length (caches st))%nat →
  ∃ st',
    for_each (λ rdata, update_lcache c obj (update_row rdata)) rows st = (st', Ret tt) ∧
    length (caches st') = length (caches st) ∧
    records st' = records st ∧ lists st' = lists st ∧ log st' = log st ∧
    ∀ c' obj' j g,
      cached st' c' obj' j g =
        if decide (c' = c ∧ obj' = obj) then
          match last_written g rows j with
          | Some v => Some v
          | None => cached st c' obj' j g
          end
        else cached st c' obj' j g.
Proof.
  intros Hc. revert st Hc. induction rows as [|d rows IH]; intros st Hc.
  - exists st. simpl. repeat split; try reflexivity. intros. by case_decide.
  - simpl. rewrite bind_run. rewrite update_lcache_run by done.
    set (st1 := put_bucket c obj _ st).
    destruct (IH st1) as (st' & Hrun & Hlen & Hrec & Hl & Hlog & Hcached).
    { subst st1. by rewrite put_bucket_length. }
    exists st'. split; [exact Hrun|].
    split; [rewrite Hlen; subst st1; apply put_bucket_length|].
    do 3 (split; [done|]).
    intros c' obj' j g. rewrite Hcached. subst st1.
    rewrite cached_update_row by done.
    destruct (decide (c' = c ∧ obj' = obj)) as [[-> ->]|Hne].
    + destruct (last_written g rows j); [reflexivity|].
      destruct (decide (row_id d = j)) as [->|Hj].
      * rewrite decide_True by done. reflexivity.
      * rewrite decide_False by (intros (_ & _ & ?); congruence). reflexivity.
    + rewrite decide_False by (intros (? & ? & _); by apply Hne). reflexivity.
Qed.

(** X12: [Record.read] issues one read, for the id of the record alone (or,
    with [multi], for every id registered in its bucket), with the context
    of the bucket overridden by the one passed (and no context at all when
    both are empty); when the server answers, every key of every returned
    row is written to the cache entry of that row (the last row winning,
    what a row does not mention being kept), and the row of this record is
    returned. *)
Theorem Record_read_writes_back (client : Client) (st : state) (r : addr)
    (ro : RecordObj) (fields : option (list string))
    (context : option (gmap string value)) (multi : bool) (rows : list row) :
  records st !! r = Some ro →
  (rec_cache ro < length (caches st))%nat →
  let b := bucket_of st (rec_cache ro) (rec_object ro) in
  let ctx := default ∅ context ∪ default ∅ (oc_context b) in
  let rq := {| rq_object := rec_object ro;
               rq_ids := if multi then (map_to_list (oc_rows b)).*1 else [rec_id ro];
               rq_fields := fields;
               rq_context := if decide (ctx = ∅) then None else Some ctx |} in
  remote_read client (log st) rq = Some rows →
  ∃ st',
    Record_read client r fields context multi st =
      (st', Ret (last (filter (λ rdata, row_id rdata = rec_id ro) rows))) ∧
    log st' = log st ++ [rq] ∧
    (∀ i key, cached st' (rec_cache ro) (rec_object ro) i key =
                match last_written key rows i with
                | Some v => Some v
                | None => cached st (rec_cache ro) (rec_object ro) i key
                end) ∧
    (∀ d key v, d ∈ rows → row_get d key = Some v →
                is_Some (cached st' (rec_cache ro) (rec_object ro) (row_id d) key)) ∧
    records st' = records st ∧ lists st' = lists st.
Proof.
  intros Hr Hc b ctx rq Hrows.
  unfold Record_read.
  rewrite (bind_ret _ _ _ _ _ (get_rec_run _ _ _ Hr)).
  rewrite (bind_ret _ _ _ _ _ (Record_context_run _ _ _ Hr Hc)).
  rewrite (bind_ret _ _ _ _ _ (lcache_run _ _ _ Hc)).
  fold b. fold ctx.
  assert (Hread : object_read client (rec_object ro)
                    (if multi then (map_to_list (oc_rows b)).*1 else [rec_id ro]) fields
                    (if decide (ctx = ∅) then None else Some ctx) st =
                  (set_log (λ lg, lg ++ [rq]) st, Ret rows)).
  { unfold object_read. rewrite (bind_run get_state). simpl.
    rewrite (bind_run (modify _)). simpl. fold rq. by rewrite Hrows. }
  rewrite (bind_ret _ _ _ _ _ Hread).
  destruct (update_rows_run (rec_cache ro) (rec_object ro) rows
              (set_log (λ lg, lg ++ [rq]) st) Hc)
    as (st' & Hrun & Hlen & Hrec & Hl & Hlog & Hcached).
  rewrite (bind_ret _ _ _ _ _ Hrun). exists st'.
  split; [reflexivity|]. split; [exact Hlog|].
  assert (Hfinal : ∀ i key, cached st' (rec_cache ro) (rec_object ro) i key =
                     match last_written key rows i with
                     | Some v => Some v
                     | None => cached st (rec_cache ro) (rec_object ro) i key
                     end).
  { intros i key. rewrite Hcached. by rewrite decide_True. }
  split; [exact Hfinal|]. split; [|done].
  intros d key v Hd Hv. rewrite Hfinal.
  destruct (last_written_returned key rows d Hd) as [w ->]; eauto.
Qed.

Lemma RecordList_context_run st l lo :
  lists st !! l = Some lo →
  (rl_cache lo < length (caches st))%nat →
  RecordList_context l st =
    (st, Ret (oc_context (bucket_of st (rl_cache lo) (rl_object lo)))).
Proof.
  intros Hl Hc. unfold RecordList_context.
  rewrite (bind_ret _ _ _ _ _ (get_list_run _ _ _ Hl)).
  rewrite (bind_ret _ _ _ _ _ (lcache_run _ _ _ Hc)). reflexivity.
Qed.

(** X13: [RecordList.read] issues one read for the ids of the list, in list
    order, under the context of the list overridden by the one passed (the
    caller's keys win), hands the server's answer back, and writes nothing
    to any cache store: apart from the log of reads the store is left as it
    was. *)
Theorem RecordList_read_passes_through (client : Client) (st : state) (l : addr)
    (lo : RecordListObj) (ids : list Z) (fields : option (list string))
    (context : option (gmap string value)) :
  lists st !! l = Some lo →
  ids_at st (rl_records lo) = Some ids →
  (rl_cache lo < length (caches st))%nat →
  let own := oc_context (bucket_of st (rl_cache lo) (rl_object lo)) in
  let ctx := match context with
             | None => own
             | Some new => Some (new ∪ default ∅ own)
             end in
  let rq := {| rq_object := rl_object lo; rq_ids := ids; rq_fields := fields;
               rq_context := ctx |} in
  ∃ st',
    RecordList_read client l fields context st =
      (st', match remote_read client (log st) rq with
            | Some rows => Ret rows
            | None => Raise RemoteFailure
            end) ∧
    log st' = log st ++ [rq] ∧
    caches st' = caches st ∧ records st' = records st ∧ lists st' = lists st ∧
    (∀ new key v, context = Some new → new !! key = Some v →
                  ∃ merged, ctx = Some merged ∧ merged !! key = Some v).
Proof.
  intros Hl Hids Hc own ctx rq.
  exists (set_log (λ lg, lg ++ [rq]) st). unfold RecordList_read.
  assert (Hctx : RecordList_new_context l context st = (st, Ret ctx)).
  { unfold RecordList_new_context. destruct context as [new|].
    - rewrite (bind_ret _ _ _ _ _ (RecordList_context_run _ _ _ Hl Hc)). reflexivity.
    - by apply RecordList_context_run. }
  rewrite (bind_ret _ _ _ _ _ Hctx).
  rewrite (bind_ret _ _ _ _ _ (get_list_run _ _ _ Hl)).
  rewrite (bind_ret _ _ _ _ _ (RecordList_ids_run _ _ _ _ Hl Hids)).
  split.
  { unfold object_read. rewrite (bind_run get_state). simpl.
    rewrite (bind_run (modify _)). simpl. fold rq.
    by destruct (remote_read client (log st) rq). }
  split; [done|]. split; [done|]. split; [done|]. split; [done|].
  intros new key v -> Hkey. eexists. split; [reflexivity|].
  by apply lookup_union_Some_l.
Qed.

(** ** Refreshing a record list, and reading after a refresh *)

Lemma finished_start st : finished st (λ _, False) st.
Proof.
  split; [reflexivity|]. intros a roa _ Ha Hm b (roa' & name & Ha' & Hedge).
  assert (roa' = roa) as -> by congruence. rewrite Hm in Hedge.
  destruct Hedge as [H|(l & lo & H & _)]; by rewrite lookup_empty in H.
Qed.

(** X14: [L.refresh()] returns [L] itself (given fuel above twice the number
    of memoized targets in the store); afterwards every member of [L], and
    every record reached from a member through memoized records and record
    lists, has an empty memo and a cache entry holding its id and no field;
    the lists are as they were and no remote read was issued. *)
Theorem RecordList_refresh_spec (st : state) (l : addr) (lo : RecordListObj) (fuel : nat) :
  closed st →
  lists st !! l = Some lo →
  (2 * memo_count st + 2 ≤ fuel)%nat →
  ∃ st',
    RecordList_refresh fuel l st = Some (st', Ret l) ∧
    (∀ a b, a ∈ rl_records lo → rtc (memo_succ st) a b → clean st' b) ∧
    only_resets st st' ∧ lists st' = lists st ∧ log st' = log st.
Proof.
  intros Hclosed Hlo Hfuel.
  destruct (refresh_enough_fuel st fuel) as [_ Hlist].
  destruct (Hlist st l (λ _, False) Hclosed (finished_start st))
    as (st' & Hrun & Hres & Hfin' & Hclean); [by eapply lookup_lt_Some|done|].
  exists st'. split; [exact Hrun|].
  pose proof Hres as (Hl & Hlog & _).
  split; [|done].
  intros a b Ha. apply rtc_ind_r.
  - simpl in Hclean. apply (Hclean lo a); [by rewrite Hl|done].
  - intros x y _ Hxy (rox & Hx & Hmx & _).
    destruct Hfin' as [_ Hfin']. eapply (Hfin' x rox); eauto.
Qed.

Lemma Record_getitem_miss_log (client : Client) (st : state) (r : addr)
    (ro : RecordObj) (fi : field_info) (name : string) (e : gmap string value) :
  records st !! r = Some ro →
  name ≠ "id" →
  columns_info client (rec_object ro) !! name = Some fi →
  row_of st (rec_cache ro) (rec_object ro) (rec_id ro) = Some e →
  e !! name = None →
  log (Record_getitem client r name st).1 = log st ++ [miss_request st ro name].
Proof.
  intros Hr Hid Hcol He Hname.
  pose proof (Record_getitem_miss_run client st r ro fi name e Hr Hid Hcol He Hname) as Hrun.
  simpl in Hrun. rewrite Hrun.
  destruct (remote_read client (log st) (miss_request st ro name)) as [rows|]; [|reflexivity].
  rewrite bind_run.
  match goal with |- context [write_rows ?c ?o ?t ?n ?rs ?s] =>
    pose proof (same_log_write_rows c o t n rs s) as H1; unfold pres in H1;
    destruct (write_rows c o t n rs s) as [s3 [[]|ex]]; simpl in H1; [|exact H1] end.
  pose proof (same_log_resolve client r (f_type fi) name s3) as H2.
  unfold pres, same_log in *. rewrite H2, H1. reflexivity.
Qed.

(** X15: after [r.refresh()] the next access to any declared field of [r]
    other than ['id'] goes to the server again, whether or not the field
    was cached before the refresh: exactly one read is appended to the log,
    for that field alone, on the collection of [r], and the row id of [r]
    is among the ids read. *)
Theorem refresh_then_getitem_rereads (client : Client) (st : state) (r : addr)
    (ro : RecordObj) (fi : field_info) (name : string) (fuel : nat) :
  closed st →
  records st !! r = Some ro →
  (2 * memo_count st + 1 ≤ fuel)%nat →
  name ≠ "id" →
  columns_info client (rec_object ro) !! name = Some fi →
  ∃ st' rq,
    Record_refresh fuel r st = Some (st', Ret r) ∧
    log (Record_getitem client r name st').1 = log st ++ [rq] ∧
    rq_object rq = rec_object ro ∧ rq_fields rq = Some [name] ∧
    rec_id ro ∈ rq_ids rq.
Proof.
  intros Hclosed Hro Hfuel Hid Hcol.
  destruct (refresh_enough_fuel st fuel) as [Hrec _].
  destruct (Hrec st r (λ _, False) Hclosed (finished_start st))
    as (st' & Hrun & Hres & _ & Hclean); [by eapply lookup_lt_Some|done|].
  pose proof Hres as (_ & Hlog & _ & _ & R & _).
  destruct (R r ro Hro) as (ro' & Hro' & O & K & I & _).
  destruct Hclean as (ro'' & Hro'' & _ & Hrow).
  assert (ro'' = ro') as -> by congruence.
  assert (Hnone : reset_entry (rec_id ro') !! name = None).
  { unfold reset_entry. by apply lookup_singleton_ne. }
  exists st', (miss_request st' ro' name). split; [exact Hrun|].
  split.
  { rewrite <- Hlog. rewrite <- O in Hcol.
    exact (Record_getitem_miss_log client st' r ro' fi name _ Hro' Hid Hcol Hrow Hnone). }
  split; [exact O|]. split; [reflexivity|].
  rewrite <- I. simpl. apply get_ids_to_read_spec. exists (reset_entry (rec_id ro')).
  split; [|exact Hnone]. exact Hrow.
Qed.

(** ** What a field access leaves alone *)

Global Instance handles_kept_preorder : PreOrder handles_kept.
Proof.
  split.
  - intros st. split; [done|]. split; [eauto 10|done].
  - intros s1 s2 s3 (L1 & R1 & K1) (L2 & R2 & K2). split; [lia|]. split.
    + intros a ro H. destruct (R1 a ro H) as (ro' & H' & ? & ? & ?).
      destruct (R2 a ro' H') as (ro'' & H'' & ? & ? & ?).
      exists ro''. split; [done|]. split; [congruence|]. split; congruence.
    + eauto.
Qed.

(** X16: whatever the field name and whether the access returns or raises,
    [r[name]] leaves every existing handle standing for the same row of the
    same collection on the same cache store, leaves every existing record
    list with the same members, and drops no cache store. *)
Theorem Record_getitem_keeps_handles (client : Client) (r : addr) (name : string)
    (st : state) :
  handles_kept st (Record_getitem client r name st).1.
Proof.
  apply (pres_Record_getitem client handles_kept).
  - intros s. split; [simpl; rewrite length_app; lia|]. split; [eauto 10|done].
  - intros s c obj b. split.
    + unfold put_bucket. simpl. by rewrite length_insert.
    + split; [eauto 10|done].
  - intros s ro. split; [done|]. split; [|done].
    intros a ro' H. exists ro'. split; [by apply lookup_app_l_Some|done].
  - intros s a ro g Hr. split; [done|]. split; [|done].
    intros a' ro' H. simpl. destruct (decide (a' = a)) as [->|Hne].
    + eexists. split; [apply list_lookup_insert_eq; by eapply lookup_lt_Some|].
      simpl. assert (ro' = ro) as -> by congruence. done.
    + exists ro'. by rewrite list_lookup_insert_ne.
  - intros s lo. split; [done|]. split; [eauto 10|].
    intros l' lo' H. by apply lookup_app_l_Some.
  - intros s f. split; [done|]. split; [eauto 10|done].
Qed.

(** ** Searching *)


(** ** These properties at work on the three partners *)

Lemma RecordList_setitem_getitem_witness :
  ∃ st', RecordList_setitem 0%nat (-1) (PRec 0%nat) demo_store = (st', Ret tt) ∧
         RecordList_getitem 0%nat (-1) st' = (st', Ret 0%nat).
Proof.
  destruct (RecordList_setitem_getitem demo_store 0%nat
              {| rl_object := "res.partner"; rl_cache := 0%nat;
                 rl_records := [0; 1; 2]%nat |} (-1) 0%nat)
    as (st' & k & lo' & H1 & H2 & _).
  - reflexivity.
  - simpl. lia.
  - exists st'. split; assumption.
Defined.

Lemma RecordList_setitem_rejects_witness :
  RecordList_setitem 0%nat 0 (PVal (VInt 1)) demo_store =
    (demo_store, Raise (ValueError
       "In 'RecordList[index] = value' operation, value must be instance of Record")).
Proof.
  refine (proj1 (RecordList_setitem_rejects demo_store 0%nat
                   {| rl_object := "res.partner"; rl_cache := 0%nat;
                      rl_records := [0; 1; 2]%nat |} 0 _) (PVal (VInt 1)) _).
  - reflexivity.
  - intros a. discriminate.
Defined.

Lemma RecordList_insert_delitem_witness :
  ∃ st1 st2,
    RecordList_insert demo_client 0%nat 1 (PRec 2%nat) demo_store = (st1, Ret 0%nat) ∧
    RecordList_delitem 0%nat 1 st1 = (st2, Ret tt) ∧
    lists st2 !! 0%nat = Some {| rl_object := "res.partner"; rl_cache := 0%nat;
                                 rl_records := [0; 1; 2]%nat |}.
Proof.
  destruct (RecordList_insert_delitem demo_client demo_store 0%nat
              {| rl_object := "res.partner"; rl_cache := 0%nat;
                 rl_records := [0; 1; 2]%nat |} 1 2%nat)
    as (st1 & st2 & H1 & _ & H3 & H4 & _).
  - reflexivity.
  - simpl. lia.
  - exists st1, st2. split; [assumption|]. split; assumption.
Defined.

Lemma RecordList_existing_spec_witness :
  ∃ st' ids',
    RecordList_existing demo_client (λ _ _, Some [1; 3]) 0%nat true demo_store =
      (st', Ret (length (lists demo_store))) ∧
    (∀ i, i ∈ ids' ↔ i ∈ [1; 2; 3] ∧ i ∈ [1; 3]) ∧
    NoDup ids'.
Proof.
  destruct (RecordList_existing_spec demo_client (λ _ _, Some [1; 3]) demo_store 0%nat
              {| rl_object := "res.partner"; rl_cache := 0%nat;
                 rl_records := [0; 1; 2]%nat |} [1; 2; 3] [1; 3] true)
    as (st' & lo' & ids' & H1 & _ & _ & _ & _ & _ & H7 & H8 & _).
  - reflexivity.
  - reflexivity.
  - vm_compute. lia.
  - reflexivity.
  - exists st', ids'. split; [assumption|]. split; [assumption|]. by apply H8.
Defined.

Lemma get_encodings_always_offers_witness :
  head (get_encodings "latin1" "") = Some "latin1".
Proof.
  apply (proj1 (get_encodings_always_offers "latin1" "")). discriminate.
Defined.

Lemma get_record_registers_witness :
  ∃ st', get_record "res.partner" (VInt 7) (Some 0%nat) None demo_store =
           (st', Ret (length (records demo_store))) ∧
         is_Some (row_of st' 0%nat "res.partner" 7) ∧
         log st' = log demo_store.
Proof.
  destruct (proj1 (get_record_registers "res.partner" (VInt 7) 0%nat None demo_store
                     ltac:(vm_compute; lia)) 7 eq_refl)
    as (st' & H1 & _ & H3 & _ & _ & _ & H7).
  exists st'. split; [assumption|]. split; assumption.
Defined.


Lemma RecordList_contains_spec_witness :
  RecordList_contains 0%nat (PVal (VInt 2)) demo_store =
    (demo_store, Ret (bool_decide (2 ∈ [1; 2; 3]))).
Proof.
  refine (proj1 (RecordList_contains_spec demo_store 0%nat
                   {| rl_object := "res.partner"; rl_cache := 0%nat;
                      rl_records := [0; 1; 2]%nat |} [1; 2; 3] _ _) (VInt 2) 2 _).
  - reflexivity.
  - reflexivity.
  - reflexivity.
Defined.

Lemma RecordList_filter_spec_witness :
  ∃ st' lo',
    RecordList_filter demo_client 0%nat (λ r, mret (Nat.eqb r 1)) demo_store =
      (st', Ret (length (lists demo_store))) ∧
    lists st' !! length (lists demo_store) = Some lo' ∧
    ids_at st' (rl_records lo') = Some [2].
Proof.
  destruct (RecordList_filter_spec demo_client demo_store 0%nat
              {| rl_object := "res.partner"; rl_cache := 0%nat;
                 rl_records := [0; 1; 2]%nat |}
              (λ r, mret (Nat.eqb r 1)) (λ r, Nat.eqb r 1) [1; 2; 3])
    as (st' & lo' & ids' & H1 & H2 & _ & _ & H5 & H6 & _).
  - reflexivity.
  - reflexivity.
  - vm_compute. lia.
  - intros r _. reflexivity.
  - exists st', lo'. split; [assumption|]. split; [assumption|].
    rewrite H5, <- H6. vm_compute. reflexivity.
Defined.

Lemma Record_get_many2one_memoizes_witness :
  ∃ st',
    Record_get_many2one_rel_obj demo_client 1%nat "parent_id" (VList [VInt 1; VStr "A"])
      demo_store = (st', Ret (PRec (length (records demo_store)))) ∧
    (∀ d, Record_get_many2one_rel_obj demo_client 1%nat "parent_id" d st' =
            (st', Ret (PRec (length (records demo_store))))) ∧
    log st' = log demo_store.
Proof.
  destruct (proj1 (Record_get_many2one_memoizes demo_client demo_store 1%nat
                     (new_record "res.partner" 0%nat 2) "parent_id" "res.partner"
                     {| f_type := "many2one"; f_relation := Some "res.partner";
                        f_function := false |}
                     eq_refl eq_refl ltac:(vm_compute; lia) ltac:(vm_compute; reflexivity)
                     eq_refl eq_refl)
              (VList [VInt 1; VStr "A"]) 1
              (or_intror (ex_intro _ [VStr "A"] eq_refl)))
    as (st' & H1 & _ & _ & H4 & H5).
  exists st'. split; [assumption|]. split; assumption.
Defined.

Lemma Record_get_one2many_memoizes_witness :
  ∃ st' lo',
    Record_get_one2many_rel_obj demo_client 0%nat "child_ids" (VList (VInt <$> [2; 3]))
      demo_store = (st', Ret (PList (length (lists demo_store)))) ∧
    lists st' !! length (lists demo_store) = Some lo' ∧
    ids_at st' (rl_records lo') = Some [2; 3] ∧
    (∀ d, Record_get_one2many_rel_obj demo_client 0%nat "child_ids" d st' =
            (st', Ret (PList (length (lists demo_store))))).
Proof.
  destruct (Record_get_one2many_memoizes demo_client demo_store 0%nat
              (new_record "res.partner" 0%nat 1) "child_ids" "res.partner"
              {| f_type := "one2many"; f_relation := Some "res.partner";
                 f_function := false |} [2; 3])
    as (st' & lo' & H1 & H2 & _ & _ & H5 & _ & H7 & _).
  - reflexivity.
  - reflexivity.
  - vm_compute. lia.
  - vm_compute. reflexivity.
  - reflexivity.
  - reflexivity.
  - exists st', lo'. repeat (split; [assumption|]). assumption.
Defined.

Lemma Record_read_writes_back_witness :
  ∃ st',
    Record_read demo_client 0%nat (Some ["name"]) None false demo_store =
      (st', Ret (Some (partner_row (Some ["name"]) 1))) ∧
    is_Some (cached st' 0%nat "res.partner" 1 "name").
Proof.
  destruct (Record_read_writes_back demo_client demo_store 0%nat
              (new_record "res.partner" 0%nat 1) (Some ["name"]) None false
              [partner_row (Some ["name"]) 1])
    as (st' & H1 & _ & _ & H4 & _).
  - reflexivity.
  - vm_compute. lia.
  - reflexivity.
  - exists st'. split; [exact H1|].
    apply (H4 (partner_row (Some ["name"]) 1) "name" (VStr "A")).
    + apply list_elem_of_here.
    + reflexivity.
Defined.

Lemma RecordList_read_passes_through_witness :
  ∃ st',
    RecordList_read demo_client 0%nat (Some ["name"]) (Some {["lang" := VStr "en"]})
      demo_store = (st', Ret (partner_row (Some ["name"]) <$> [1; 2; 3])) ∧
    caches st' = caches demo_store.
Proof.
  destruct (RecordList_read_passes_through demo_client demo_store 0%nat
              {| rl_object := "res.partner"; rl_cache := 0%nat;
                 rl_records := [0; 1; 2]%nat |} [1; 2; 3] (Some ["name"])
              (Some {["lang" := VStr "en"]}))
    as (st' & H1 & _ & H3 & _).
  - reflexivity.
  - reflexivity.
  - vm_compute. lia.
  - exists st'. split; [exact H1|exact H3].
Defined.

Lemma RecordList_refresh_spec_witness :
  ∃ st', RecordList_refresh 14 0%nat demo_store_related = Some (st', Ret 0%nat) ∧
         (∀ a b, a ∈ [0; 1; 2]%nat → rtc (memo_succ demo_store_related) a b → clean st' b) ∧
         log st' = log demo_store_related.
Proof.
  destruct (RecordList_refresh_spec demo_store_related 0%nat
              {| rl_object := "res.partner"; rl_cache := 0%nat;
                 rl_records := [0; 1; 2]%nat |} 14)
    as (st' & H1 & H2 & _ & _ & H5).
  - apply closedb_closed. vm_compute. reflexivity.
  - vm_compute. reflexivity.
  - vm_compute. lia.
  - exists st'. split; [exact H1|]. split; [exact H2|exact H5].
Defined.

Lemma refresh_then_getitem_rereads_witness :
  ∃ st' rq,
    Record_refresh 1 0%nat demo_store_named = Some (st', Ret 0%nat) ∧
    log (Record_getitem demo_client 0%nat "name" st').1 = log demo_store_named ++ [rq] ∧
    rq_fields rq = Some ["name"] ∧ 1 ∈ rq_ids rq.
Proof.
  destruct (refresh_then_getitem_rereads demo_client demo_store_named 0%nat
              (new_record "res.partner" 0%nat 1)
              {| f_type := "char"; f_relation := None; f_function := false |} "name" 1)
    as (st' & rq & H1 & H2 & _ & H4 & H5).
  - apply closedb_closed. vm_compute. reflexivity.
  - vm_compute. reflexivity.
  - vm_compute. lia.
  - discriminate.
  - vm_compute. reflexivity.
  - exists st', rq. split; [exact H1|]. split; [exact H2|]. split; [exact H4|exact H5].
Defined.

Lemma Record_getitem_keeps_handles_witness :
  handles_kept demo_store (Record_getitem demo_client 0%nat "parent_id" demo_store).1.
Proof.
  exact (Record_getitem_keeps_handles demo_client 0%nat "parent_id" demo_store).
Defined.


(** ** Inserting at any index *)

Lemma py_insert_Forall2 {A B} (P : A → B → Prop) index x y l k :
  Forall2 P l k → P x y → Forall2 P (py_insert index x l) (py_insert index y k).
Proof.
  intros HF Hxy. unfold py_insert. rewrite <- (Forall2_length _ _ _ HF).
  apply Forall2_app; [by apply Forall2_take|].
  constructor; [done|by apply Forall2_drop].
Qed.

Lemma py_insert_elem_of {A} index (x : A) l y :
  y ∈ py_insert index x l ↔ y = x ∨ y ∈ l.
Proof.
  unfold py_insert. rewrite elem_of_app, elem_of_cons.
  set (k := Z.to_nat _).
  rewrite <- (take_drop k l) at 3. rewrite elem_of_app. tauto.
Qed.

Lemma py_insert_length {A} index (x : A) l :
  length (py_insert index x l) = S (length l).
Proof.
  unfold py_insert. set (k := Z.to_nat _).
  rewrite length_app. simpl. rewrite <- (take_drop k l) at 3.
  rewrite length_app. lia.
Qed.

(** X18: [L.insert(index, record)] accepts every index, in range or not: an
    index past the end places the record last, an index before the start
    places it first, as Python lists do. The list grows by exactly one
    member, the ids that were in [L] stay in it in the same order, and
    afterwards the id of the record and every earlier id are found by
    [in]. *)
Theorem RecordList_insert_any_index (client : Client) (st : state) (l : addr)
    (lo : RecordListObj) (ids : list Z) (index : Z) (a : addr) (ro : RecordObj) :
  lists st !! l = Some lo →
  ids_at st (rl_records lo) = Some ids →
  records st !! a = Some ro →
  ∃ st',
    RecordList_insert client l index (PRec a) st = (st', Ret l) ∧
    RecordList_ids l st' = (st', Ret (py_insert index (rec_id ro) ids)) ∧
    length (py_insert index (rec_id ro) ids) = S (length ids) ∧
    (Z.of_nat (length ids) ≤ index → py_insert index (rec_id ro) ids = ids ++ [rec_id ro]) ∧
    (index ≤ - Z.of_nat (length ids) → py_insert index (rec_id ro) ids = rec_id ro :: ids) ∧
    RecordList_contains l (PRec a) st' = (st', Ret true) ∧
    (∀ i, i = rec_id ro ∨ i ∈ ids →
          RecordList_contains l (PVal (VInt i)) st' = (st', Ret true)).
Proof.
  intros Hl Hids Ha.
  set (lo' := {| rl_object := rl_object lo; rl_cache := rl_cache lo;
                 rl_records := py_insert index a (rl_records lo) |}).
  set (st' := set_lists (λ ls, <[l := lo']> ls) st).
  assert (Hl' : lists st' !! l = Some lo').
  { subst st'. simpl. apply list_lookup_insert_eq. by eapply lookup_lt_Some. }
  assert (Hids' : ids_at st' (rl_records lo') = Some (py_insert index (rec_id ro) ids)).
  { unfold ids_at in *. subst st' lo'. simpl. apply mapM_Some.
    apply mapM_Some in Hids. apply py_insert_Forall2; [done|]. by rewrite Ha. }
  pose proof (RecordList_ids_run _ _ _ _ Hl' Hids') as Hrun.
  exists st'. split.
  { unfold RecordList_insert.
    rewrite (bind_ret _ _ _ _ _ (set_list_records_run _ _ _ _ Hl)). reflexivity. }
  split; [exact Hrun|]. split; [apply py_insert_length|].
  split.
  { intros Hge. unfold py_insert.
    destruct (Z.ltb_spec index 0); [lia|].
    rewrite Z.min_r by lia. rewrite Nat2Z.id.
    rewrite take_ge, drop_ge by lia. reflexivity. }
  split.
  { intros Hle. unfold py_insert.
    destruct (Z.ltb_spec index 0) as [Hneg|Hpos].
    - rewrite Z.max_l by lia. reflexivity.
    - assert (index = 0) as -> by lia. assert (length ids = 0%nat) as E by lia.
      rewrite E. reflexivity. }
  split.
  { unfold RecordList_contains.
    rewrite (bind_ret _ _ _ _ _ (get_list_run _ _ _ Hl')).
    assert (Ha' : records st' !! a = Some ro) by exact Ha.
    rewrite (bind_ret _ _ _ _ _ (get_rec_run _ _ _ Ha')).
    destruct (list_comp_get_rec_run _ _ _ Hids') as (others & Hothers & Hmap).
    rewrite (bind_ret _ _ _ _ _ Hothers).
    assert (Hin : rec_id ro ∈ rec_id <$> others).
    { rewrite Hmap. apply py_insert_elem_of. by left. }
    apply list_elem_of_fmap in Hin as (o & Ho & Hin).
    assert (Hex : existsb (λ other, Record_eq other ro) others = true).
    { apply existsb_exists. exists o. split; [by apply list_elem_of_In|].
      unfold Record_eq. by apply Z.eqb_eq. }
    rewrite Hex. reflexivity. }
  intros i Hi. unfold RecordList_contains.
  change (as_integral (VInt i)) with (Some i). cbv beta iota.
  rewrite (bind_ret _ _ _ _ _ Hrun).
  rewrite bool_decide_eq_true_2 by (by apply py_insert_elem_of). reflexivity.
Qed.

Lemma RecordList_insert_any_index_witness :
  ∃ st',
    RecordList_insert demo_client 0%nat 99 (PRec 0%nat) demo_store = (st', Ret 0%nat) ∧
    RecordList_ids 0%nat st' = (st', Ret ([1; 2; 3] ++ [1])) ∧
    RecordList_contains 0%nat (PVal (VInt 3)) st' = (st', Ret true).
Proof.
  destruct (RecordList_insert_any_index demo_client demo_store 0%nat
              {| rl_object := "res.partner"; rl_cache := 0%nat;
                 rl_records := [0; 1; 2]%nat |} [1; 2; 3] 99 0%nat
              (new_record "res.partner" 0%nat 1))
    as (st' & H1 & H2 & _ & _ & _ & _ & H7).
  - reflexivity.
  - reflexivity.
  - reflexivity.
  - exists st'. split; [exact H1|]. split.
    + exact H2.
    + apply H7. right. apply list_elem_of_In. simpl. tauto.
Defined.

(** ** The display name *)

Lemma register_data_lookup i key b :
  default ∅ (oc_rows (register i b) !! i) !! key = oc_rows b !! i ≫= (.!! key).
Proof.
  unfold register. destruct (oc_rows b !! i) as [e|] eqn:E; simpl.
  - by rewrite E.
  - rewrite lookup_insert_eq. simpl. apply lookup_empty.
Qed.

Lemma Record_data_hit st r ro e :
  records st !! r = Some ro →
  row_of st (rec_cache ro) (rec_object ro) (rec_id ro) = Some e →
  Record_data r st = (st, Ret e).
Proof.
  intros Hr He. pose proof (row_of_valid _ _ _ _ _ He) as Hc.
  rewrite (Record_data_run _ _ _ Hr Hc). cbv zeta.
  unfold row_of in He. rewrite (register_registered _ _ _ He), He. simpl.
  f_equal. unfold bucket_of, get_bucket in *.
  destruct (caches st !! rec_cache ro) as [ca|] eqn:Eca;
    [|apply lookup_ge_None in Eca; lia].
  simpl in *. destruct (ca !! rec_object ro) as [b|] eqn:Eb; simpl in *.
  - by eapply put_bucket_id.
  - by rewrite lookup_empty in He.
Qed.

Lemma name_rows_run c obj key (data : list (Z * value)) st :
  (c < length (caches st))%nat →
  ∃ st',
    for_each (λ p, update_lcache c obj (row_setitem p.1 key p.2)) data st = (st', Ret tt) ∧
    length (caches st') = length (caches st) ∧
    records st' = records st ∧ lists st' = lists st ∧ log st' = log st ∧
    ∀ c' obj' j g,
      cached st' c' obj' j g =
        if decide (c' = c ∧ obj' = obj ∧ g = key) then
          match last_named data j with
          | Some v => Some v
          | None => cached st c' obj' j g
          end
        else cached st c' obj' j g.
Proof.
  intros Hc. revert st Hc. induction data as [|p data IH]; intros st Hc.
  - exists st. simpl. repeat split; try reflexivity.
    intros. case_decide; reflexivity.
  - simpl. rewrite bind_run. rewrite update_lcache_run by done.
    set (st1 := put_bucket c obj _ st).
    destruct (IH st1) as (st' & Hrun & Hlen & Hrec & Hl & Hlog & Hcached).
    { subst st1. by rewrite put_bucket_length. }
    exists st'. split; [exact Hrun|].
    split; [rewrite Hlen; subst st1; apply put_bucket_length|].
    do 3 (split; [done|]).
    intros c' obj' j g. rewrite Hcached. subst st1.
    change (row_setitem p.1 key p.2) with (cache_field p.1 "" key p.2).
    rewrite cached_cache_field by done.
    destruct (decide (c' = c ∧ obj' = obj ∧ g = key)) as [(-> & -> & ->)|Hne].
    + destruct (last_named data j); [reflexivity|].
      destruct (decide (p.1 = j)) as [->|Hj].
      * rewrite decide_True by done. reflexivity.
      * rewrite decide_False by (intros (_ & _ & ? & _); congruence). reflexivity.
    + rewrite decide_False by (intros (? & ? & _ & ?); by apply Hne). reflexivity.
Qed.

(** X19: [Record._name] asks the server for names only when the cache
    entry of the record holds none. With a name cached it returns that name
    and leaves the store as it was, whatever the server would answer.
    Without one it makes a single [name_get] call for every row id
    registered in the bucket (the id of the record among them), writes each
    returned name to the cache entry of its row, changes no other cached
    field, issues no read, and returns the name now cached for the record,
    or ['ERROR'] when the server returned none for it. *)
Theorem Record_name_batched
    (name_get : list Z → option (gmap string value) → option (list (Z * value)))
    (st : state) (r : addr) (ro : RecordObj) :
  records st !! r = Some ro →
  (rec_cache ro < length (caches st))%nat →
  let c := rec_cache ro in
  let obj := rec_object ro in
  let key := "__name_get_result" in
  let b := register (rec_id ro) (bucket_of st c obj) in
  let ids := (map_to_list (oc_rows b)).*1 in
  (∀ v, cached st c obj (rec_id ro) key = Some v → v ≠ VNone →
        Record_name name_get r st = (st, Ret v)) ∧
  (cached st c obj (rec_id ro) key = None ∨ cached st c obj (rec_id ro) key = Some VNone →
   rec_id ro ∈ ids ∧
   ∀ data, name_get ids (oc_context b) = Some data →
     ∃ st',
       Record_name name_get r st =
         (st', Ret (default (VStr "ERROR") (cached st' c obj (rec_id ro) key))) ∧
       (∀ i, cached st' c obj i key =
               match last_named data i with
               | Some n => Some n
               | None => cached st c obj i key
               end) ∧
       (∀ c' obj' i g, g ≠ key → cached st' c' obj' i g = cached st c' obj' i g) ∧
       records st' = records st ∧ lists st' = lists st ∧ log st' = log st).
Proof.
  intros Hr Hc c obj key b ids. split.
  - intros v Hv Hnone. unfold cached in Hv.
    destruct (row_of st c obj (rec_id ro)) as [e|] eqn:He; [|discriminate]. simpl in Hv.
    unfold Record_name.
    rewrite (bind_ret _ _ _ _ _ (Record_data_hit _ _ _ _ Hr He)).
    fold key. rewrite Hv.
    assert (Hskip : ∀ m : M unit,
              match v with VNone => m | _ => mret tt end = (mret tt : M unit)).
    { intros m. by destruct v. }
    rewrite Hskip. rewrite bind_run. simpl.
    rewrite (bind_ret _ _ _ _ _ (Record_data_hit _ _ _ _ Hr He)).
    fold key. rewrite Hv. reflexivity.
  - intros Hmiss.
    assert (Hid : rec_id ro ∈ ids).
    { subst ids. apply list_elem_of_fmap.
      assert (Hreg : is_Some (oc_rows b !! rec_id ro)).
      { subst b. unfold register.
        destruct (oc_rows (bucket_of st c obj) !! rec_id ro) eqn:E; simpl.
        - rewrite E. eauto.
        - rewrite lookup_insert_eq. eauto. }
      destruct Hreg as [e He]. exists (rec_id ro, e). split; [done|].
      by apply elem_of_map_to_list. }
    split; [exact Hid|]. intros data Hdata.
    set (s1 := put_bucket c obj b st).
    assert (Hc1 : (c < length (caches s1))%nat) by (subst s1; by rewrite put_bucket_length).
    assert (Hb1 : bucket_of s1 c obj = b) by (subst s1; by apply put_bucket_same).
    assert (Hcached1 : ∀ c' obj' i g, cached s1 c' obj' i g = cached st c' obj' i g).
    { intros. apply (cached_put_neutral st c obj (register (rec_id ro))), neutral_register. }
    destruct (name_rows_run c obj key data s1 Hc1)
      as (s2 & Hloop & Hlen2 & Hrec2 & Hl2 & Hlog2 & Hcached2).
    assert (Hr2 : records s2 !! r = Some ro) by (rewrite Hrec2; exact Hr).
    assert (Hc2 : (c < length (caches s2))%nat) by (rewrite Hlen2; exact Hc1).
    set (s3 := put_bucket c obj (register (rec_id ro) (bucket_of s2 c obj)) s2).
    assert (Hcached3 : ∀ c' obj' i g, cached s3 c' obj' i g = cached s2 c' obj' i g).
    { intros. apply (cached_put_neutral s2 c obj (register (rec_id ro))), neutral_register. }
    exists s3.
    assert (Hfetch : (ro' ← get_rec r;
                      b' ← lcache (rec_cache ro') (rec_object ro');
                      ctx ← Record_context r;
                      data' ← lift_option RemoteFailure
                                (name_get (map_to_list (oc_rows b')).*1 ctx);
                      for_each (λ p, update_lcache (rec_cache ro') (rec_object ro')
                                       (row_setitem p.1 key p.2)) data') s1 =
                     (s2, Ret tt)).
    { assert (Hr1 : records s1 !! r = Some ro) by exact Hr.
      rewrite (bind_ret _ _ _ _ _ (get_rec_run _ _ _ Hr1)).
      rewrite (bind_ret _ _ _ _ _ (lcache_run _ _ _ Hc1)).
      rewrite (bind_ret _ _ _ _ _ (Record_context_run _ _ _ Hr1 Hc1)).
      fold c obj. rewrite Hb1. fold ids. rewrite Hdata.
      rewrite bind_run. simpl. exact Hloop. }
    split.
    { unfold Record_name.
      rewrite (bind_ret _ _ _ _ _ (Record_data_run _ _ _ Hr Hc)).
      fold c obj b s1. fold key.
      assert (Hd : default ∅ (oc_rows b !! rec_id ro) !! key =
                   cached st c obj (rec_id ro) key)
        by apply register_data_lookup.
      rewrite Hd.
      assert (Hrest : (d' ← Record_data r;
                       mret (default (VStr "ERROR") (d' !! key))) s2 =
                      (s3, Ret (default (VStr "ERROR") (cached s3 c obj (rec_id ro) key)))).
      { rewrite (bind_ret _ _ _ _ _ (Record_data_run _ _ _ Hr2 Hc2)).
        fold c obj. rewrite (register_data_lookup (rec_id ro) key (bucket_of s2 c obj)).
        rewrite Hcached3. reflexivity. }
      destruct Hmiss as [-> | ->]; rewrite bind_run; rewrite Hfetch; exact Hrest. }
    split.
    { intros i. rewrite Hcached3, Hcached2. rewrite decide_True by done.
      by rewrite Hcached1. }
    split.
    { intros c' obj' i g Hg. rewrite Hcached3, Hcached2.
      rewrite decide_False by (intros (_ & _ & ?); done). apply Hcached1. }
    split; [exact Hrec2|]. split; [exact Hl2|exact Hlog2].
Qed.

Lemma Record_name_batched_witness :
  ∃ st',
    Record_name (λ ids _, Some ((λ i, (i, VStr "Partner")) <$> ids)) 0%nat demo_store =
      (st', Ret (default (VStr "ERROR") (cached st' 0%nat "res.partner" 1 "__name_get_result"))) ∧
    (∀ i, cached st' 0%nat "res.partner" i "__name_get_result" =
            match last_named ((λ i, (i, VStr "Partner")) <$>
                    (map_to_list (oc_rows (register 1 (bucket_of demo_store 0%nat "res.partner")))).*1) i with
            | Some n => Some n
            | None => cached demo_store 0%nat "res.partner" i "__name_get_result"
            end).
Proof.
  destruct (proj2 (proj2 (Record_name_batched
                     (λ ids _, Some ((λ i, (i, VStr "Partner")) <$> ids))
                     demo_store 0%nat (new_record "res.partner" 0%nat 1)
                     eq_refl ltac:(vm_compute; lia))
                   (or_introl eq_refl))
              _ eq_refl)
    as (st' & H1 & H2 & _).
  exists st'. split; [exact H1|exact H2].
Defined.

(** ** Removing by index, and indexes out of range *)

(** X20: with an index in range (negative ones counting from the end),
    [del L[index]] removes exactly the member at that position: the ids of
    [L] afterwards are the ids before with that one position taken out, and
    nothing else in the store changes. With an index out of range, and so
    with every index on an empty list, [del L[index]] and [L[index]] raise
    [IndexError] and leave the store as it was. *)
Theorem RecordList_delitem_spec (st : state) (l : addr) (lo : RecordListObj)
    (ids : list Z) (index : Z) :
  lists st !! l = Some lo →
  ids_at st (rl_records lo) = Some ids →
  (- Z.of_nat (length ids) ≤ index < Z.of_nat (length ids) →
   ∃ st' k,
     RecordList_delitem l index st = (st', Ret tt) ∧
     k = Z.to_nat (if index <? 0 then Z.of_nat (length ids) + index else index) ∧
     RecordList_ids l st' = (st', Ret (delete k ids)) ∧
     S (length (delete k ids)) = length ids ∧
     caches st' = caches st ∧ records st' = records st ∧ log st' = log st) ∧
  (index < - Z.of_nat (length ids) ∨ Z.of_nat (length ids) ≤ index →
   RecordList_delitem l index st =
     (st, Raise (IndexError "list assignment index out of range")) ∧
   RecordList_getitem l index st = (st, Raise (IndexError "list index out of range"))).
Proof.
  intros Hl Hids.
  assert (Hlen : length (rl_records lo) = length ids).
  { unfold ids_at in Hids. apply mapM_Some in Hids. by eapply Forall2_length. }
  split.
  - intros Hin.
    set (k := Z.to_nat (if index <? 0 then Z.of_nat (length ids) + index else index)).
    assert (Hk : py_index (length (rl_records lo)) index = Some k ∧ (k < length ids)%nat).
    { rewrite Hlen. subst k. unfold py_index.
      destruct (Z.ltb_spec index 0), (Z.leb_spec 0 index),
        (Z.ltb_spec index (Z.of_nat (length ids))),
        (Z.leb_spec (- Z.of_nat (length ids)) index); simpl; try lia; split; (done || lia). }
    destruct Hk as [Hk Hklt].
    set (lo' := {| rl_object := rl_object lo; rl_cache := rl_cache lo;
                   rl_records := delete k (rl_records lo) |}).
    set (st' := set_lists (λ ls, <[l := lo']> ls) st).
    exists st', k. split.
    { unfold RecordList_delitem.
      rewrite (bind_ret _ _ _ _ _ (get_list_run _ _ _ Hl)). rewrite Hk.
      exact (set_list_records_run st l lo (λ recs, delete k recs) Hl). }
    split; [reflexivity|]. split.
    { apply (RecordList_ids_run st' l lo').
      - subst st'. simpl. apply list_lookup_insert_eq. by eapply lookup_lt_Some.
      - unfold ids_at in *. subst st' lo'. simpl. apply mapM_Some.
        apply mapM_Some in Hids. by apply Forall2_delete. }
    split; [|done].
    rewrite length_delete by (by apply lookup_lt_is_Some_2). lia.
  - intros Hout.
    assert (Hk : py_index (length (rl_records lo)) index = None).
    { rewrite Hlen. unfold py_index.
      destruct (Z.ltb_spec index 0), (Z.leb_spec 0 index),
        (Z.ltb_spec index (Z.of_nat (length ids))),
        (Z.leb_spec (- Z.of_nat (length ids)) index); simpl; try lia; done. }
    split.
    + unfold RecordList_delitem.
      rewrite (bind_ret _ _ _ _ _ (get_list_run _ _ _ Hl)). by rewrite Hk.
    + unfold RecordList_getitem.
      rewrite (bind_ret _ _ _ _ _ (get_list_run _ _ _ Hl)). by rewrite Hk.
Qed.

Lemma RecordList_delitem_spec_witness :
  ∃ st', RecordList_delitem 0%nat (-3) demo_store = (st', Ret tt) ∧
         RecordList_ids 0%nat st' = (st', Ret [2; 3]).
Proof.
  destruct (proj1 (RecordList_delitem_spec demo_store 0%nat
                     {| rl_object := "res.partner"; rl_cache := 0%nat;
                        rl_records := [0; 1; 2]%nat |} [1; 2; 3] (-3) eq_refl eq_refl)
              ltac:(simpl; lia))
    as (st' & k & H1 & Hk & H3 & _).
  exists st'. split; [exact H1|]. rewrite Hk in H3. exact H3.
Defined.
